(** * atomate2: list splitting, EOS post-processing, OpenMM annealing stages
      and the equilibrium-volume search

    Python integers are [Z] (with [//] and [%] as [Z.div] and [Z.modulo], which
    round as Python does), Python floats are idealised as exact numbers
    ([Q] where the code only compares and adds, [R] where a cube root is
    taken), dictionaries with string keys are [gmap string _], and objects
    that are shared and mutated live in an explicit heap.

    Part I holds the definitions, Part II the statements and proofs. *)

From Stdlib Require Import ZArith NArith QArith Qabs Qround Qfield Qminmax Reals Lra
  Lia Lqa List Sorted String Ascii Decimal DecimalString DecimalN DecimalFacts.
From stdpp Require Import base gmap strings list.

(* ===================================================================== *)
(** * Part I: definitions                                                 *)
(* ===================================================================== *)

(** ** [create_list_summing_to]
    (classical_md/utils.py and openmm/utils.py hold the same function) *)

Module Utils.

Local Open Scope Z_scope.

(** Python's [[x] * k]: [k] copies of [x], none when [k <= 0]. *)
Definition list_mul {A} (x : A) (k : Z) : list A := replicate (Z.to_nat k) x.

(** Python's [sum] on a list of integers. *)
Definition sum (l : list Z) : Z := foldr Z.add 0 l.

(** [div, mod = total_sum // n_pieces, total_sum % n_pieces]
    [return [div + 1] * mod + [div] * (n_pieces - mod)]
    [None] stands for the [ZeroDivisionError] of [n_pieces = 0]. *)
Definition create_list_summing_to (total_sum n_pieces : Z) : option (list Z) :=
  if decide (n_pieces = 0) then None
  else
    let div := total_sum / n_pieces in
    let mod_ := total_sum mod n_pieces in
    Some (list_mul (div + 1) mod_ ++ list_mul div (n_pieces - mod_)).

End Utils.

(** ** EOS post-processing: [postprocess_EOS] (vasp/jobs/EOS/base.py)

    The function receives a dictionary whose ["relax"] and ["static"] entries
    are themselves dictionaries, copies the outer dictionary only, and writes
    into the inner ones.  Dictionaries are therefore objects in a heap and
    are passed by reference. *)

Module EOS.

Definition loc := positive.

(** What a dictionary entry may hold: a float, a list of floats, or a
    reference to another dictionary. *)
Inductive val :=
| VNum (x : Q)
| VFloats (xs : list Q)
| VRef (l : loc).

Abbreviation dict := (gmap string val).
Abbreviation heap := (gmap loc dict).

(** Exceptions.  [EOSError] is pymatgen's; [LibraryError] stands for any
    other exception that escapes from the pymatgen calls. *)
Inductive exn :=
| KeyError (k : string)
| TypeError
| EOSError
| LibraryError.

Inductive outcome (A : Type) :=
| Return (a : A)
| Raise (e : exn).
Arguments Return {A} a.
Arguments Raise {A} e.

(** Statements run on the heap and may raise; the heap survives a raise. *)
Definition M (A : Type) : Type := heap -> heap * outcome A.

Definition ret {A} (a : A) : M A := fun h => (h, Return a).

Definition raise {A} (e : exn) : M A := fun h => (h, Raise e).

Definition bind {A B} (m : M A) (k : A -> M B) : M B :=
  fun h =>
    match m h with
    | (h', Return a) => k a h'
    | (h', Raise e) => (h', Raise e)
    end.

Notation "'let!' x ':=' m 'in' k" := (bind m (fun x => k))
  (at level 10, x binder, m at level 100, k at level 200).

(** [try: body except EOSError: handler] *)
Definition try_except_EOSError {A} (body handler : M A) : M A :=
  fun h =>
    match body h with
    | (h', Raise EOSError) => handler h'
    | r => r
    end.

Fixpoint for_each {A} (f : A -> M unit) (xs : list A) : M unit :=
  match xs with
  | [] => ret tt
  | x :: xs' => let! _ := f x in for_each f xs'
  end.

(** A new dictionary object, e.g. the literal [{}]. *)
Definition alloc (d : dict) : M loc :=
  fun h => let l := fresh (dom h) in (<[l := d]> h, Return l).

(** [d.get(k)], with [None] for a missing key. *)
Definition dict_get (l : loc) (k : string) : M (option val) :=
  fun h => (h, Return ((h !!! l) !! k)).

(** [d[k]] *)
Definition dict_getitem (l : loc) (k : string) : M val :=
  fun h =>
    match (h !!! l) !! k with
    | Some v => (h, Return v)
    | None => (h, Raise (KeyError k))
    end.

(** [d[k] = v] *)
Definition dict_setitem (l : loc) (k : string) (v : val) : M unit :=
  fun h => (<[l := <[k := v]> (h !!! l)]> h, Return tt).

(** [d.copy()]: a new outer object with the same entries, references included. *)
Definition dict_copy (l : loc) : M loc :=
  fun h => alloc (h !!! l) h.

(** [v[k]] and [v[k] = x] on a value: only dictionaries take string keys. *)
Definition subscript (v : val) (k : string) : M val :=
  match v with
  | VRef l => dict_getitem l k
  | _ => raise TypeError
  end.

Definition store_subscript (v : val) (k : string) (x : val) : M unit :=
  match v with
  | VRef l => dict_setitem l k x
  | _ => raise TypeError
  end.

(** [len(list(data_dict.get(jobtype, [])))]: the number of keys of a
    dictionary, the length of a list, 0 for the default [[]]; a float is
    not iterable. *)
Definition len_list (v : option val) : M nat :=
  match v with
  | None => ret 0%nat
  | Some (VRef l) => fun h => (h, Return (size (h !!! l)))
  | Some (VFloats xs) => ret (length xs)
  | Some (VNum _) => raise TypeError
  end.

(** What a call into pymatgen's [EOS] may do. *)
Inductive lib_result (A : Type) :=
| LibOk (a : A)
| LibEOSError
| LibOtherError.
Arguments LibOk {A} a.
Arguments LibEOSError {A}.
Arguments LibOtherError {A}.

Definition lift_lib {A} (r : lib_result A) : M A :=
  match r with
  | LibOk a => ret a
  | LibEOSError => raise EOSError
  | LibOtherError => raise LibraryError
  end.

(** The fitted object: [eos.results] and [eos.b0_GPa]. *)
Record eos_fit := { results : gmap string Q; b0_GPa : Q }.

(** [{**eos.results, "b0 GPa": float(eos.b0_GPa)}] *)
Definition fit_record (f : eos_fit) : dict :=
  <["b0 GPa" := VNum (b0_GPa f)]> (VNum <$> results f).

Definition default_EOS_models : list string :=
  ["murnaghan"; "birch"; "birch_murnaghan"; "pourier_tarantola"; "vinet"].

Section PostProcess.

(** pymatgen is not part of the repository: [EOS(eos_name=...)] and
    [.fit(volumes, energies)] are taken as given. *)
Variable EOS_new : string -> lib_result unit.
Variable EOS_fit : string -> val -> val -> lib_result eos_fit.

(** The body of the loop over [EOS_models]. *)
Definition fit_one (data_dict output : loc) (jobtype eos_name : string) : M unit :=
  try_except_EOSError
    (let! _ := lift_lib (EOS_new eos_name) in
     let! dj := dict_getitem data_dict jobtype in
     let! vols := subscript dj "volumes" in
     let! dj' := dict_getitem data_dict jobtype in
     let! ens := subscript dj' "energies" in
     let! eos := lift_lib (EOS_fit eos_name vols ens) in
     let! r := alloc (fit_record eos) in
     let! oj := dict_getitem output jobtype in
     let! tbl := subscript oj "EOS" in
     store_subscript tbl eos_name (VRef r))
    (let! r := alloc ∅ in
     let! oj := dict_getitem output jobtype in
     let! tbl := subscript oj "EOS" in
     store_subscript tbl eos_name (VRef r)).

(** The body of the loop over [["relax", "static"]]. *)
Definition process_jobtype (data_dict output : loc) (EOS_models : list string)
    (jobtype : string) : M unit :=
  let! v := dict_get data_dict jobtype in
  let! n := len_list v in
  if decide (n = 0%nat) then ret tt
  else
    let! e := alloc ∅ in
    let! oj := dict_getitem output jobtype in
    let! _ := store_subscript oj "EOS" (VRef e) in
    for_each (fit_one data_dict output jobtype) EOS_models.

Definition postprocess_EOS (data_dict : loc) (EOS_models : option (list string)) : M loc :=
  let EOS_models := default default_EOS_models EOS_models in
  let! output := dict_copy data_dict in
  let! _ := for_each (process_jobtype data_dict output EOS_models) ["relax"; "static"] in
  ret output.

End PostProcess.

(** No object refers to one that does not exist. *)
Definition heap_closed (h : heap) : Prop :=
  forall x k l, (h !!! x) !! k = Some (VRef l) -> l ∈ dom h.

(** What one model leaves in the ["EOS"] table, or the exception it lets
    through, given the ["volumes"] and ["energies"] entries. *)
Definition model_result (EOS_new : string -> lib_result unit)
    (EOS_fit : string -> val -> val -> lib_result eos_fit)
    (eos_name : string) (vols ens : option val) : outcome dict :=
  match EOS_new eos_name with
  | LibEOSError => Return ∅
  | LibOtherError => Raise LibraryError
  | LibOk _ =>
      match vols, ens with
      | None, _ => Raise (KeyError "volumes")
      | Some _, None => Raise (KeyError "energies")
      | Some vs, Some es =>
          match EOS_fit eos_name vs es with
          | LibOk f => Return (fit_record f)
          | LibEOSError => Return ∅
          | LibOtherError => Raise LibraryError
          end
      end
  end.

(** The state of the heap while the models of one job type are fitted:
    [data_dict[jobtype]] and [output[jobtype]] are the same dictionary [l],
    whose ["EOS"] entry is the table [e], an object of its own. *)
Record table_inv (h : heap) (d o : loc) (jt : string) (l e : loc) : Prop := {
  ti_data : (h !!! d) !! jt = Some (VRef l);
  ti_out : (h !!! o) !! jt = Some (VRef l);
  ti_tbl : (h !!! l) !! "EOS" = Some (VRef e);
  ti_ed : e ≠ d;
  ti_eo : e ≠ o;
  ti_el : e ≠ l;
  ti_dom : e ∈ dom h
}.

(** [tbl[eos_name] = rec] for a new dictionary [rec]. *)
Definition record_result (h : heap) (e : loc) (m : string) (rec : dict) : heap :=
  let r := fresh (dom h) in
  <[e := <[m := VRef r]> (h !!! e)]> (<[r := rec]> h).

(** Table [e] holds, for model [m], a dictionary equal to [rec] that was
    created after the objects of [base]. *)
Definition table_has (base : gset loc) (h : heap) (e : loc) (m : string)
    (rec : dict) : Prop :=
  exists r, (h !!! e) !! m = Some (VRef r) /\ r ∈ dom h /\ (r ∉ base) /\
            (r ≠ e) /\ h !!! r = rec.

(** [h[l]["EOS"][m]], read as a dictionary. *)
Definition eos_entry (h : heap) (l : loc) (m : string) : option dict :=
  match (h !!! l) !! "EOS" with
  | Some (VRef e) =>
      match (h !!! e) !! m with
      | Some (VRef r) => Some (h !!! r)
      | _ => None
      end
  | _ => None
  end.

(** The library raises nothing but [EOSError] on these points. *)
Definition no_other_error (EOS_new : string -> lib_result unit)
    (EOS_fit : string -> val -> val -> lib_result eos_fit)
    (ms : list string) (vs es : val) : Prop :=
  forall m, m ∈ ms -> EOS_new m ≠ LibOtherError /\ EOS_fit m vs es ≠ LibOtherError.

(** What the table is expected to hold for a model when nothing but
    [EOSError] is raised. *)
Definition expected_record (EOS_new : string -> lib_result unit)
    (EOS_fit : string -> val -> val -> lib_result eos_fit)
    (m : string) (vs es : val) : dict :=
  match EOS_new m, EOS_fit m vs es with
  | LibOk _, LibOk f => fit_record f
  | _, _ => ∅
  end.

(** A job-type entry the loop can work on: an existing dictionary that is
    empty, or holds volumes and energies on which the library raises nothing
    but [EOSError]. *)
Definition entry_ready (EOS_new : string -> lib_result unit)
    (EOS_fit : string -> val -> val -> lib_result eos_fit)
    (h : heap) (ms : list string) (v : val) : Prop :=
  exists l, v = VRef l /\ l ∈ dom h /\
    (h !!! l = ∅ \/
     exists vs es, (h !!! l) !! "volumes" = Some vs /\
                   (h !!! l) !! "energies" = Some es /\
                   no_other_error EOS_new EOS_fit ms vs es).

Definition fit_ready (EOS_new : string -> lib_result unit)
    (EOS_fit : string -> val -> val -> lib_result eos_fit)
    (h : heap) (d : loc) (ms : list string) : Prop :=
  forall jt v, jt ∈ ["relax"; "static"] -> (h !!! d) !! jt = Some v ->
               entry_ready EOS_new EOS_fit h ms v.

(** The number of (volume, energy) points of a job-type dictionary. *)
Definition n_points (h : heap) (l : loc) : nat :=
  match (h !!! l) !! "volumes" with
  | Some (VFloats xs) => length xs
  | _ => 0
  end.

(** Every job-type dictionary of [data_dict] holds fewer than 3 points. *)
Definition few_points (h : heap) (d : loc) : Prop :=
  forall jt l, jt ∈ ["relax"; "static"] -> (h !!! d) !! jt = Some (VRef l) ->
               (n_points h l < 3)%nat.

(** Every job-type entry of [data_dict] is missing or an empty dictionary. *)
Definition no_points (h : heap) (d : loc) : Prop :=
  forall jt v, jt ∈ ["relax"; "static"] -> (h !!! d) !! jt = Some v ->
               exists l, v = VRef l /\ l ∈ dom h /\ h !!! l = ∅.

(** *** Concrete inputs *)

(** A library that knows two models, of which one fits and the other
    does not converge. *)
Definition demo_new (m : string) : lib_result unit :=
  if decide (m = "murnaghan" \/ m = "vinet") then LibOk tt else LibEOSError.

Definition demo_fit (m : string) (vs es : val) : lib_result eos_fit :=
  if decide (m = "murnaghan")
  then LibOk {| results := {[ "v0" := 171 # 1 ]}; b0_GPa := 68 # 1 |}
  else LibEOSError.

(** [{"relax": {"volumes": [82, 161, 278], "energies": [-13, -35, -32]}}] *)
Definition demo_heap : heap :=
  {[ 1%positive := {[ "relax" := VRef 2%positive ]};
     2%positive := {[ "volumes" := VFloats [82 # 1; 161 # 1; 278 # 1];
                      "energies" := VFloats [-13 # 1; -35 # 1; -32 # 1] ]} ]}.

(** [{"relax": {"volumes": [82, 161], "energies": [-13, -35]}}] *)
Definition two_point_heap : heap :=
  {[ 1%positive := {[ "relax" := VRef 2%positive ]};
     2%positive := {[ "volumes" := VFloats [82 # 1; 161 # 1];
                      "energies" := VFloats [-13 # 1; -35 # 1] ]} ]}.

(** A library whose fits never converge. *)
Definition failing_fit (m : string) (vs es : val) : lib_result eos_fit := LibEOSError.

(** [{"relax": {}}] *)
Definition empty_entry_heap : heap :=
  {[ 1%positive := {[ "relax" := VRef 2%positive ]}; 2%positive := ∅ ]}.

(** [{"relax": {"energies": [-13, -35, -32]}}] *)
Definition no_volumes_heap : heap :=
  {[ 1%positive := {[ "relax" := VRef 2%positive ]};
     2%positive := {[ "energies" := VFloats [-13 # 1; -35 # 1; -32 # 1] ]} ]}.

End EOS.

(** ** OpenMM temperature stages
    ([TempChangeMaker] in classical_md/openmm/jobs/core.py, [AnnealMaker]
    in classical_md/openmm/flows/core.py)

    The MD engine is OpenMM's; what it does to a configuration in [n] steps
    at temperature [T] is a parameter [md].  Temperatures are numbers of
    kelvin.  A simulation also keeps the list of the MD segments it has
    run, each with the integrator temperature it ran at.

    flows/core.py imports the makers of its stages from modules that are
    not part of the source; the stages of an anneal are taken to be the
    makers of jobs/core.py. *)

Module OpenMM.

Local Open Scope Q_scope.

(** [np.arange(start, stop, step)]: [ceil((stop - start) / step)] values
    from [start] on, none when that number is not positive; [None] stands
    for the [ZeroDivisionError] of a zero step.  The numbers are exact
    here.  NumPy computes the quotient in binary64, where it can round to
    just above a whole number and give one value more, and the values can
    differ in their last place.  What is proved below of a range is that
    it is empty when [stop] is below [start], and what is done with each of
    its values; the concrete run used below has temperatures that binary64
    holds exactly. *)
Definition arange (start stop step : Q) : option (list Q) :=
  if Qeq_bool step 0 then None
  else
    let n := Z.max 0 (Qceiling ((stop - start) / step)) in
    Some (map (fun i : nat => start + inject_Z (Z.of_nat i) * step)
              (seq 0 (Z.to_nat n))).

(** [OPENMM_MAKER_DEFAULTS["temperature"]] *)
Definition DEFAULT_TEMPERATURE : Q := 298.

Section Engine.

Variable Config : Type.
Variable md : Q -> Z -> Config -> Config.

Record Simulation := {
  config : Config;
  integrator_temperature : Q;
  segments : list (Q * Z)
}.

(** [integrator.setTemperature(temp)] *)
Definition setTemperature (temp : Q) (sim : Simulation) : Simulation :=
  {| config := config sim;
     integrator_temperature := temp;
     segments := segments sim |}.

(** [sim.step(n)] *)
Definition step (n : Z) (sim : Simulation) : Simulation :=
  {| config := md (integrator_temperature sim) n (config sim);
     integrator_temperature := integrator_temperature sim;
     segments := segments sim ++ [(integrator_temperature sim, n)] |}.

(** What a finished job hands to the next one: the configuration, the
    temperature written into its task document, and (for inspection) the
    segments it ran. *)
Record TaskDoc := {
  interchange : Config;
  task_temperature : option Q;
  task_segments : list (Q * Z)
}.

(** [resolve_attr(prev_task, "temperature")]: the maker's own value, else
    the previous task's, else the default. *)
Definition resolve_temperature (own : option Q) (prev_task : TaskDoc) : Q :=
  match own with
  | Some T => T
  | None =>
      match task_temperature prev_task with
      | Some T => T
      | None => DEFAULT_TEMPERATURE
      end
  end.

Record TempChangeMaker := {
  tc_steps : Z;
  tc_temp_steps : Z;
  tc_temperature : option Q;
  tc_starting_temperature : option Q
}.

(** [TempChangeMaker.run_openmm]:
    [temp_step_size = abs(end_temp - start_temp) / self.temp_steps]
    [for temp in np.arange(start_temp + temp_step_size,]
    [                      end_temp + temp_step_size, temp_step_size):]
    [    integrator.setTemperature(temp); sim.step(self.steps // self.temp_steps)]
    [None] stands for an exception: an unset temperature, or a division
    by zero. *)
Definition run_openmm (self : TempChangeMaker) (sim : Simulation) : option Simulation :=
  match tc_starting_temperature self, tc_temperature self with
  | Some start_temp, Some end_temp =>
      if decide (tc_temp_steps self = 0%Z) then None
      else
        let temp_step_size :=
          Qabs (end_temp - start_temp) / inject_Z (tc_temp_steps self) in
        match arange (start_temp + temp_step_size) (end_temp + temp_step_size)
                     temp_step_size with
        | None => None
        | Some temps =>
            Some (fold_left
                    (fun sim temp =>
                       step (tc_steps self / tc_temp_steps self)%Z
                            (setTemperature temp sim))
                    temps sim)
        end
  | _, _ => None
  end.

(** The job of a [TempChangeMaker]: [create_integrator] takes the starting
    temperature from the previous task and builds the integrator at that
    temperature. *)
Definition temp_change_make (self : TempChangeMaker) (prev_task : TaskDoc)
    : option TaskDoc :=
  let starting := resolve_temperature None prev_task in
  let self' := {| tc_steps := tc_steps self;
                  tc_temp_steps := tc_temp_steps self;
                  tc_temperature := tc_temperature self;
                  tc_starting_temperature := Some starting |} in
  let sim := {| config := interchange prev_task;
                integrator_temperature := starting;
                segments := [] |} in
  match run_openmm self' sim with
  | None => None
  | Some sim' =>
      Some {| interchange := config sim';
              task_temperature := tc_temperature self;
              task_segments := segments sim' |}
  end.

Record NVTMaker := {
  nvt_steps : Z;
  nvt_temperature : option Q
}.

(** The job of an [NVTMaker]: [sim.step(self.steps)] at the resolved
    temperature. *)
Definition nvt_make (self : NVTMaker) (prev_task : TaskDoc) : option TaskDoc :=
  let T := resolve_temperature (nvt_temperature self) prev_task in
  let sim := {| config := interchange prev_task;
                integrator_temperature := T;
                segments := [] |} in
  let sim' := step (nvt_steps self) sim in
  Some {| interchange := config sim';
          task_temperature := Some T;
          task_segments := segments sim' |}.

Record AnnealMaker := {
  raise_temp_maker : TempChangeMaker;
  nvt_maker : NVTMaker;
  lower_temp_maker : TempChangeMaker
}.

(** [steps] and [temp_steps] are an [int] or a 3-tuple. *)
Inductive int_or_triple :=
| IntArg (n : Z)
| TripleArg (a b c : Z).

(** [AnnealMaker.from_temps_and_steps].  The keyword arguments of
    [base_kwargs] are passed on to the three makers and set attributes that
    are not modelled; with the default [base_kwargs=None] the call
    [TempChangeMaker(..., **base_kwargs)] raises.  The keyword [final_temp]
    of flows/core.py is the attribute [temperature] of jobs/core.py. *)
Definition from_temps_and_steps (anneal_temp final_temp : Q)
    (steps temp_steps : int_or_triple) (base_kwargs : option (list string))
    : option AnnealMaker :=
  let steps :=
    match steps with
    | IntArg n => (n / 3, n / 3, n - 2 * (n / 3))%Z
    | TripleArg a b c => (a, b, c)
    end in
  let temp_steps :=
    match temp_steps with
    | IntArg n => (n, n, n)
    | TripleArg a b c => (a, b, c)
    end in
  match base_kwargs with
  | None => None
  | Some _ =>
      Some {| raise_temp_maker :=
                {| tc_steps := steps.1.1;
                   tc_temp_steps := temp_steps.1.1;
                   tc_temperature := Some anneal_temp;
                   tc_starting_temperature := None |};
              nvt_maker :=
                {| nvt_steps := steps.1.2;
                   nvt_temperature := Some anneal_temp |};
              lower_temp_maker :=
                {| tc_steps := steps.2;
                   tc_temp_steps := temp_steps.2;
                   tc_temperature := Some final_temp;
                   tc_starting_temperature := None |} |}
  end.

(** [AnnealMaker.make]: three jobs, each fed the output of the one before;
    the result lists the outputs of [raise_temp_job], [nvt_job] and
    [lower_temp_job] in the order of the flow. *)
Definition anneal_make (self : AnnealMaker) (input_set : TaskDoc)
    : option (list TaskDoc) :=
  match temp_change_make (raise_temp_maker self) input_set with
  | None => None
  | Some raise_temp_job =>
      match nvt_make (nvt_maker self) raise_temp_job with
      | None => None
      | Some nvt_job =>
          match temp_change_make (lower_temp_maker self) nvt_job with
          | None => None
          | Some lower_temp_job => Some [raise_temp_job; nvt_job; lower_temp_job]
          end
      end
  end.

(** The configuration reached from [c] by running the segments in order. *)
Definition run_segments (segs : list (Q * Z)) (c : Config) : Config :=
  fold_left (fun c seg => md seg.1 seg.2 c) segs c.

End Engine.

Arguments config {Config}.
Arguments integrator_temperature {Config}.
Arguments segments {Config}.
Arguments interchange {Config}.
Arguments task_temperature {Config}.
Arguments task_segments {Config}.
Arguments resolve_temperature {Config}.

(** A run that is a hold at [T0] followed by steps down to [Tf]: the first
    segment is at [T0], every later segment is colder than the one before,
    and the last one is at [Tf]. *)
Fixpoint strictly_cooling (T : Q) (segs : list (Q * Z)) : Prop :=
  match segs with
  | [] => True
  | (T', _) :: rest => T' < T /\ strictly_cooling T' rest
  end.

Definition hold_then_cool (T0 Tf : Q) (segs : list (Q * Z)) : Prop :=
  exists T n0 rest,
    segs = (T, n0) :: rest /\ T == T0 /\
    strictly_cooling T rest /\
    exists T' nf, last segs = Some (T', nf) /\ T' == Tf.

(** *** A concrete engine: the configuration counts the steps taken. *)
Definition count_md (T : Q) (n : Z) (c : Z) : Z := (c + n)%Z.

Definition demo_input : TaskDoc Z :=
  {| interchange := 0%Z; task_temperature := Some 298; task_segments := [] |}.

(** [AnnealMaker(raise_temp_maker=TempChangeMaker(steps=10, temperature=400,
    temp_steps=2), nvt_maker=NVTMaker(steps=10, temperature=400),
    lower_temp_maker=TempChangeMaker(steps=10, temperature=298,
    temp_steps=2))] *)
Definition demo_anneal : AnnealMaker :=
  {| raise_temp_maker := {| tc_steps := 10; tc_temp_steps := 2;
                            tc_temperature := Some 400;
                            tc_starting_temperature := None |};
     nvt_maker := {| nvt_steps := 10; nvt_temperature := Some 400 |};
     lower_temp_maker := {| tc_steps := 10; tc_temp_steps := 2;
                            tc_temperature := Some 298;
                            tc_starting_temperature := None |} |}.

End OpenMM.

(** ** Volume scaling of a trial structure *)

Module Scaling.

Local Open Scope R_scope.

Record vec3 := { vx : R; vy : R; vz : R }.

Definition vscale (k : R) (v : vec3) : vec3 :=
  {| vx := k * vx v; vy := k * vy v; vz := k * vz v |}.

Definition vadd (u v : vec3) : vec3 :=
  {| vx := vx u + vx v; vy := vy u + vy v; vz := vz u + vz v |}.

(** The three lattice vectors. *)
Record Lattice := { lat_a : vec3; lat_b : vec3; lat_c : vec3 }.

(** [a . (b x c)] *)
Definition triple_product (L : Lattice) : R :=
  vx (lat_a L) * (vy (lat_b L) * vz (lat_c L) - vz (lat_b L) * vy (lat_c L))
  - vy (lat_a L) * (vx (lat_b L) * vz (lat_c L) - vz (lat_b L) * vx (lat_c L))
  + vz (lat_a L) * (vx (lat_b L) * vy (lat_c L) - vy (lat_b L) * vx (lat_c L)).

(** Sites are kept in fractional coordinates, as in a periodic structure. *)
Record Structure := { lattice : Lattice; frac_coords : list vec3 }.

Definition volume (st : Structure) : R := Rabs (triple_product (lattice st)).

(** The Cartesian position of a site. *)
Definition cart_coords (L : Lattice) (f : vec3) : vec3 :=
  vadd (vscale (vx f) (lat_a L))
       (vadd (vscale (vy f) (lat_b L)) (vscale (vz f) (lat_c L))).

Definition scale_lattice (k : R) (L : Lattice) : Lattice :=
  {| lat_a := vscale k (lat_a L);
     lat_b := vscale k (lat_b L);
     lat_c := vscale k (lat_c L) |}.

(** [scale_factor ** (1/3)] *)
Definition linear_factor (scale_factor : R) : R := Rpower scale_factor (/ 3).

(** Modelled from the spec: the scaling done by the Trial Runner
    ([run_trial], which belongs to atomate2/common/flows/mpmorph.py, a file
    that is not among the sources).  "Scales structure's lattice (and atomic
    positions, isotropically) by scale_factor**(1/3) linearly in each lattice
    vector": every lattice vector is multiplied by the linear factor and the
    sites keep their fractional coordinates. *)
Definition scale_structure (structure : Structure) (scale_factor : R) : Structure :=
  {| lattice := scale_lattice (linear_factor scale_factor) (lattice structure);
     frac_coords := frac_coords structure |}.

Inductive trial_result (Point : Type) :=
| TrialPoint (p : Point)
| EngineFailure
| ContractViolation.
Arguments TrialPoint {Point} p.
Arguments EngineFailure {Point}.
Arguments ContractViolation {Point}.

(** Modelled from the spec: [run_trial(structure, scale_factor,
    engine_config)], which scales the structure, invokes the external
    engine (a parameter here: it returns the point of the final frame, or
    fails) and surfaces an engine failure unchanged; a non-positive scale
    factor is a contract violation. *)
Definition run_trial {Point : Type} (engine : Structure -> option Point)
    (structure : Structure) (scale_factor : R) : trial_result Point :=
  if Rle_dec scale_factor 0 then ContractViolation
  else
    match engine (scale_structure structure scale_factor) with
    | Some p => TrialPoint p
    | None => EngineFailure
    end.

(** A cubic cell of edge 2 with one site at its centre. *)
Definition cubic_cell : Structure :=
  {| lattice := {| lat_a := {| vx := 2; vy := 0; vz := 0 |};
                   lat_b := {| vx := 0; vy := 2; vz := 0 |};
                   lat_c := {| vx := 0; vy := 0; vz := 2 |} |};
     frac_coords := [ {| vx := / 2; vy := / 2; vz := / 2 |} ] |}.

End Scaling.

(** ** The equilibrium-volume search

    The Equilibrium Volume Search ([EquilibriumVolumeMaker]) and the fit
    it calls belong to atomate2/common/flows/mpmorph.py and
    atomate2/common/jobs, files that are not among the sources; only their
    tests are.  The definitions of this module are therefore modelled from
    sections 3, 4.1, 4.2, 4.3 and 7 of the specification.  The structure is
    an opaque value with a volume and a volume-scaling operation, and the
    simulation engine, the numerical fit of one model and the re-bracketing
    rule, which the specification leaves to the implementer, are
    parameters. *)

Module Search.

Local Open Scope Q_scope.

(** [x < y] as a boolean. *)
Definition Qltb (x y : Q) : bool := negb (Qle_bool y x).

(** A bracket: three scale factors relative to the reference structure. *)
Record Bracket := { s_lo : Q; s_mid : Q; s_hi : Q }.

Definition default_bracket : Bracket :=
  {| s_lo := 0.8; s_mid := 1.0; s_hi := 1.2 |}.

Definition factors (b : Bracket) : list Q := [s_lo b; s_mid b; s_hi b].

(** Smallest and largest element of a non-empty list. *)
Definition list_range (xs : list Q) : option (Q * Q) :=
  match xs with
  | [] => None
  | x :: rest => Some (fold_left Qmin rest x, fold_left Qmax rest x)
  end.

(** [v] lies strictly between the smallest and the largest element. *)
Definition strictly_inside (v : Q) (xs : list Q) : bool :=
  match list_range xs with
  | Some (lo, hi) => Qltb lo v && Qltb v hi
  | None => false
  end.

Section Machine.

Variable Structure : Type.
Variable volume : Structure -> Q.
(** The documented linear-scaling operation: the structure with its volume
    multiplied by the factor. *)
Variable scale_structure : Structure -> Q -> Structure.
Variable Stress : Type.

Record VolumeEnergyPoint := {
  pt_volume : Q;
  pt_energy : Q;
  pt_stress : Stress;
  pt_structure : Structure
}.

(** The trial-execution collaborator, run for the fixed step count; [None]
    is an engine failure. *)
Variable engine : Structure -> option VolumeEnergyPoint.

Record EOSFitResult := {
  model_name : string;
  V0 : Q;
  B0 : Q;
  B1 : Q
}.

(** The numerical fit of one model; [None] is a [FitFailure]. *)
Variable fit_model : string -> list Q -> list Q -> option EOSFitResult.
(** The supported models, in preference order. *)
Variable models : list string.
(** The re-bracketing rule: the next bracket, from the current one and the
    fitted V0 expressed as a scale factor. *)
Variable rebracket : Bracket -> Q -> Bracket.
Variable max_rounds : nat.

Inductive Failure :=
| EngineFailure
| ContractViolation
| EOSNonConvergence (points : list VolumeEnergyPoint)
| BracketNonConvergence (points : list VolumeEnergyPoint).

Inductive Outcome :=
| Converged (structure : Structure) (v0 : Q)
| Failed (f : Failure).

(** Modelled from the spec: the Trial Runner of section 4.1 (its code is
    in the missing atomate2/common/flows/mpmorph.py), at the level of
    volumes: the structure is scaled by the factor and handed to the engine,
    whose failure is surfaced unchanged; a non-positive scale factor is a
    contract violation (section 7). *)
Definition run_trial (structure : Structure) (scale_factor : Q)
    : VolumeEnergyPoint + Failure :=
  if Qle_bool scale_factor 0 then inr ContractViolation
  else
    match engine (scale_structure structure scale_factor) with
    | Some p => inl p
    | None => inr EngineFailure
    end.

(** Modelled from the spec: SAMPLING (section 4.3, step 2, missing with
    the search itself): one trial per scale factor, each a function of the
    reference structure and its own factor alone; a failure of a trial is
    propagated. *)
Fixpoint sample (structure : Structure) (fs : list Q)
    : list VolumeEnergyPoint + Failure :=
  match fs with
  | [] => inl []
  | f :: fs' =>
      match run_trial structure f with
      | inr e => inr e
      | inl p =>
          match sample structure fs' with
          | inr e => inr e
          | inl ps => inl (p :: ps)
          end
      end
  end.

(** Modelled from the spec: the EOS Fitter contract of section 4.2 (the
    fitter the search calls is not among the sources).  Fewer than 3 points
    is a contract violation; otherwise every requested model is fitted on
    its own and a failure is recorded for that model. *)
Definition fit (volumes energies : list Q) (requested : list string)
    : list (string * option EOSFitResult) + Failure :=
  if (length volumes <? 3)%nat then inr ContractViolation
  else inl (map (fun m => (m, fit_model m volumes energies)) requested).

(** The first model, in preference order, whose fit succeeded. *)
Fixpoint first_success (results : list (string * option EOSFitResult))
    : option EOSFitResult :=
  match results with
  | [] => None
  | (_, Some r) :: _ => Some r
  | (_, None) :: rest => first_success rest
  end.

(** Modelled from the spec: FITTING (section 4.3, step 3): the fit over
    the accumulated points and the choice of the first successful model;
    when all models fail the search ends with an EOS non-convergence. *)
Definition select_fit (accumulated : list VolumeEnergyPoint)
    : EOSFitResult + Failure :=
  match fit (map pt_volume accumulated) (map pt_energy accumulated) models with
  | inr e => inr e
  | inl results =>
      match first_success results with
      | None => inr (EOSNonConvergence accumulated)
      | Some r => inl r
      end
  end.

Record RecursionState := {
  bracket : Bracket;
  round : nat;
  points : list VolumeEnergyPoint;
  previous_V0 : option Q
}.

Inductive StepResult :=
| Continue (s : RecursionState)
| Done (o : Outcome).

(** The structure rescaled to volume [v0]. *)
Definition scale_to_volume (structure : Structure) (v0 : Q) : Structure :=
  scale_structure structure (v0 / volume structure).

(** Modelled from the spec: RE-BRACKETING (section 4.3, step 5): the state
    of the next round, with the new bracket chosen by the rule from the
    fitted V0 expressed as a scale factor relative to the reference
    volume. *)
Definition next_state (reference : Structure) (s : RecursionState)
    (new_points : list VolumeEnergyPoint) (r : EOSFitResult) : RecursionState :=
  {| bracket := rebracket (bracket s) (V0 r / volume reference);
     round := S (round s);
     points := points s ++ new_points;
     previous_V0 := Some (V0 r) |}.

(** Modelled from the spec: one round of the state machine of section 4.3
    (the code of [EquilibriumVolumeMaker.make] is missing): SAMPLING,
    FITTING, the bracket check against the volumes sampled in this round
    and, when the check fails, RE-BRACKETING with the round counter
    incremented and compared with the maximum. *)
Definition round_step (reference : Structure) (s : RecursionState) : StepResult :=
  match sample reference (factors (bracket s)) with
  | inr e => Done (Failed e)
  | inl new_points =>
      let accumulated := points s ++ new_points in
      match select_fit accumulated with
      | inr e => Done (Failed e)
      | inl r =>
          if strictly_inside (V0 r) (map pt_volume new_points)
          then Done (Converged (scale_to_volume reference (V0 r)) (V0 r))
          else if (max_rounds <? S (round s))%nat
          then Done (Failed (BracketNonConvergence accumulated))
          else Continue (next_state reference s new_points r)
      end
  end.

(** Modelled from the spec: the loop over rounds (section 9: "an explicit
    bounded loop carrying RecursionState"); [None] when the fuel runs
    out. *)
Fixpoint loop (fuel : nat) (reference : Structure) (s : RecursionState)
    : option Outcome :=
  match fuel with
  | O => None
  | S fuel' =>
      match round_step reference s with
      | Done o => Some o
      | Continue s' => loop fuel' reference s'
      end
  end.

(** Modelled from the spec: INIT (section 4.3, step 1); rounds are
    counted from 1. *)
Definition initial_state (b : Bracket) : RecursionState :=
  {| bracket := b; round := 1; points := []; previous_V0 := None |}.

(** Modelled from the spec: the whole search, the loop run from INIT with
    one unit of fuel more than the maximum round count. *)
Definition search (reference : Structure) (b : Bracket) : option Outcome :=
  loop (S max_rounds) reference (initial_state b).

(** The point set FITTING hands to the fitter in the round that starts in
    state [s]. *)
Definition fit_input (reference : Structure) (s : RecursionState)
    : option (list VolumeEnergyPoint) :=
  match sample reference (factors (bracket s)) with
  | inl new_points => Some (points s ++ new_points)
  | inr _ => None
  end.

(** State [s'] is reached from [s] after some rounds of re-bracketing. *)
Inductive reaches (reference : Structure) : RecursionState -> RecursionState -> Prop :=
| reaches_refl s : reaches reference s s
| reaches_step s s' s'' :
    round_step reference s = Continue s' ->
    reaches reference s' s'' ->
    reaches reference s s''.

(** The brackets the search goes through when every fit returns the same
    scale factor [x]. *)
Fixpoint nth_bracket (b : Bracket) (x : Q) (k : nat) : Bracket :=
  match k with
  | O => b
  | S k' => rebracket (nth_bracket b x k') x
  end.

(** An engine that leaves the volume alone: the trial at scale factor [k]
    comes back with [k] times the reference volume. *)
Definition engine_keeps_volume (reference : Structure) : Prop :=
  forall k, 0 < k ->
    exists p, engine (scale_structure reference k) = Some p /\
              pt_volume p == k * volume reference.

(** A fitter that finds the minimum [vstar] on any three or more points. *)
Definition fit_finds (vstar : Q) : Prop :=
  forall pts, (3 <= length pts)%nat ->
    exists r, select_fit pts = inl r /\ V0 r = vstar.

Definition positive_bracket (b : Bracket) : Prop :=
  0 < s_lo b /\ 0 < s_mid b /\ 0 < s_hi b.

(** Bracket number [K] is the first one to hold the scale factor [x]
    strictly inside, and the brackets up to it are positive. *)
Definition first_bracketed_at (b : Bracket) (x : Q) (K : nat) : Prop :=
  strictly_inside x (factors (nth_bracket b x K)) = true /\
  (forall k, (k < K)%nat -> strictly_inside x (factors (nth_bracket b x k)) = false) /\
  (forall k, (k <= K)%nat -> positive_bracket (nth_bracket b x k)).

(** None of the first [N] brackets holds [x] strictly inside. *)
Definition never_bracketed (b : Bracket) (x : Q) (N : nat) : Prop :=
  forall k, (k < N)%nat ->
    strictly_inside x (factors (nth_bracket b x k)) = false /\
    positive_bracket (nth_bracket b x k).

End Machine.

Arguments pt_volume {Structure Stress}.
Arguments pt_energy {Structure Stress}.
Arguments pt_stress {Structure Stress}.
Arguments pt_structure {Structure Stress}.
Arguments Converged {Structure Stress}.
Arguments Failed {Structure Stress}.
Arguments EngineFailure {Structure Stress}.
Arguments ContractViolation {Structure Stress}.
Arguments EOSNonConvergence {Structure Stress}.
Arguments BracketNonConvergence {Structure Stress}.
Arguments Continue {Structure Stress}.
Arguments Done {Structure Stress}.
Arguments bracket {Structure Stress}.
Arguments round {Structure Stress}.
Arguments points {Structure Stress}.
Arguments previous_V0 {Structure Stress}.
Arguments initial_state {Structure Stress}.

(** *** A concrete instance

    A structure is its volume; the energy of a trial is a parabola with its
    minimum at volume 170; the fitter returns that minimum; re-bracketing
    doubles the span towards the side on which V0 escaped. *)

Definition demo_engine (v : Q) : option (VolumeEnergyPoint Q unit) :=
  Some {| pt_volume := v; pt_energy := (v - 170) * (v - 170);
          pt_stress := tt; pt_structure := v |}.

Definition demo_fit_model (m : string) (volumes energies : list Q)
    : option EOSFitResult :=
  if decide (m = "birch_murnaghan")
  then Some {| model_name := m; V0 := 170; B0 := 1; B1 := 4 |}
  else None.

Definition double_span (b : Bracket) (x : Q) : Bracket :=
  let w := s_hi b - s_lo b in
  if Qle_bool (s_hi b) x
  then {| s_lo := s_lo b; s_mid := s_hi b; s_hi := s_hi b + w |}
  else {| s_lo := s_lo b - w; s_mid := s_lo b; s_hi := s_hi b |}.

Definition demo_volume (v : Q) : Q := v.

Definition demo_scale (v k : Q) : Q := k * v.

Definition demo_models : list string := ["vinet"; "birch_murnaghan"].

Definition demo_round_step :=
  round_step Q demo_volume demo_scale unit demo_engine demo_fit_model
             demo_models double_span 5.

Definition demo_search : option (Outcome Q unit) :=
  search Q demo_volume demo_scale unit demo_engine demo_fit_model
         demo_models double_span 5 100 default_bracket.

End Search.

(** ** File names: [increment_name] (openmm/utils.py)

    The regular expression of the function, a greedy run of digits as
    group 1 followed by the end of the string, is matched as Python's [re]
    does: the leftmost position at which it matches wins.  Names are ASCII
    strings; counts are natural numbers ([N]). *)

Module Names.

Local Open Scope string_scope.

(** [\d] on an ASCII name: one of the characters [0] to [9]. *)
Definition is_digit (c : ascii) : bool :=
  (48 <=? nat_of_ascii c)%nat && (nat_of_ascii c <=? 57)%nat.

(** The longest run of digits at the start of [s], and what follows it. *)
Fixpoint span_digits (s : string) : string * string :=
  match s with
  | String c s' =>
      if is_digit c then (String c (span_digits s').1, (span_digits s').2)
      else ("", s)
  | "" => ("", "")
  end.

(** [$]: the end of the string, or the place before a newline that ends it. *)
Definition at_end (s : string) : bool :=
  match s with
  | "" => true
  | String c "" => if decide (c = "010"%char) then true else false
  | _ => false
  end.

(** A match of the pattern (a greedy run of digits as group 1, then [$])
    that starts where [s] starts: group 1.  Giving back digits cannot help,
    the character after them would be a digit. *)
Definition match_here (s : string) : option string :=
  if at_end (span_digits s).2 then Some (span_digits s).1 else None.

(** [re.search] of that pattern in [s]: the leftmost match, as
    [(start(1), group(1))].  There always is one, the empty match at the
    end. *)
Fixpoint re_search (s : string) : nat * string :=
  match match_here s with
  | Some ds => (0%nat, ds)
  | None =>
      match s with
      | String _ s' => (S (re_search s').1, (re_search s').2)
      | "" => (0%nat, "")
      end
  end.

(** [int(s)] on a string of decimal digits; [None] is the [ValueError]. *)
Definition int_ (s : string) : option N :=
  match s with
  | "" => None
  | _ => N.of_uint <$> NilEmpty.uint_of_string s
  end.

(** [str(n)] *)
Definition str (n : N) : string := NilEmpty.string_of_uint (N.to_uint n).

(** [file_name[:position]] *)
Definition prefix (position : nat) (s : string) : string := substring 0 position s.

Definition increment_name (file_name : string) : option string :=
  let re_match := re_search file_name in
  let position := re_match.1 in
  let group := re_match.2 in
  match (if decide (group = "") then Some 1%N else int_ group) with
  | Some n => Some (prefix position file_name ++ str (n + 1))
  | None => None
  end.


(** Every character of [s] is a digit. *)
Fixpoint all_digits (s : string) : bool :=
  match s with
  | "" => true
  | String c s' => is_digit c && all_digits s'
  end.

(** [s] is empty, or its last character is neither a digit nor a newline. *)
Fixpoint ends_plain (s : string) : bool :=
  match s with
  | "" => true
  | String c "" => negb (is_digit c) && (if decide (c = "010"%char) then false else true)
  | String _ s' => ends_plain s'
  end.

(** [increment_name] applied [k] times. *)
Fixpoint increment_times (k : nat) (s : string) : option string :=
  match k with
  | O => Some s
  | S k' => match increment_name s with Some s' => increment_times k' s' | None => None end
  end.

End Names.

(** ** Merging molecule specs: [merge_specs_by_name_and_smile]
    (classical_md/utils.py)

    The specs are objects: the list handed to the function is a list of
    references into a store of objects, and the function adds to the counts
    of its own deep copies. *)

Module MolSpecs.

Local Open Scope Z_scope.

(** The fields of a [MoleculeSpec] that [create_mol_spec] sets. *)
Record MoleculeSpec := {
  name : string;
  count : Z;
  formal_charge : Z;
  charge_method : string;
  openff_mol : string
}.

(** [spec.count += c] *)
Definition add_to_count (c : Z) (spec : MoleculeSpec) : MoleculeSpec :=
  {| name := name spec;
     count := count spec + c;
     formal_charge := formal_charge spec;
     charge_method := charge_method spec;
     openff_mol := openff_mol spec |}.

Definition key : Type := string * string.

Section Merge.

(** [tk.Molecule.from_json(j).to_smiles()], a call into the OpenFF toolkit;
    [None] when it raises. *)
Variable to_smiles : string -> option string.

(** [(tk.Molecule.from_json(spec.openff_mol).to_smiles(), spec.name)] *)
Definition spec_key (spec : MoleculeSpec) : option key :=
  match to_smiles (openff_mol spec) with
  | Some smiles => Some (smiles, name spec)
  | None => None
  end.

(** [merged_spec_dict]: a dictionary keeps its keys in the order in which
    they were inserted; its values are references to spec objects. *)
Definition odict : Type := list (key * nat).

(** [merged_spec_dict[key]], when the key is present. *)
Fixpoint odict_get (d : odict) (k : key) : option nat :=
  match d with
  | [] => None
  | (k', r) :: d' => if decide (k = k') then Some r else odict_get d' k
  end.

(** The body of the loop, on the copied objects [objs] and the dictionary:
    [if key in merged_spec_dict: merged_spec_dict[key].count += spec.count]
    [else: merged_spec_dict[key] = spec] *)
Definition merge_step (st : list MoleculeSpec * odict) (r : nat)
    : option (list MoleculeSpec * odict) :=
  let '(objs, d) := st in
  match objs !! r with
  | None => None
  | Some spec =>
      match spec_key spec with
      | None => None
      | Some k =>
          match odict_get d k with
          | Some r0 =>
              match objs !! r0 with
              | Some spec0 => Some (<[r0 := add_to_count (count spec) spec0]> objs, d)
              | None => None
              end
          | None => Some (objs, d ++ [(k, r)])
          end
      end
  end.

Fixpoint merge_loop (st : list MoleculeSpec * odict) (refs : list nat)
    : option (list MoleculeSpec * odict) :=
  match refs with
  | [] => Some st
  | r :: refs' =>
      match merge_step st r with
      | Some st' => merge_loop st' refs'
      | None => None
      end
  end.

(** [list(merged_spec_dict.values())], read as values. *)
Definition odict_values (objs : list MoleculeSpec) (d : odict) : option (list MoleculeSpec) :=
  mapM (fun kr : key * nat => objs !! kr.2) d.

(** [merge_specs_by_name_and_smile(mol_specs)].  The list [mol_specs] is a
    list of references [refs] to the spec objects [objs] (the same object may
    be listed more than once); [copy.deepcopy] gives the function its own
    objects with the same sharing, so the caller's objects are not changed
    and the result is read off the copies.  [None] when the toolkit
    raises. *)
Definition merge_specs_by_name_and_smile (objs : list MoleculeSpec) (refs : list nat)
    : option (list MoleculeSpec) :=
  match merge_loop (objs, []) refs with
  | Some (objs', d) => odict_values objs' d
  | None => None
  end.

(** The specs a list of references stands for. *)
Definition deref (objs : list MoleculeSpec) (refs : list nat) : option (list MoleculeSpec) :=
  mapM (fun r => objs !! r) refs.

(** The call on a list of separate objects. *)
Definition merge_values (specs : list MoleculeSpec) : option (list MoleculeSpec) :=
  merge_specs_by_name_and_smile specs (seq 0 (length specs)).

(** The specs of [l] that have the key of [spec]. *)
Definition same_key (spec : MoleculeSpec) (l : list MoleculeSpec) : list MoleculeSpec :=
  filter (fun s => spec_key s = spec_key spec) l.

(** The sum of the counts of a list of specs. *)
Definition total_count (l : list MoleculeSpec) : Z :=
  foldr Z.add 0 (count <$> l).

(** The specs of [l] that are the first of their key, in the order of [l]
    ([seen] holds the keys met so far). *)
Fixpoint firsts_from (seen : list (option key)) (l : list MoleculeSpec) : list MoleculeSpec :=
  match l with
  | [] => []
  | s :: l' =>
      if decide (spec_key s ∈ seen) then firsts_from seen l'
      else s :: firsts_from (spec_key s :: seen) l'
  end.

Definition firsts (l : list MoleculeSpec) : list MoleculeSpec := firsts_from [] l.

(** A spec with its count replaced. *)
Definition with_count (c : Z) (spec : MoleculeSpec) : MoleculeSpec :=
  {| name := name spec;
     count := c;
     formal_charge := formal_charge spec;
     charge_method := charge_method spec;
     openff_mol := openff_mol spec |}.

(** What the merge is to give on separate objects: the first spec of each
    key, in the order of the input, with the counts of all specs of that key
    added up. *)
Definition merged (l : list MoleculeSpec) : list MoleculeSpec :=
  (fun s => with_count (total_count (same_key s l)) s) <$> firsts l.

(** The state of the loop after the references [done], which stand for the
    specs [p]: objects outside the dictionary are as they were, and the
    dictionary lists the first spec of each key of [p] with the counts of
    that key added up. *)
Record merge_inv (objs p : list MoleculeSpec) (done : list nat)
    (objs' : list MoleculeSpec) (d : odict) : Prop := {
  inv_frame : forall r, r ∉ d.*2 -> objs' !! r = objs !! r;
  inv_done : forall r, r ∈ d.*2 -> r ∈ done;
  inv_nodup : NoDup d.*2;
  inv_vals :
    Forall2 (fun (kr : key * nat) s =>
               spec_key s = Some kr.1 /\
               objs' !! kr.2 = Some (with_count (total_count (same_key s p)) s))
            d (firsts p)
}.

End Merge.

(** A toolkit stand-in that takes the JSON text for the SMILES string. *)
Definition demo_to_smiles (j : string) : option string := Some j.

Definition water (n : Z) : MoleculeSpec :=
  {| name := "water"; count := n; formal_charge := 0;
     charge_method := "am1bcc"; openff_mol := "O" |}.

Definition ethanol (n : Z) : MoleculeSpec :=
  {| name := "ethanol"; count := n; formal_charge := 0;
     charge_method := "am1bcc"; openff_mol := "CCO" |}.

End MolSpecs.

(** ** Temperature and pressure schedules:
    [AseMDMaker._interpolate_quantity] (ase/md.py)

    NumPy's [linspace] and [interp] on exact numbers. *)

Module Schedule.

Local Open Scope Q_scope.

(** [np.linspace(start, stop, num)] with the end point included:
    [start + i * step] for [i = 0 .. num - 1] with
    [step = (stop - start) / (num - 1)], the last value set to [stop];
    [None] is the [ValueError] of a negative [num]. *)
Definition linspace (start stop : Q) (num : Z) : option (list Q) :=
  if (num <? 0)%Z then None
  else
    let div := (num - 1)%Z in
    let step := (stop - start) / inject_Z div in
    let y := map (fun i : nat => inject_Z (Z.of_nat i) * step + start)
                 (seq 0 (Z.to_nat num)) in
    if (1 <? num)%Z then Some (<[Z.to_nat (num - 1) := stop]> y) else Some y.

(** [np.interp] at one point [x] at or after the sample point [x0], whose
    value is [f0]: the value on the segment that holds [x], and the last
    value after the last sample point. *)
Fixpoint interp_from (x x0 f0 : Q) (xp fp : list Q) : Q :=
  match xp, fp with
  | x1 :: xp', f1 :: fp' =>
      if Qlt_le_dec x x1 then (f1 - f0) / (x1 - x0) * (x - x0) + f0
      else interp_from x x1 f1 xp' fp'
  | _, _ => f0
  end.

(** [np.interp(x, xp, fp)] for increasing [xp]: the first value before the
    first sample point; [None] is the [ValueError] of no sample points or
    of lists of different lengths. *)
Definition interp (x xp fp : list Q) : option (list Q) :=
  if negb (length xp =? length fp)%nat then None
  else
    match xp, fp with
    | x0 :: xp', f0 :: fp' =>
        Some (map (fun xi => if Qlt_le_dec xi x0 then f0
                             else interp_from xi x0 f0 xp' fp') x)
    | _, _ => None
    end.

(** [AseMDMaker._interpolate_quantity(values, n_pts)]:
    [n_vals = len(values)]
    [np.interp(np.linspace(0, n_vals - 1, n_pts + 1),]
    [          np.linspace(0, n_vals - 1, n_vals), values)] *)
Definition _interpolate_quantity (values : list Q) (n_pts : Z) : option (list Q) :=
  let n_vals := Z.of_nat (length values) in
  match linspace 0 (inject_Z (n_vals - 1)) (n_pts + 1),
        linspace 0 (inject_Z (n_vals - 1)) n_vals with
  | Some x, Some xp => interp x xp values
  | _, _ => None
  end.

(** Every number of [l] lies between [lo] and [hi]. *)
Definition within (lo hi : Q) (l : list Q) : Prop :=
  Forall (fun v => lo <= v /\ v <= hi) l.

(** Each number of [l] is less than the next one. *)
Definition increasing (l : list Q) : Prop :=
  forall i u v, l !! i = Some u -> l !! S i = Some v -> u < v.

(** A concrete schedule: from 300 K to 400 K in 4 steps. *)
Definition ramp_300_400 : list Q :=
  Eval vm_compute in default [] (_interpolate_quantity [300; 400] 4).

End Schedule.

(** ** The base OpenMM maker: [BaseOpenMMMaker]
    (classical_md/openmm/jobs/base.py, with [task_reports] of
    openmm/utils.py)

    A maker is the dictionary of its attributes; a method that sets
    attributes returns the maker afterwards. *)

Module BaseMaker.

(** The values the attributes of a maker take, [None] apart.  An [int] and
    a [float] are one kind of value, a number: Python compares them by
    value, and nothing here tells them apart. *)
Inductive value :=
| VNum (q : Q)
| VStr (s : string)
| VBool (b : bool)
| VProps (p : gmap string string)
| VTags (l : list string).

(** The attributes of an object that are not [None]: [getattr(x, attr, None)]
    is the lookup, and setting an attribute to [None] removes it. *)
Abbreviation attrs := (gmap string value).

Definition OPENMM_MAKER_DEFAULTS : attrs :=
  list_to_map
    [ ("step_size", VNum (1 # 1000));
      ("temperature", VNum 298);
      ("friction_coefficient", VNum 1);
      ("platform_name", VStr "CPU");
      ("platform_properties", VProps ∅);
      ("state_interval", VNum 1000);
      ("state_file_name", VStr "state");
      ("traj_interval", VNum 10000);
      ("wrap_traj", VBool false);
      ("report_velocities", VBool false);
      ("traj_file_name", VStr "trajectory");
      ("traj_file_type", VStr "dcd");
      ("embed_traj", VBool false) ].

(** A [Calculation]: the recorded [CalculationInput], the names handed to
    [CalculationOutput.from_directory] with the [embed_traj] flag, the task
    name and the class name. *)
Record Calculation := {
  calc_dir_name : string;
  input : attrs;
  output_state_file : string;
  output_traj_file : string;
  output_embed_traj : option value;
  task_name : option value;
  calc_type : string
}.

(** An [OpenMMTaskDocument].  [calcs_reversed] is read only through
    [if prev_task.calcs_reversed] and [prev_task.calcs_reversed or []], for
    which [None] and the empty list are the same.  The fields that a job
    copies from the previous document as they are ([molecule_specs],
    [force_field]) and the interchange are left out. *)
Record OpenMMTaskDocument := {
  tags : option value;
  dir_name : string;
  calcs_reversed : list Calculation
}.

Inductive exn :=
| TypeError
| ValueError
| AttributeError.

Inductive result (A : Type) :=
| Ok (a : A)
| Err (e : exn).
Arguments Ok {A} a.
Arguments Err {A} e.

Definition bind {A B} (r : result A) (k : A -> result B) : result B :=
  match r with
  | Ok a => k a
  | Err e => Err e
  end.

(** [prev_task.calcs_reversed[0].input] when there is a previous
    calculation. *)
Definition prev_input (prev_task : option OpenMMTaskDocument) : option attrs :=
  match prev_task with
  | Some task =>
      match calcs_reversed task with
      | calc :: _ => Some (input calc)
      | [] => None
      end
  | None => None
  end.

(** [BaseOpenMMMaker._resolve_attr]: the maker's own value, else the value
    of the previous calculation's input, else the default; the attribute of
    the maker is set to the result, which is returned. *)
Definition _resolve_attr (self : attrs) (attr : string)
    (prev_task : option OpenMMTaskDocument) (add_defaults : option attrs)
    : attrs * option value :=
  let defaults := default ∅ add_defaults ∪ OPENMM_MAKER_DEFAULTS in
  let attr_value :=
    match self !! attr with
    | Some v => Some v
    | None =>
        match prev_input prev_task ≫= (fun i => i !! attr) with
        | Some v => Some v
        | None => defaults !! attr
        end
    end in
  (match attr_value with
   | Some v => <[attr := v]> self
   | None => delete attr self
   end, attr_value).

(** The number a value stands for in a comparison. *)
Definition number (v : option value) : option Q :=
  match v with
  | Some (VNum q) => Some q
  | Some (VBool b) => Some (if b then 1%Q else 0%Q)
  | _ => None
  end.

(** [x >= y]; comparing [None], a string or a dict raises. *)
Definition ge (x y : option value) : result bool :=
  match number x, number y with
  | Some a, Some b => Ok (Qle_bool b a)
  | _, _ => Err TypeError
  end.

(** [x > 0] *)
Definition gt_zero (x : option value) : result bool :=
  match number x with
  | Some a => Ok (negb (Qle_bool a 0))
  | None => Err TypeError
  end.

(** The truth value of an attribute. *)
Definition truthy (v : option value) : bool :=
  match v with
  | None => false
  | Some (VNum q) => negb (Qeq_bool q 0)
  | Some (VStr s) => negb (String.eqb s "")
  | Some (VBool b) => b
  | Some (VProps p) => negb (bool_decide (p = ∅))
  | Some (VTags l) => negb (bool_decide (l = []))
  end.

(** [v in names] for a list of strings. *)
Definition is_one_of (v : option value) (names : list string) : bool :=
  match v with
  | Some (VStr s) => bool_decide (s ∈ names)
  | _ => false
  end.

(** [task_reports(task, traj_or_state)] of openmm/utils.py; the task may be
    [None], whose attribute cannot be read. *)
Definition task_reports (task : option OpenMMTaskDocument) (traj_or_state : string)
    : result bool :=
  match task with
  | None => Err AttributeError
  | Some task =>
      match calcs_reversed task with
      | [] => Ok false
      | calc :: _ =>
          let calc_input := input calc in
          if decide (traj_or_state = "traj")
          then ge (calc_input !! "n_steps") (calc_input !! "traj_interval")
          else if decide (traj_or_state = "state")
          then ge (calc_input !! "n_steps") (calc_input !! "state_interval")
          else Err ValueError
      end
  end.

Section Make.

(** What is not part of this class: the file system, path joining, the text
    an f-string gives for a value, [increment_name], and the validation done
    by the constructor [CalculationInput] on its keyword arguments. *)
Variable file_exists : string -> bool.
Variable path_join : string -> string -> string.
Variable format : option value -> string.
Variable increment_name : string -> option string.
Variable CalculationInput : attrs -> attrs.

(** A reporter appended to [sim.reporters]: its file and its interval. *)
Record Reporter := {
  reporter_file : string;
  report_interval : option value
}.

(** [increment_name] on an attribute; searching anything but a string
    raises. *)
Definition increment_attr (v : option value) : result value :=
  match v with
  | Some (VStr s) =>
      match increment_name s with
      | Some s' => Ok (VStr s')
      | None => Err ValueError
      end
  | _ => Err TypeError
  end.

(** [file.exists() and task_reports(prev_task, kind)] *)
Definition exists_and_reports (file : string) (prev_task : option OpenMMTaskDocument)
    (kind : string) : result bool :=
  if file_exists file then task_reports prev_task kind else Ok false.

(** [if file.exists() and task_reports(prev_task, kind):]
    [    self.<attr> = increment_name(<name>)] *)
Definition rename_if_taken (self : attrs) (attr : string) (file : string)
    (name : option value) (prev_task : option OpenMMTaskDocument) (kind : string)
    : result attrs :=
  bind (exists_and_reports file prev_task kind) (fun again =>
  if again
  then bind (increment_attr name) (fun v => Ok (<[attr := v]> self))
  else Ok self).

(** [dir_name / self.state_file_name]: only a string can be joined to a
    path. *)
Definition path_join_attr (dir_name : string) (v : option value) : result string :=
  match v with
  | Some (VStr s) => Ok (path_join dir_name s)
  | _ => Err TypeError
  end.

(** The trajectory reporter of [_add_reporters], under
    [if has_steps & (traj_interval > 0)]. *)
Definition add_traj_reporter (self : attrs) (dir_name : string)
    (prev_task : option OpenMMTaskDocument)
    (traj_interval traj_file_name traj_file_type report_velocities : option value)
    : result (attrs * list Reporter) :=
  if negb (is_one_of traj_file_type ["h5md"; "nc"; "ncdf"])
     && truthy report_velocities
     && negb (is_one_of traj_file_type ["trr"])
  then Err ValueError
  else
    let traj_file :=
      path_join dir_name (format traj_file_name +:+ "." +:+ format traj_file_type) in
    bind (rename_if_taken self "traj_file_name" traj_file traj_file_name prev_task "traj")
      (fun self =>
    let file :=
      path_join dir_name
        (format (self !! "traj_file_name") +:+ "." +:+ format traj_file_type) in
    let self := (_resolve_attr self "wrap_traj" prev_task None).1 in
    Ok (self, [ {| reporter_file := file; report_interval := traj_interval |} ])).

(** The state reporter of [_add_reporters], under
    [if has_steps & (state_interval > 0)]. *)
Definition add_state_reporter (self : attrs) (dir_name : string)
    (prev_task : option OpenMMTaskDocument)
    (state_interval state_file_name : option value)
    : result (attrs * list Reporter) :=
  let state_file := path_join dir_name (format state_file_name +:+ ".csv") in
  bind (rename_if_taken self "state_file_name" state_file state_file_name prev_task "state")
    (fun self =>
  bind (path_join_attr dir_name (self !! "state_file_name")) (fun file =>
  Ok (self, [ {| reporter_file := file +:+ ".csv"; report_interval := state_interval |} ]))).

(** [BaseOpenMMMaker._add_reporters]: the maker afterwards and the reporters
    appended to [sim.reporters]. *)
Definition _add_reporters (self : attrs) (dir_name : string)
    (prev_task : option OpenMMTaskDocument) : result (attrs * list Reporter) :=
  let r := _resolve_attr self "n_steps" prev_task None in
  bind (gt_zero r.2) (fun has_steps =>
  let r_interval := _resolve_attr r.1 "traj_interval" prev_task None in
  let r_name := _resolve_attr r_interval.1 "traj_file_name" prev_task None in
  let r_type := _resolve_attr r_name.1 "traj_file_type" prev_task None in
  let r_vel := _resolve_attr r_type.1 "report_velocities" prev_task None in
  bind (gt_zero r_interval.2) (fun traj_on =>
  bind (if has_steps && traj_on
        then add_traj_reporter r_vel.1 dir_name prev_task
               r_interval.2 r_name.2 r_type.2 r_vel.2
        else Ok (r_vel.1, [])) (fun traj =>
  let s_interval := _resolve_attr traj.1 "state_interval" prev_task None in
  let s_name := _resolve_attr s_interval.1 "state_file_name" prev_task None in
  bind (gt_zero s_interval.2) (fun state_on =>
  bind (if has_steps && state_on
        then add_state_reporter s_name.1 dir_name prev_task s_interval.2 s_name.2
        else Ok (s_name.1, [])) (fun state =>
  Ok (state.1, traj.2 ++ state.2)))))).

(** The attributes that [_create_simulation] resolves, [_create_integrator]
    first, in the order of the calls. *)
Definition _create_simulation (self : attrs) (prev_task : option OpenMMTaskDocument)
    : attrs :=
  let self := (_resolve_attr self "temperature" prev_task None).1 in
  let self := (_resolve_attr self "friction_coefficient" prev_task None).1 in
  let self := (_resolve_attr self "step_size" prev_task None).1 in
  let self := (_resolve_attr self "platform_name" prev_task None).1 in
  (_resolve_attr self "platform_properties" prev_task None).1.

(** [_update_interchange] resolves [wrap_traj]. *)
Definition _update_interchange (self : attrs) (prev_task : option OpenMMTaskDocument)
    : attrs :=
  (_resolve_attr self "wrap_traj" prev_task None).1.

(** [BaseOpenMMMaker._create_task_doc]: the attributes are copied first,
    then four more attributes are resolved, and the new calculation is put
    before those of the previous task. *)
Definition _create_task_doc (self : attrs) (class_name : string) (dir_name : string)
    (prev_task : option OpenMMTaskDocument) : attrs * OpenMMTaskDocument :=
  let maker_attrs := self in
  let job_name := maker_attrs !! "name" in
  let maker_attrs := delete "name" maker_attrs in
  let tags := maker_attrs !! "tags" in
  let maker_attrs := delete "tags" maker_attrs in
  let r_state := _resolve_attr self "state_file_name" prev_task None in
  let r_traj := _resolve_attr r_state.1 "traj_file_name" prev_task None in
  let r_type := _resolve_attr r_traj.1 "traj_file_type" prev_task None in
  let calc_input := CalculationInput maker_attrs in
  let r_embed := _resolve_attr r_type.1 "embed_traj" prev_task None in
  let calc :=
    {| calc_dir_name := dir_name;
       input := calc_input;
       output_state_file := format r_state.2 +:+ ".csv";
       output_traj_file := format r_traj.2 +:+ "." +:+ format r_type.2;
       output_embed_traj := r_embed.2;
       task_name := job_name;
       calc_type := class_name |} in
  (r_embed.1,
   {| tags := tags;
      dir_name := dir_name;
      calcs_reversed :=
        calc :: match prev_task with
                | Some task => calcs_reversed task
                | None => []
                end |}).

(** [Path(output_dir or getattr(prev_task, "dir_name", None) or Path.cwd())] *)
Definition resolve_dir (output_dir : option string)
    (prev_task : option OpenMMTaskDocument) (cwd : string) : string :=
  match output_dir with
  | Some d => if decide (d = "") then
                match prev_task with
                | Some task => if decide (dir_name task = "") then cwd else dir_name task
                | None => cwd
                end
              else d
  | None =>
      match prev_task with
      | Some task => if decide (dir_name task = "") then cwd else dir_name task
      | None => cwd
      end
  end.

(** [BaseOpenMMMaker.make], as far as the attributes of the maker and the
    task document go: the maker afterwards and the task document.  The
    calls into OpenMM and OpenFF (building the simulation, [run_openmm] of
    the subclass, reading the state back, writing the document) are taken to
    return and do not touch the attributes. *)
Definition make (self : attrs) (class_name : string) (output_dir : option string)
    (cwd : string) (prev_task : option OpenMMTaskDocument)
    : result (attrs * OpenMMTaskDocument) :=
  let dir_name := resolve_dir output_dir prev_task cwd in
  let self := _create_simulation self prev_task in
  bind (_add_reporters self dir_name prev_task) (fun added =>
  let self := _update_interchange added.1 prev_task in
  Ok (_create_task_doc self class_name dir_name prev_task)).

(** A chain of jobs: each maker (with the name of its class) is given the
    task document of the job before it and no output directory. *)
Fixpoint make_chain (makers : list (string * attrs)) (cwd : string)
    (prev_task : option OpenMMTaskDocument) : result (option OpenMMTaskDocument) :=
  match makers with
  | [] => Ok prev_task
  | (class_name, self) :: makers' =>
      bind (make self class_name None cwd prev_task) (fun made =>
      make_chain makers' cwd (Some made.2))
  end.

End Make.

(** The attributes that a job resolves before its attributes are copied
    into the recorded input, and that nothing else changes. *)
Definition carried : list string :=
  ["temperature"; "friction_coefficient"; "step_size"; "platform_name";
   "platform_properties"; "n_steps"; "traj_interval"; "traj_file_type";
   "report_velocities"; "state_interval"; "wrap_traj"].

(** The two file names, which a job may also replace by incremented ones. *)
Definition file_names : list string := ["traj_file_name"; "state_file_name"].

(** The attribute [a] of [self] has the value that resolving it on the
    maker [self0] gives. *)
Definition resolved_at (self0 : attrs) (prev_task : option OpenMMTaskDocument)
    (a : string) (self : attrs) : Prop :=
  self !! a = (_resolve_attr self0 a prev_task None).2.

(** The attribute [a] of [self] is as in [self0], or resolved. *)
Definition kept_or_resolved (self0 : attrs) (prev_task : option OpenMMTaskDocument)
    (a : string) (self : attrs) : Prop :=
  self !! a = self0 !! a \/ resolved_at self0 prev_task a self.

(** The calculations of a previous task, if any. *)
Definition calcs_of (prev_task : option OpenMMTaskDocument) : list Calculation :=
  match prev_task with
  | Some task => calcs_reversed task
  | None => []
  end.

(** *** Concrete collaborators and makers *)

Definition no_files (file : string) : bool := false.
Definition demo_path_join (d f : string) : string := d +:+ "/" +:+ f.
Definition demo_format (v : option value) : string :=
  match v with
  | Some (VStr s) => s
  | _ => "?"
  end.
Definition demo_increment (s : string) : option string := Some (s +:+ "2").
Definition keep_all (kwargs : attrs) : attrs := kwargs.

(** An NVT maker at 400 K that embeds its trajectory, and one that leaves
    everything but the number of steps to the job before it. *)
Definition hot_maker : attrs :=
  list_to_map [ ("name", VStr "nvt simulation"); ("n_steps", VNum 100);
                ("temperature", VNum 400); ("embed_traj", VBool true) ].

Definition plain_maker : attrs :=
  list_to_map [ ("name", VStr "nvt simulation"); ("n_steps", VNum 100) ].

Definition demo_make_chain (makers : list (string * attrs)) :=
  make_chain no_files demo_path_join demo_format demo_increment keep_all
             makers "/tmp" None.

End BaseMaker.

(** ** Serialising OpenFF objects: the [as_dict] and [from_dict] methods
    of classical_md/__init__.py *)

Module Monty.

Section Dicts.

(** The values of the dictionaries, of which only the strings written under
    ["@module"] and ["@class"] matter here. *)
Variable V : Type.
Variable str : string -> V.

Abbreviation pydict := (gmap string V).

(** OpenFF's side: [Interchange.dict()], the constructor [Interchange]
    called with keyword arguments ([None] when it raises),
    [Quantity.to_tuple()] and [Quantity.from_tuple] ([None] when it
    raises). *)
Variable Interchange : Type.
Variable interchange_dict : Interchange -> pydict.
Variable interchange_new : pydict -> option Interchange.
Variable Quantity : Type.
Variable to_tuple : Quantity -> V * V.
Variable from_tuple : V * V -> option Quantity.

Inductive exn :=
| KeyError (k : string)
| LibraryError.

Inductive result (A : Type) :=
| Ok (a : A)
| Err (e : exn).
Arguments Ok {A} a.
Arguments Err {A} e.

Definition lift {A} (r : option A) : result A :=
  match r with
  | Some a => Ok a
  | None => Err LibraryError
  end.

(** [openff_interchange_as_monty_dict] *)
Definition openff_interchange_as_monty_dict (self : Interchange) : pydict :=
  let int_dict := interchange_dict self in
  let int_dict := <["@module" := str "openff.interchange"]> int_dict in
  <["@class" := str "Interchange"]> int_dict.

(** [openff_interchange_from_monty_dict]: the two keys are popped from a
    copy and the rest is handed to the constructor. *)
Definition openff_interchange_from_monty_dict (d : pydict) : result Interchange :=
  let d := delete "@module" d in
  let d := delete "@class" d in
  lift (interchange_new d).

(** [openff_quantity_as_monty_dict] *)
Definition openff_quantity_as_monty_dict (self : Quantity) : pydict :=
  let q_tuple := to_tuple self in
  let q_dict : pydict := <["unit" := q_tuple.2]> (<["magnitude" := q_tuple.1]> ∅) in
  let q_dict := <["@module" := str "openff.units"]> q_dict in
  <["@class" := str "Quantity"]> q_dict.

(** [openff_quantity_from_monty_dict] *)
Definition openff_quantity_from_monty_dict (d : pydict) : result Quantity :=
  let d := delete "@module" d in
  let d := delete "@class" d in
  match d !! "magnitude" with
  | None => Err (KeyError "magnitude")
  | Some magnitude =>
      match d !! "unit" with
      | None => Err (KeyError "unit")
      | Some unit => lift (from_tuple (magnitude, unit))
      end
  end.

End Dicts.

Arguments Ok {A} a.
Arguments Err {A} e.

(** A stand-in for OpenFF with one field, the name of the box: the values
    are strings, [dict()] lists the field and the constructor reads it
    back. *)
Record demo_interchange := { box_name : string }.

Definition demo_str (s : string) : string := s.

Definition demo_interchange_dict (x : demo_interchange) : gmap string string :=
  {[ "name" := box_name x ]}.

Definition demo_interchange_new (d : gmap string string) : option demo_interchange :=
  match d !! "name" with
  | Some n => if decide (size d = 1%nat) then Some {| box_name := n |} else None
  | None => None
  end.

End Monty.

(** ** Electrolyte compositions: [calculate_elyte_composition]
    (classical_md/utils.py)

    Floats are exact numbers, and a dictionary is the list of its items in
    insertion order. *)

Module Composition.

Local Open Scope Q_scope.

(** A Python dictionary from strings to floats: its items in insertion
    order.  The keys of a dictionary are distinct. *)
Definition pydict : Type := list (string * Q).

Inductive exn :=
| ValueError
| KeyError (k : string)
| ZeroDivisionError
| ToolkitError.

Inductive result (A : Type) :=
| Ok (a : A)
| Err (e : exn).
Arguments Ok {A} a.
Arguments Err {A} e.

Definition bind {A B} (r : result A) (k : A -> result B) : result B :=
  match r with
  | Ok a => k a
  | Err e => Err e
  end.


Definition keys (d : pydict) : list string := d.*1.
Definition values (d : pydict) : list Q := d.*2.





(** Python's [sum]: from 0, left to right. *)
Definition sum (l : list Q) : Q := foldl Qplus 0 l.

(** [x / y] on floats. *)
Definition div (x y : Q) : result Q :=
  if Qeq_bool y 0 then Err ZeroDivisionError else Ok (x / y).


Section Elyte.

(** The molecular weight the OpenFF toolkit and the table of atomic masses
    give for a SMILES string; [None] when the toolkit raises. *)
Variable mol_weight : string -> option Q.


End Elyte.


(** Two dictionaries with the same keys in the same order and equal
    values. *)
Definition same_items (a b : pydict) : Prop :=
  Forall2 (fun x y : string * Q => x.1 = y.1 /\ x.2 == y.2) a b.




End Composition.

(** ** The dynamics of an ASE MD run: the tables [_valid_dynamics] and
    [_preset_dynamics] and the choice made in [AseMDMaker._make]
    (ase/md.py) *)

Module AseDynamics.

Local Open Scope string_scope.




Inductive exn :=
| ValueError (message : string)
| KeyError (k : string).

Inductive result (A : Type) :=
| Ok (a : A)
| Err (e : exn).
Arguments Ok {A} a.
Arguments Err {A} e.





End AseDynamics.

(* ===================================================================== *)
(** * Part II: statements and proofs                                      *)
(* ===================================================================== *)

Section UtilsFacts.

Import Utils.
Local Open Scope Z_scope.

Lemma sum_list_mul (x k : Z) : 0 <= k -> sum (list_mul x k) = k * x.
Proof.
  intros Hk. unfold list_mul, sum.
  rewrite <- (Z2Nat.id k) at 2 by lia.
  induction (Z.to_nat k) as [|n IH]; simpl; [lia|].
  rewrite IH. lia.
Qed.

Lemma sum_app (l1 l2 : list Z) : sum (l1 ++ l2) = sum l1 + sum l2.
Proof. unfold sum. induction l1 as [|a l1 IH]; simpl; [lia|]. rewrite IH. lia. Qed.

Lemma length_list_mul {A} (x : A) (k : Z) : length (list_mul x k) = Z.to_nat k.
Proof. apply length_replicate. Qed.

Lemma elem_of_list_mul {A} (x y : A) (k : Z) : y ∈ list_mul x k -> y = x.
Proof. unfold list_mul. intros H. apply elem_of_replicate in H. tauto. Qed.

Lemma sorted_two_blocks (hi lo : Z) (a b : nat) :
  lo <= hi -> StronglySorted Z.ge (replicate a hi ++ replicate b lo).
Proof.
  intros Hle. induction a as [|a IH]; simpl.
  - induction b as [|b IHb]; simpl; constructor; auto.
    apply Forall_forall. intros y Hy. apply elem_of_replicate in Hy. lia.
  - constructor; auto.
    apply Forall_forall. intros y Hy. apply elem_of_app in Hy.
    destruct Hy as [Hy|Hy]; apply elem_of_replicate in Hy; lia.
Qed.

(** C9. For [total_sum >= 0] and [n_pieces >= 1], [create_list_summing_to]
    returns a list of exactly [n_pieces] nonnegative integers whose sum is
    [total_sum], any two of which differ by at most 1, with the larger
    elements first (the list is non-increasing: [mod] copies of [div + 1]
    followed by copies of [div]). *)
Theorem create_list_summing_to_spec (total_sum n_pieces : Z) :
  0 <= total_sum -> 1 <= n_pieces ->
  exists l,
    create_list_summing_to total_sum n_pieces = Some l /\
    Z.of_nat (length l) = n_pieces /\
    Forall (fun x => 0 <= x) l /\
    sum l = total_sum /\
    (forall x y, x ∈ l -> y ∈ l -> Z.abs (x - y) <= 1) /\
    StronglySorted Z.ge l /\
    l = replicate (Z.to_nat (total_sum mod n_pieces)) (total_sum / n_pieces + 1)
        ++ replicate (Z.to_nat (n_pieces - total_sum mod n_pieces)) (total_sum / n_pieces).
Proof.
  intros Ht Hn.
  pose proof (Z.mod_pos_bound total_sum n_pieces ltac:(lia)) as Hmod.
  pose proof (Z.div_pos total_sum n_pieces Ht ltac:(lia)) as Hdiv.
  pose proof (Z.div_mod total_sum n_pieces ltac:(lia)) as Hdm.
  unfold create_list_summing_to.
  destruct (decide (n_pieces = 0)) as [->|_]; [lia|].
  eexists; split; [reflexivity|].
  repeat split.
  - rewrite length_app, !length_list_mul. lia.
  - apply Forall_app; split; apply Forall_forall; intros x Hx;
      apply elem_of_list_mul in Hx; lia.
  - rewrite sum_app, !sum_list_mul by lia. nia.
  - intros x y Hx Hy. apply elem_of_app in Hx, Hy.
    destruct Hx as [Hx|Hx], Hy as [Hy|Hy];
      apply elem_of_list_mul in Hx, Hy; lia.
  - apply sorted_two_blocks. lia.
Qed.

Lemma create_list_summing_to_spec_witness :
  exists l, create_list_summing_to 7 3 = Some l /\ l = [3; 2; 2].
Proof.
  destruct (create_list_summing_to_spec 7 3 ltac:(lia) ltac:(lia))
    as (l & Hl & _ & _ & _ & _ & _ & Heq).
  exists l. split; [exact Hl|]. rewrite Heq. reflexivity.
Defined.

End UtilsFacts.

Section EOSFacts.

Import EOS.

Variable EOS_new : string -> lib_result unit.
Variable EOS_fit : string -> val -> val -> lib_result eos_fit.

Implicit Types (h : heap) (d o l e r : loc) (jt m : string).

Lemma lookup_total_Some_dom h x k v : (h !!! x) !! k = Some v -> x ∈ dom h.
Proof.
  intros H. apply elem_of_dom. destruct (h !! x) eqn:E; [eauto|].
  rewrite lookup_total_alt, E in H. simpl in H.
  rewrite lookup_empty in H. discriminate.
Qed.

Lemma fresh_ne_dom h x : x ∈ dom h -> fresh (dom h) ≠ x.
Proof. intros Hx Heq. rewrite <- Heq in Hx. exact (is_fresh (dom h) Hx). Qed.

Lemma fresh_ne_Some h x k v : (h !!! x) !! k = Some v -> fresh (dom h) ≠ x.
Proof. intros H. eapply fresh_ne_dom, lookup_total_Some_dom, H. Qed.

Lemma lookup_total_alloc_old h x dct :
  x ∈ dom h -> <[fresh (dom h) := dct]> h !!! x = h !!! x.
Proof. intros Hx. apply lookup_total_insert_ne. by apply fresh_ne_dom. Qed.

Lemma fit_one_eq h d o jt l e m :
  table_inv h d o jt l e ->
  fit_one EOS_new EOS_fit d o jt m h =
    match model_result EOS_new EOS_fit m
            ((h !!! l) !! "volumes") ((h !!! l) !! "energies") with
    | Return rec => (record_result h e m rec, Return tt)
    | Raise x => (h, Raise x)
    end.
Proof.
  intros [Hd Ho Ht Hed Heo Hel Hdom].
  assert (Hstore : forall rec,
    (let! r := alloc rec in
     let! oj := dict_getitem o jt in
     let! tbl := subscript oj "EOS" in
     store_subscript tbl m (VRef r)) h = (record_result h e m rec, Return tt)).
  { intros rec. unfold bind, alloc, dict_getitem. simpl.
    rewrite (lookup_total_alloc_old h o) by (eapply lookup_total_Some_dom, Ho).
    rewrite Ho. simpl. unfold dict_getitem.
    rewrite (lookup_total_alloc_old h l) by (eapply lookup_total_Some_dom, Ht).
    rewrite Ht. simpl. unfold dict_setitem, record_result.
    rewrite (lookup_total_alloc_old h e) by done. reflexivity. }
  unfold fit_one, try_except_EOSError, model_result.
  destruct (EOS_new m) as [[]| |]; simpl.
  - unfold bind at 1. simpl. unfold bind at 1, dict_getitem at 1. rewrite Hd.
    unfold bind at 1. simpl. unfold dict_getitem at 1.
    destruct ((h !!! l) !! "volumes") as [vs|]; [|reflexivity].
    unfold bind at 1, dict_getitem at 1. rewrite Hd.
    unfold bind at 1. simpl. unfold dict_getitem at 1.
    destruct ((h !!! l) !! "energies") as [es|]; [|reflexivity].
    unfold bind at 1.
    destruct (EOS_fit m vs es) as [f| |]; simpl.
    + rewrite Hstore. reflexivity.
    + apply Hstore.
    + reflexivity.
  - apply Hstore.
  - reflexivity.
Qed.


Lemma record_result_dom h e m rec : dom h ⊆ dom (record_result h e m rec).
Proof.
  unfold record_result. intros x Hx. rewrite !dom_insert. set_solver.
Qed.

Lemma record_result_other h e m rec x :
  x ∈ dom h -> x ≠ e -> record_result h e m rec !!! x = h !!! x.
Proof.
  intros Hx Hne. unfold record_result.
  rewrite lookup_total_insert_ne by done.
  by apply lookup_total_alloc_old.
Qed.

Lemma record_result_table h e m rec k :
  e ∈ dom h ->
  (record_result h e m rec !!! e) !! k =
    if decide (m = k) then Some (VRef (fresh (dom h))) else (h !!! e) !! k.
Proof.
  intros He. unfold record_result. rewrite lookup_total_insert_eq.
  apply lookup_insert.
Qed.

Lemma record_result_new h e m rec :
  e ∈ dom h -> record_result h e m rec !!! fresh (dom h) = rec.
Proof.
  intros He. unfold record_result.
  rewrite lookup_total_insert_ne by (intros Heq; by apply (fresh_ne_dom h e)).
  apply lookup_total_insert_eq.
Qed.

Lemma record_result_inv h d o jt l e m rec :
  table_inv h d o jt l e -> table_inv (record_result h e m rec) d o jt l e.
Proof.
  intros [Hd Ho Ht Hed Heo Hel Hdom]. split; try done.
  - rewrite record_result_other; eauto using lookup_total_Some_dom.
  - rewrite record_result_other; eauto using lookup_total_Some_dom.
  - rewrite record_result_other; eauto using lookup_total_Some_dom.
  - by apply record_result_dom.
Qed.

Lemma record_result_has base h e m rec :
  e ∈ dom h -> base ⊆ dom h -> table_has base (record_result h e m rec) e m rec.
Proof.
  intros He Hb. exists (fresh (dom h)). repeat split.
  - rewrite record_result_table by done. by rewrite decide_True.
  - unfold record_result. rewrite !dom_insert. set_solver.
  - intros Hin. apply (is_fresh (dom h)). by apply Hb.
  - by apply fresh_ne_dom.
  - by apply record_result_new.
Qed.

Lemma record_result_keeps base h e m rec m' rec' :
  e ∈ dom h -> m' ≠ m ->
  table_has base h e m' rec' -> table_has base (record_result h e m rec) e m' rec'.
Proof.
  intros He Hne (r & Hr & Hrd & Hrb & Hre & Hrec). exists r. repeat split; try done.
  - rewrite record_result_table by done. by rewrite decide_False.
  - by apply record_result_dom.
  - by rewrite record_result_other.
Qed.

(** The loop over the models, from a state in which the table exists. *)
Lemma fit_models_spec d o jt l e base ms :
  forall h h' res,
    table_inv h d o jt l e -> base ⊆ dom h ->
    for_each (fit_one EOS_new EOS_fit d o jt) ms h = (h', res) ->
    let result m :=
      model_result EOS_new EOS_fit m ((h !!! l) !! "volumes") ((h !!! l) !! "energies") in
    table_inv h' d o jt l e /\
    dom h ⊆ dom h' /\
    (forall x, x ∈ dom h -> x ≠ e -> h' !!! x = h !!! x) /\
    (forall m rec, m ∉ ms -> table_has base h e m rec -> table_has base h' e m rec) /\
    (res = Return tt ->
       forall m, m ∈ ms -> exists rec, result m = Return rec /\ table_has base h' e m rec) /\
    ((forall m, m ∈ ms -> exists rec, result m = Return rec) -> res = Return tt) /\
    res ≠ Raise EOSError.
Proof.
  induction ms as [|m0 ms IH]; intros h h' res Hinv Hbase Hrun result.
  - simpl in Hrun. injection Hrun as <- <-.
    split_and!; try done. intros _ m Hm. by apply elem_of_nil in Hm.
  - simpl in Hrun. unfold bind in Hrun.
    rewrite (fit_one_eq h d o jt l e m0 Hinv) in Hrun. fold (result m0) in Hrun.
    destruct (result m0) as [rec0|x] eqn:Hres0.
    + pose proof (record_result_inv h d o jt l e m0 rec0 Hinv) as Hinv1.
      pose proof (ti_dom _ _ _ _ _ _ Hinv) as He.
      pose proof (ti_el _ _ _ _ _ _ Hinv) as Hel.
      assert (Hl : l ∈ dom h) by (eapply lookup_total_Some_dom, (ti_tbl _ _ _ _ _ _ Hinv)).
      assert (Hbase1 : base ⊆ dom (record_result h e m0 rec0)).
      { etrans; [exact Hbase|apply record_result_dom]. }
      destruct (IH _ _ _ Hinv1 Hbase1 Hrun) as (Hinv' & Hdom & Hfr & Hkeep & Hret & Hall & Hne).
      rewrite (record_result_other h e m0 rec0 l) in Hret, Hall by done.
      split_and!; try done.
      * etrans; [apply record_result_dom|exact Hdom].
      * intros x Hx Hxe. rewrite Hfr; [by apply record_result_other| |done].
        by apply record_result_dom.
      * intros m rec Hm Hhas. apply not_elem_of_cons in Hm as [Hm0 Hms].
        apply Hkeep; [done|]. by apply record_result_keeps.
      * intros -> m Hm. apply elem_of_cons in Hm as [->|Hm].
        -- destruct (decide (m0 ∈ ms)) as [Hin|Hnin]; [by apply Hret|].
           exists rec0. split; [done|]. apply Hkeep; [done|].
           by apply record_result_has.
        -- by apply Hret.
      * intros Hok. apply Hall. intros m Hm. apply Hok. by right.
    + injection Hrun as <- <-.
      split_and!; try done.
      * intros Hok. destruct (Hok m0 ltac:(left)) as (rec & Hrec). congruence.
      * intros Heq. injection Heq as ->.
        unfold result, model_result in Hres0.
        repeat case_match; congruence.
Qed.

(** One job type: skipped, rejected, or fitted. *)
Lemma process_jobtype_cases h d o ms jt h' res :
  jt ≠ "EOS" ->
  (h !!! o) !! jt = (h !!! d) !! jt ->
  process_jobtype EOS_new EOS_fit d o ms jt h = (h', res) ->
  (h' = h /\ res = Return tt /\
   (forall l, (h !!! d) !! jt = Some (VRef l) -> h !!! l = ∅) /\
   (forall xs, (h !!! d) !! jt = Some (VFloats xs) -> xs = []) /\
   (forall q, (h !!! d) !! jt ≠ Some (VNum q)))
  \/
  (res = Raise TypeError /\
   (forall l, (h !!! d) !! jt ≠ Some (VRef l)) /\
   is_Some ((h !!! d) !! jt) /\
   dom h ⊆ dom h' /\ (forall x, x ∈ dom h -> h' !!! x = h !!! x))
  \/
  (exists l e,
     (h !!! d) !! jt = Some (VRef l) /\ h !!! l ≠ ∅ /\ (e ∉ dom h) /\
     table_inv h' d o jt l e /\
     dom h ⊆ dom h' /\
     (forall x, x ∈ dom h -> x ≠ l -> h' !!! x = h !!! x) /\
     (forall k, k ≠ "EOS" -> (h' !!! l) !! k = (h !!! l) !! k) /\
     let result m :=
       model_result EOS_new EOS_fit m
         ((h !!! l) !! "volumes") ((h !!! l) !! "energies") in
     (res = Return tt ->
        forall m, m ∈ ms ->
          exists rec, result m = Return rec /\ table_has (dom h) h' e m rec) /\
     ((forall m, m ∈ ms -> exists rec, result m = Return rec) -> res = Return tt) /\
     res ≠ Raise EOSError).
Proof.
  intros Hjt Hcopy Hrun.
  unfold process_jobtype, bind, dict_get in Hrun.
  destruct ((h !!! d) !! jt) as [[q|xs|l]|] eqn:Hd; simpl in Hrun.
  - injection Hrun as <- <-. right; left. split_and!; try done.
  - unfold ret in Hrun. destruct (decide (length xs = 0%nat)) as [Hlen|Hlen].
    + injection Hrun as <- <-. left. split_and!; try done.
      intros ys [= <-]. by destruct xs.
    + unfold alloc, dict_getitem in Hrun. simpl in Hrun.
      rewrite (lookup_total_alloc_old h o) in Hrun
        by (eapply lookup_total_Some_dom, Hcopy).
      rewrite Hcopy in Hrun. simpl in Hrun. injection Hrun as <- <-.
      right; left. split_and!; try done.
      * rewrite dom_insert. set_solver.
      * intros x Hx. by apply lookup_total_alloc_old.
  - destruct (decide (size (h !!! l) = 0%nat)) as [Hsz|Hsz].
    + injection Hrun as <- <-. left. split_and!; try done.
      intros l' [= <-]. by apply map_size_empty_iff.
    + assert (Hne : h !!! l ≠ ∅) by (by rewrite <- map_size_empty_iff).
      assert (Hl : l ∈ dom h).
      { apply elem_of_dom. destruct (h !! l) eqn:E; [eauto|].
        rewrite lookup_total_alt, E in Hne. done. }
      assert (Hdd : d ∈ dom h) by (eapply lookup_total_Some_dom, Hd).
      assert (Hod : o ∈ dom h) by (eapply lookup_total_Some_dom, Hcopy).
      unfold alloc, dict_getitem in Hrun. simpl in Hrun.
      rewrite (lookup_total_alloc_old h o) in Hrun by done.
      rewrite Hcopy in Hrun. simpl in Hrun. unfold dict_setitem in Hrun.
      rewrite (lookup_total_alloc_old h l) in Hrun by done.
      set (e := fresh (dom h)) in *.
      set (h1 := <[l := <["EOS" := VRef e]> (h !!! l)]> (<[e := ∅]> h)) in *.
      assert (Hfresh : e ∉ dom h) by apply is_fresh.
      assert (Hel : e ≠ l) by (by apply fresh_ne_dom).
      assert (Hdom1 : dom h ⊆ dom h1).
      { unfold h1. rewrite !dom_insert. set_solver. }
      assert (Hother : forall x, x ∈ dom h -> x ≠ l -> h1 !!! x = h !!! x).
      { intros x Hx Hxl. unfold h1. rewrite lookup_total_insert_ne by done.
        by apply lookup_total_alloc_old. }
      assert (Hkeys : forall k, k ≠ "EOS" -> (h1 !!! l) !! k = (h !!! l) !! k).
      { intros k Hk. unfold h1. rewrite lookup_total_insert_eq.
        by rewrite lookup_insert_ne. }
      assert (Hsame : forall x k, x ∈ dom h -> k ≠ "EOS" ->
                                  (h1 !!! x) !! k = (h !!! x) !! k).
      { intros x k Hx Hk. destruct (decide (x = l)) as [->|Hxl]; [by apply Hkeys|].
        by rewrite Hother. }
      assert (Hinv : table_inv h1 d o jt l e).
      { split.
        - by rewrite Hsame.
        - by rewrite Hsame, Hcopy.
        - unfold h1. rewrite lookup_total_insert_eq. apply lookup_insert_eq.
        - by apply fresh_ne_dom.
        - by apply fresh_ne_dom.
        - done.
        - unfold h1. rewrite !dom_insert. set_solver. }
      destruct (fit_models_spec d o jt l e (dom h) ms h1 h' res Hinv Hdom1 Hrun)
        as (Hinv' & Hdom & Hfr & _ & Hret & Hall & Hnoeos).
      rewrite !Hkeys in Hret, Hall by done.
      right; right. exists l, e. split_and!; try done.
      * etrans; [exact Hdom1|exact Hdom].
      * intros x Hx Hxl. rewrite Hfr; [by apply Hother|by apply Hdom1|].
        intros ->. done.
      * intros k Hk. rewrite Hfr; [by apply Hkeys|by apply Hdom1|done].
  - injection Hrun as <- <-. left. split_and!; try done.
Qed.

Lemma table_has_entry base h l e m rec :
  (h !!! l) !! "EOS" = Some (VRef e) ->
  table_has base h e m rec -> eos_entry h l m = Some rec.
Proof.
  intros Ht (r & Hr & _ & _ & _ & Hrec). unfold eos_entry.
  by rewrite Ht, Hr, Hrec.
Qed.

Lemma lookup_total_nonempty_dom h x : h !!! x ≠ ∅ -> x ∈ dom h.
Proof.
  intros Hne. apply elem_of_dom. destruct (h !! x) eqn:E; [eauto|].
  rewrite lookup_total_alt, E in Hne. done.
Qed.

(** One job type that returns normally. *)
Lemma process_jobtype_returns h d o ms jt h' :
  jt ≠ "EOS" ->
  (h !!! o) !! jt = (h !!! d) !! jt ->
  process_jobtype EOS_new EOS_fit d o ms jt h = (h', Return tt) ->
  dom h ⊆ dom h' /\
  (forall x k, x ∈ dom h -> k ≠ "EOS" -> (h' !!! x) !! k = (h !!! x) !! k) /\
  (forall x k, x ∈ dom h -> is_Some ((h !!! x) !! k) -> is_Some ((h' !!! x) !! k)) /\
  (forall x, x ∈ dom h -> (forall l, (h !!! d) !! jt = Some (VRef l) -> x ≠ l) ->
             h' !!! x = h !!! x) /\
  ((forall l, (h !!! d) !! jt = Some (VRef l) -> h !!! l = ∅) -> h' = h) /\
  (forall l, (h !!! d) !! jt = Some (VRef l) -> h !!! l ≠ ∅ ->
     exists e, (e ∉ dom h) /\ (h' !!! l) !! "EOS" = Some (VRef e) /\
       forall m, m ∈ ms ->
         exists rec,
           model_result EOS_new EOS_fit m
             ((h !!! l) !! "volumes") ((h !!! l) !! "energies") = Return rec /\
           table_has (dom h) h' e m rec).
Proof.
  intros Hjt Hcopy Hrun.
  destruct (process_jobtype_cases h d o ms jt h' (Return tt) Hjt Hcopy Hrun)
    as [(-> & _ & Hempty & _ & _)
       |[(Hbad & _)
        |(l & e & Hd & Hne & He & Hinv & Hdom & Hother & Hkeys & Hret & _ & _)]].
  - split_and!; try done. intros l Hl Hne. by specialize (Hempty l Hl).
  - discriminate.
  - split_and!; try done.
    4:{ intros Hemp. by specialize (Hemp l Hd). }
    + intros x k Hx Hk. destruct (decide (x = l)) as [->|Hxl]; [by apply Hkeys|].
      by rewrite Hother.
    + intros x k Hx Hsome. destruct (decide (x = l)) as [->|Hxl].
      * destruct (decide (k = "EOS")) as [->|Hk].
        -- rewrite (ti_tbl _ _ _ _ _ _ Hinv). eauto.
        -- by rewrite Hkeys.
      * by rewrite Hother.
    + intros x Hx Hxl. apply Hother; [done|]. by apply Hxl.
    + intros l' Hl' _. assert (l' = l) as -> by congruence.
      exists e. split_and!; [done|exact (ti_tbl _ _ _ _ _ _ Hinv)|].
      by apply Hret.
Qed.

(** The whole call, when it returns: the outer copy is a new object with
    the entries of [data_dict], old objects change at key ["EOS"] only, and
    every non-empty job type has received its table. *)
Lemma postprocess_EOS_returns h d models h' o :
  (forall jt l, jt ∈ ["relax"; "static"] ->
                (h !!! d) !! jt = Some (VRef l) -> l ∈ dom h) ->
  postprocess_EOS EOS_new EOS_fit d models h = (h', Return o) ->
  o = fresh (dom h) /\
  dom h ⊆ dom h' /\
  (forall jt, jt ≠ "EOS" -> (h' !!! o) !! jt = (h !!! d) !! jt) /\
  (forall x k, x ∈ dom h -> k ≠ "EOS" -> (h' !!! x) !! k = (h !!! x) !! k) /\
  (forall jt l, jt ∈ ["relax"; "static"] ->
     (h !!! d) !! jt = Some (VRef l) -> h !!! l ≠ ∅ ->
     exists e, (e ∉ dom h) /\ (h' !!! l) !! "EOS" = Some (VRef e) /\
       forall m, m ∈ default default_EOS_models models ->
         exists rec,
           model_result EOS_new EOS_fit m
             ((h !!! l) !! "volumes") ((h !!! l) !! "energies") = Return rec /\
           eos_entry h' l m = Some rec).
Proof.
  intros Hwf Hrun.
  unfold postprocess_EOS, bind, dict_copy, alloc in Hrun. simpl in Hrun.
  set (ms := default default_EOS_models models) in *.
  set (o0 := fresh (dom h)) in *.
  set (h1 := <[o0 := h !!! d]> h) in *.
  unfold bind in Hrun.
  destruct (process_jobtype EOS_new EOS_fit d o0 ms "relax" h1)
    as [h2 [[]|x1]] eqn:Hrelax; [|discriminate].
  destruct (process_jobtype EOS_new EOS_fit d o0 ms "static" h2)
    as [h3 [[]|x2]] eqn:Hstatic; [|discriminate].
  simpl in Hrun. injection Hrun as <- <-.
  assert (Ho : o0 ∉ dom h) by apply is_fresh.
  assert (Hdom1 : dom h ⊆ dom h1) by (unfold h1; rewrite dom_insert; set_solver).
  assert (Ho1 : o0 ∈ dom h1) by (unfold h1; rewrite dom_insert; set_solver).
  assert (Hold1 : forall x, x ∈ dom h -> h1 !!! x = h !!! x).
  { intros x Hx. by apply lookup_total_alloc_old. }
  assert (Hout1 : h1 !!! o0 = h !!! d) by apply lookup_total_insert_eq.
  assert (Hd1 : h1 !!! d = h !!! d).
  { destruct (decide (d = o0)) as [->|Hne]; [done|].
    unfold h1. by rewrite lookup_total_insert_ne. }
  assert (Hcopy1 : forall jt, (h1 !!! o0) !! jt = (h1 !!! d) !! jt).
  { intros jt. by rewrite Hout1, Hd1. }
  destruct (process_jobtype_returns h1 d o0 ms "relax" h2 ltac:(done) (Hcopy1 _) Hrelax)
    as (Hdom2 & Hfr2 & Hkeys2 & Hoth2 & _ & Hres2).
  assert (Hd2 : forall jt, jt ≠ "EOS" -> (h2 !!! d) !! jt = (h !!! d) !! jt).
  { intros jt Hjt. rewrite <- Hd1. destruct (decide (d ∈ dom h1)) as [Hin|Hnin].
    - by apply Hfr2.
    - assert (h1 !!! d = ∅) as Hemp.
      { apply not_elem_of_dom in Hnin. by rewrite lookup_total_alt, Hnin. }
      destruct (process_jobtype_cases h1 d o0 ms "relax" h2 (Return tt)
                  ltac:(done) (Hcopy1 _) Hrelax)
        as [(-> & _)|[(Hbad & _)|(l & e & Hd & _)]]; [done|discriminate|].
      rewrite Hemp, lookup_empty in Hd. discriminate. }
  assert (Ho2 : forall jt, jt ≠ "EOS" -> (h2 !!! o0) !! jt = (h !!! d) !! jt).
  { intros jt Hjt. rewrite Hfr2 by done. by rewrite Hout1. }
  assert (Hcopy2 : (h2 !!! o0) !! "static" = (h2 !!! d) !! "static").
  { by rewrite Ho2, Hd2. }
  destruct (process_jobtype_returns h2 d o0 ms "static" h3 ltac:(done) Hcopy2 Hstatic)
    as (Hdom3 & Hfr3 & Hkeys3 & Hoth3 & _ & Hres3).
  split_and!.
  - done.
  - set_solver.
  - intros jt Hjt. rewrite (Hfr3 o0 jt (Hdom2 _ Ho1) Hjt). by apply Ho2.
  - intros x k Hx Hk. rewrite Hfr3, Hfr2, Hold1; auto.
  - intros jt l Hjt Hd Hne.
    assert (Hl : l ∈ dom h) by (by apply lookup_total_nonempty_dom).
    assert (Hgrow : forall l', h !!! l' ≠ ∅ -> h2 !!! l' ≠ ∅).
    { intros l' Hne'.
      assert (Hl' : l' ∈ dom h) by (by apply lookup_total_nonempty_dom).
      rewrite <- (Hold1 l' Hl') in Hne'.
      apply map_choose in Hne' as (k & v & Hkv).
      destruct (Hkeys2 l' k (Hdom1 _ Hl') (mk_is_Some _ _ Hkv)) as [v' Hv'].
      intros Hemp. rewrite Hemp, lookup_empty in Hv'. discriminate. }
    assert (Hstat : forall l', (h !!! d) !! "static" = Some (VRef l') -> h !!! l' ≠ ∅ ->
              exists e, (e ∉ dom h) /\ (h3 !!! l') !! "EOS" = Some (VRef e) /\
                forall m, m ∈ ms ->
                  exists rec,
                    model_result EOS_new EOS_fit m
                      ((h !!! l') !! "volumes") ((h !!! l') !! "energies") = Return rec /\
                    eos_entry h3 l' m = Some rec).
    { intros l' Hd' Hne'.
      assert (Hl' : l' ∈ dom h) by (by apply lookup_total_nonempty_dom).
      rewrite <- Hd2 in Hd' by done.
      destruct (Hres3 l' Hd' (Hgrow _ Hne')) as (e & He & Htbl & Hms).
      exists e. split_and!; [set_solver|done|].
      intros m Hm. destruct (Hms m Hm) as (rec & Hrec & Hhas).
      exists rec. rewrite !Hfr2, !Hold1 in Hrec by auto.
      split; [done|]. by eapply table_has_entry. }
    apply elem_of_cons in Hjt as [->|Hjt];
      [|apply list_elem_of_singleton in Hjt as ->; by apply Hstat].
    assert (Hd1r : (h1 !!! d) !! "relax" = Some (VRef l)) by (by rewrite Hd1).
    assert (Hne1 : h1 !!! l ≠ ∅) by (by rewrite Hold1).
    destruct (Hres2 l Hd1r Hne1) as (e & He & Htbl & Hms).
    assert (Hsame : (h !!! d) !! "static" = Some (VRef l) \/
                    forall l', (h2 !!! d) !! "static" = Some (VRef l') ->
                               l' ∈ dom h /\ l' ≠ l).
    { destruct ((h !!! d) !! "static") as [[q|xs|l']|] eqn:Hs.
      - right. intros l'. rewrite Hd2, Hs by done. discriminate.
      - right. intros l'. rewrite Hd2, Hs by done. discriminate.
      - destruct (decide (l' = l)) as [->|Hll]; [by left|].
        right. intros l''. rewrite Hd2, Hs by done. intros [= <-].
        split; [|done]. apply (Hwf "static"); [set_solver|done].
      - right. intros l'. rewrite Hd2, Hs by done. discriminate. }
    destruct Hsame as [Hs|Hdiff]; [by apply Hstat|].
    exists e. split_and!.
    + set_solver.
    + rewrite Hoth3; [done|by apply Hdom2, Hdom1|].
      intros l' Hl'. destruct (Hdiff l' Hl') as [_ Hne']. done.
    + intros m Hm. destruct (Hms m Hm) as (rec & Hrec & (r & Hr & Hrd & Hrb & Hre & Hrrec)).
      exists rec. rewrite !Hold1 in Hrec by done. split; [done|].
      assert (Hed : e ∈ dom h2) by (eapply lookup_total_Some_dom, Hr).
      unfold eos_entry.
      rewrite (Hoth3 l); [|by apply Hdom2, Hdom1|].
      2:{ intros l' Hl'. destruct (Hdiff l' Hl') as [_ Hne']. done. }
      rewrite Htbl.
      rewrite (Hoth3 e); [|done|].
      2:{ intros l' Hl'. destruct (Hdiff l' Hl') as [Hin _].
          intros ->. apply He. by apply Hdom1. }
      rewrite Hr.
      rewrite (Hoth3 r); [|done|].
      2:{ intros l' Hl'. destruct (Hdiff l' Hl') as [Hin _].
          intros ->. apply Hrb. by apply Hdom1. }
      by rewrite Hrrec.
Qed.

Lemma model_result_expected m vs es :
  EOS_new m ≠ LibOtherError -> EOS_fit m vs es ≠ LibOtherError ->
  model_result EOS_new EOS_fit m (Some vs) (Some es) =
    Return (expected_record EOS_new EOS_fit m vs es).
Proof.
  intros Hnew Hfit. unfold model_result, expected_record.
  destruct (EOS_new m) as [[]| |]; [|done|done].
  by destruct (EOS_fit m vs es).
Qed.

(** One job type whose entry is ready never raises. *)
Lemma process_jobtype_ready h d o ms jt :
  jt ≠ "EOS" ->
  (h !!! o) !! jt = (h !!! d) !! jt ->
  (forall v, (h !!! d) !! jt = Some v ->
     exists l, v = VRef l /\
       (h !!! l = ∅ \/
        exists vs es, (h !!! l) !! "volumes" = Some vs /\
                      (h !!! l) !! "energies" = Some es /\
                      no_other_error EOS_new EOS_fit ms vs es)) ->
  exists h', process_jobtype EOS_new EOS_fit d o ms jt h = (h', Return tt).
Proof.
  intros Hjt Hcopy Hready.
  destruct (process_jobtype EOS_new EOS_fit d o ms jt h) as [h' res] eqn:Hrun.
  exists h'. f_equal.
  destruct (process_jobtype_cases h d o ms jt h' res Hjt Hcopy Hrun)
    as [(_ & -> & _)
       |[(_ & Hnoref & [v Hv] & _)
        |(l & e & Hd & Hne & _ & _ & _ & _ & _ & _ & Hall & _)]].
  - done.
  - destruct (Hready v Hv) as (l & -> & _). by specialize (Hnoref l).
  - apply Hall. intros m Hm.
    destruct (Hready _ Hd) as (l' & [= <-] & [Hemp|(vs & es & Hvs & Hes & Hlib)]);
      [done|].
    exists (expected_record EOS_new EOS_fit m vs es).
    rewrite Hvs, Hes. destruct (Hlib m Hm). by apply model_result_expected.
Qed.

(** A job type that returns leaves the entries of [data_dict] in place. *)
Lemma process_jobtype_entries h d o ms jt h' k :
  jt ≠ "EOS" -> k ≠ "EOS" ->
  (h !!! o) !! jt = (h !!! d) !! jt ->
  process_jobtype EOS_new EOS_fit d o ms jt h = (h', Return tt) ->
  (h' !!! d) !! k = (h !!! d) !! k.
Proof.
  intros Hjt Hk Hcopy Hrun.
  destruct (decide (d ∈ dom h)) as [Hin|Hnin].
  - destruct (process_jobtype_returns h d o ms jt h' Hjt Hcopy Hrun) as (_ & Hfr & _).
    by apply Hfr.
  - assert (h !!! d = ∅) as Hemp.
    { apply not_elem_of_dom in Hnin. by rewrite lookup_total_alt, Hnin. }
    destruct (process_jobtype_cases h d o ms jt h' (Return tt) Hjt Hcopy Hrun)
      as [(-> & _)|[(Hbad & _)|(l & e & Hd & _)]]; [done|discriminate|].
    rewrite Hemp, lookup_empty in Hd. discriminate.
Qed.

(** On a ready input the whole call returns. *)
Lemma postprocess_EOS_total h d models :
  fit_ready EOS_new EOS_fit h d (default default_EOS_models models) ->
  exists h', postprocess_EOS EOS_new EOS_fit d models h = (h', Return (fresh (dom h))).
Proof.
  intros Hready.
  unfold postprocess_EOS, bind, dict_copy, alloc. simpl.
  set (ms := default default_EOS_models models) in *.
  set (o := fresh (dom h)) in *.
  set (h1 := <[o := h !!! d]> h) in *.
  assert (Hdom1 : dom h ⊆ dom h1) by (unfold h1; rewrite dom_insert; set_solver).
  assert (Ho1 : o ∈ dom h1) by (unfold h1; rewrite dom_insert; set_solver).
  assert (Hold1 : forall x, x ∈ dom h -> h1 !!! x = h !!! x).
  { intros x Hx. by apply lookup_total_alloc_old. }
  assert (Hout1 : h1 !!! o = h !!! d) by apply lookup_total_insert_eq.
  assert (Hd1 : h1 !!! d = h !!! d).
  { destruct (decide (d = o)) as [->|Hne]; [done|].
    unfold h1. by rewrite lookup_total_insert_ne. }
  assert (Hcopy1 : forall jt, (h1 !!! o) !! jt = (h1 !!! d) !! jt).
  { intros jt. by rewrite Hout1, Hd1. }
  destruct (process_jobtype_ready h1 d o ms "relax" ltac:(done) (Hcopy1 _))
    as [h2 Hrelax].
  { intros v Hv. rewrite Hd1 in Hv.
    destruct (Hready "relax" v ltac:(set_solver) Hv) as (l & -> & Hl & Hcase).
    exists l. split; [done|]. by rewrite (Hold1 l Hl). }
  unfold bind. rewrite Hrelax.
  destruct (process_jobtype_returns h1 d o ms "relax" h2 ltac:(done) (Hcopy1 _) Hrelax)
    as (Hdom2 & Hfr2 & Hkeys2 & Hoth2 & Hemp2 & _).
  assert (Hd2 : (h2 !!! d) !! "static" = (h !!! d) !! "static").
  { rewrite <- Hd1. eapply process_jobtype_entries; [| |apply Hcopy1|exact Hrelax]; done. }
  assert (Hcopy2 : (h2 !!! o) !! "static" = (h2 !!! d) !! "static").
  { rewrite Hd2, Hfr2 by done. by rewrite Hout1. }
  destruct (process_jobtype_ready h2 d o ms "static" ltac:(done) Hcopy2)
    as [h3 Hstatic].
  { intros v Hv. rewrite Hd2 in Hv.
    destruct (Hready "static" v ltac:(set_solver) Hv) as (l & -> & Hl & Hcase).
    exists l. split; [done|].
    destruct Hcase as [Hempty|(vs & es & Hvs & Hes & Hlib)].
    - left. rewrite <- (Hold1 l Hl) in Hempty.
      destruct ((h1 !!! d) !! "relax") as [[q|xs|l']|] eqn:Hr.
      + by rewrite Hoth2 by (done || by apply Hdom1).
      + by rewrite Hoth2 by (done || by apply Hdom1).
      + destruct (decide (l' = l)) as [->|Hll].
        * rewrite Hemp2; [done|]. by intros l0 [= <-].
        * rewrite Hoth2; [done|by apply Hdom1|]. intros l0 [= <-]. done.
      + by rewrite Hoth2 by (done || by apply Hdom1).
    - right. exists vs, es.
      rewrite !Hfr2, !Hold1 by (done || by apply Hdom1). done. }
  rewrite Hstatic. simpl. eauto.
Qed.

Lemma process_jobtype_skip h d o ms jt :
  (forall v, (h !!! d) !! jt = Some v -> exists l, v = VRef l /\ h !!! l = ∅) ->
  process_jobtype EOS_new EOS_fit d o ms jt h = (h, Return tt).
Proof.
  intros Hskip. unfold process_jobtype, bind, dict_get.
  destruct ((h !!! d) !! jt) as [v|] eqn:Hd; [|done].
  destruct (Hskip v eq_refl) as (l & -> & Hemp). simpl.
  rewrite Hemp, map_size_empty. done.
Qed.

(** C5. A model whose fit fails with [EOSError], be it a fit that does not
    converge or a name the library rejects, gets an empty record of its own,
    and every other requested model is still attempted: on an input on which
    the library raises nothing but [EOSError] the call returns normally, and
    for each job type and each requested model the table holds the empty
    record if that model failed and its fit results if it succeeded,
    whatever the other models did. *)
Theorem postprocess_EOS_failures_stay_local h d models :
  fit_ready EOS_new EOS_fit h d (default default_EOS_models models) ->
  exists h' o,
    postprocess_EOS EOS_new EOS_fit d models h = (h', Return o) /\
    forall jt l vs es m,
      jt ∈ ["relax"; "static"] ->
      (h !!! d) !! jt = Some (VRef l) ->
      (h !!! l) !! "volumes" = Some vs ->
      (h !!! l) !! "energies" = Some es ->
      m ∈ default default_EOS_models models ->
      (EOS_new m = LibEOSError \/ EOS_fit m vs es = LibEOSError ->
       eos_entry h' l m = Some ∅) /\
      (forall f, EOS_new m = LibOk tt -> EOS_fit m vs es = LibOk f ->
                 eos_entry h' l m = Some (fit_record f)).
Proof.
  intros Hready.
  destruct (postprocess_EOS_total h d models Hready) as [h' Hrun].
  exists h', (fresh (dom h)). split; [done|].
  intros jt l vs es m Hjt Hd Hvs Hes Hm.
  assert (Hwf : forall jt l, jt ∈ ["relax"; "static"] ->
                             (h !!! d) !! jt = Some (VRef l) -> l ∈ dom h).
  { intros jt' l' Hjt' Hd'.
    destruct (Hready jt' _ Hjt' Hd') as (l0 & [= <-] & Hl & _). done. }
  destruct (postprocess_EOS_returns h d models h' _ Hwf Hrun)
    as (_ & _ & _ & _ & Hres).
  assert (Hne : h !!! l ≠ ∅).
  { intros Hemp. rewrite Hemp, lookup_empty in Hvs. discriminate. }
  destruct (Hres jt l Hjt Hd Hne) as (e & _ & _ & Hms).
  destruct (Hms m Hm) as (rec & Hrec & Hentry).
  rewrite Hvs, Hes in Hrec.
  destruct (Hready jt _ Hjt Hd) as (l0 & [= <-] & _ & [Hemp|(vs' & es' & Hvs' & Hes' & Hlib)]);
    [done|].
  assert (vs' = vs) as -> by congruence.
  assert (es' = es) as -> by congruence.
  destruct (Hlib m Hm) as [Hnew Hfit].
  rewrite (model_result_expected m vs es Hnew Hfit) in Hrec.
  injection Hrec as <-. rewrite Hentry. unfold expected_record. split.
  - intros [Hfail|Hfail]; rewrite Hfail; [done|]. by destruct (EOS_new m).
  - intros f Hok Hf. by rewrite Hok, Hf.
Qed.

(** C6, as the code has it.  No check is made on the number of points and
    nothing like a contract violation is raised: when every job-type entry
    is missing or empty the call returns the copy of its input and touches
    nothing else; when an entry holds fewer than 3 points the models are
    attempted all the same and the call returns normally, every model on
    which the library raises [EOSError] being recorded as an empty result. *)
Theorem postprocess_EOS_few_points h d models :
  (no_points h d ->
   postprocess_EOS EOS_new EOS_fit d models h =
     (<[fresh (dom h) := h !!! d]> h, Return (fresh (dom h)))) /\
  (fit_ready EOS_new EOS_fit h d (default default_EOS_models models) ->
   few_points h d ->
   exists h',
     postprocess_EOS EOS_new EOS_fit d models h = (h', Return (fresh (dom h))) /\
     forall jt l vs es m,
       jt ∈ ["relax"; "static"] ->
       (h !!! d) !! jt = Some (VRef l) ->
       (h !!! l) !! "volumes" = Some vs ->
       (h !!! l) !! "energies" = Some es ->
       m ∈ default default_EOS_models models ->
       EOS_new m = LibEOSError \/ EOS_fit m vs es = LibEOSError ->
       eos_entry h' l m = Some ∅).
Proof.
  split.
  - intros Hnone.
    unfold postprocess_EOS, bind, dict_copy, alloc. simpl.
    set (o := fresh (dom h)). set (h1 := <[o := h !!! d]> h).
    assert (Hd1 : h1 !!! d = h !!! d).
    { destruct (decide (d = o)) as [->|Hne]; [apply lookup_total_insert_eq|].
      unfold h1. by rewrite lookup_total_insert_ne. }
    assert (Hskip : forall jt, jt ∈ ["relax"; "static"] ->
              forall v, (h1 !!! d) !! jt = Some v -> exists l, v = VRef l /\ h1 !!! l = ∅).
    { intros jt Hjt v Hv. rewrite Hd1 in Hv.
      destruct (Hnone jt v Hjt Hv) as (l & -> & Hl & Hemp).
      exists l. split; [done|]. unfold h1, o. by rewrite lookup_total_alloc_old. }
    unfold bind.
    rewrite (process_jobtype_skip h1 d o _ "relax") by (apply Hskip; set_solver).
    rewrite (process_jobtype_skip h1 d o _ "static") by (apply Hskip; set_solver).
    done.
  - intros Hready _.
    destruct (postprocess_EOS_total h d models Hready) as [h' Hrun].
    exists h'. split; [done|].
    intros jt l vs es m Hjt Hd Hvs Hes Hm Hfail.
    assert (Hwf : forall jt l, jt ∈ ["relax"; "static"] ->
                               (h !!! d) !! jt = Some (VRef l) -> l ∈ dom h).
    { intros jt' l' Hjt' Hd'.
      destruct (Hready jt' _ Hjt' Hd') as (l0 & [= <-] & Hl & _). done. }
    destruct (postprocess_EOS_returns h d models h' _ Hwf Hrun)
      as (_ & _ & _ & _ & Hres).
    assert (Hne : h !!! l ≠ ∅).
    { intros Hemp. rewrite Hemp, lookup_empty in Hvs. discriminate. }
    destruct (Hres jt l Hjt Hd Hne) as (e & _ & _ & Hms).
    destruct (Hms m Hm) as (rec & Hrec & Hentry).
    rewrite Hvs, Hes in Hrec. rewrite Hentry. f_equal.
    unfold model_result in Hrec.
    destruct Hfail as [Hfail|Hfail].
    + rewrite Hfail in Hrec. congruence.
    + destruct (EOS_new m) as [[]| |]; [|congruence|discriminate].
      rewrite Hfail in Hrec. congruence.
Qed.

(** C10. The call writes into the caller's dictionaries.  The outer
    dictionary is copied ([output] is a new object), but for every non-empty
    ["relax"] or ["static"] entry the copy and [data_dict] hold the same
    inner dictionary, and after the call this dictionary, read through
    [data_dict], has an ["EOS"] table created by the call with an entry for
    every requested model: the caller's data has changed. *)
Theorem postprocess_EOS_mutates_input h d models h' o jt l :
  heap_closed h ->
  jt ∈ ["relax"; "static"] ->
  (h !!! d) !! jt = Some (VRef l) ->
  h !!! l ≠ ∅ ->
  postprocess_EOS EOS_new EOS_fit d models h = (h', Return o) ->
  o ≠ d /\ (o ∉ dom h) /\
  (h' !!! o) !! jt = Some (VRef l) /\
  (h' !!! d) !! jt = Some (VRef l) /\
  (exists e, (e ∉ dom h) /\ (h' !!! l) !! "EOS" = Some (VRef e) /\
     forall m, m ∈ default default_EOS_models models -> is_Some (eos_entry h' l m)) /\
  h' !!! l ≠ h !!! l.
Proof.
  intros Hclosed Hjt Hd Hne Hrun.
  assert (Hwf : forall jt l, jt ∈ ["relax"; "static"] ->
                             (h !!! d) !! jt = Some (VRef l) -> l ∈ dom h).
  { intros jt' l' _ Hd'. by eapply Hclosed. }
  destruct (postprocess_EOS_returns h d models h' o Hwf Hrun)
    as (-> & Hdom & Hout & Hfr & Hres).
  assert (Hjt' : jt ≠ "EOS").
  { apply elem_of_cons in Hjt as [->|Hjt]; [done|].
    apply list_elem_of_singleton in Hjt as ->. done. }
  assert (Hdd : d ∈ dom h) by (eapply lookup_total_Some_dom, Hd).
  destruct (Hres jt l Hjt Hd Hne) as (e & He & Htbl & Hms).
  split_and!.
  - by apply fresh_ne_dom.
  - apply is_fresh.
  - by rewrite Hout.
  - by rewrite Hfr.
  - exists e. split_and!; [done..|].
    intros m Hm. destruct (Hms m Hm) as (rec & _ & Hentry). eauto.
  - intros Heq. rewrite Heq in Htbl. apply He. by eapply Hclosed.
Qed.

End EOSFacts.

Section EOSExamples.

Import EOS.

Ltac list_mem := repeat (apply elem_of_cons; first [left; reflexivity | right]).

Lemma demo_heap_ready ms : fit_ready demo_new demo_fit demo_heap 1%positive ms.
Proof.
  intros jt v Hjt Hv.
  apply elem_of_cons in Hjt as [->|Hjt];
    [|apply list_elem_of_singleton in Hjt as ->; vm_compute in Hv; discriminate].
  vm_compute in Hv. injection Hv as <-.
  exists 2%positive. split_and!.
  { reflexivity. }
  { apply elem_of_dom. eexists. reflexivity. }
  right. eexists _, _. split_and!; [reflexivity..|].
  intros m _. unfold demo_new, demo_fit. split; repeat case_decide; done.
Qed.

Lemma postprocess_EOS_failures_stay_local_witness :
  exists h' o,
    postprocess_EOS demo_new demo_fit 1%positive
      (Some ["murnaghan"; "vinet"; "bogus"]) demo_heap = (h', Return o) /\
    eos_entry h' 2%positive "murnaghan" =
      Some (fit_record {| results := {[ "v0" := 171 # 1 ]}; b0_GPa := 68 # 1 |}) /\
    eos_entry h' 2%positive "vinet" = Some ∅ /\
    eos_entry h' 2%positive "bogus" = Some ∅.
Proof.
  destruct (postprocess_EOS_failures_stay_local demo_new demo_fit demo_heap 1%positive
              (Some ["murnaghan"; "vinet"; "bogus"]) (demo_heap_ready _))
    as (h' & o & Hrun & Hres).
  exists h', o. split; [exact Hrun|].
  assert (Hin : forall m, m ∈ ["murnaghan"; "vinet"; "bogus"] ->
            (demo_new m = LibEOSError \/
             demo_fit m (VFloats [82 # 1; 161 # 1; 278 # 1])
                        (VFloats [-13 # 1; -35 # 1; -32 # 1]) = LibEOSError ->
             eos_entry h' 2%positive m = Some ∅) /\
            (forall f, demo_new m = LibOk tt ->
               demo_fit m (VFloats [82 # 1; 161 # 1; 278 # 1])
                          (VFloats [-13 # 1; -35 # 1; -32 # 1]) = LibOk f ->
               eos_entry h' 2%positive m = Some (fit_record f))).
  { intros m Hm. apply (Hres "relax"); [list_mem|reflexivity..|exact Hm]. }
  split_and!.
  - apply (Hin "murnaghan"); [list_mem|reflexivity..].
  - apply (Hin "vinet"); [list_mem|]. right. reflexivity.
  - apply (Hin "bogus"); [list_mem|]. left. reflexivity.
Defined.

Lemma postprocess_EOS_empty_entry_returns :
  few_points empty_entry_heap 1%positive /\
  postprocess_EOS demo_new demo_fit 1%positive None empty_entry_heap =
    (<[3%positive := {[ "relax" := VRef 2%positive ]}]> empty_entry_heap,
     Return 3%positive).
Proof.
  split.
  - intros jt l Hjt Hl.
    apply elem_of_cons in Hjt as [->|Hjt];
      [|apply list_elem_of_singleton in Hjt as ->; vm_compute in Hl; discriminate].
    vm_compute in Hl. injection Hl as <-. vm_compute. lia.
  - vm_compute. reflexivity.
Qed.

Lemma empty_entry_no_points : no_points empty_entry_heap 1%positive.
Proof.
  intros jt v Hjt Hv.
  apply elem_of_cons in Hjt as [->|Hjt];
    [|apply list_elem_of_singleton in Hjt as ->; vm_compute in Hv; discriminate].
  vm_compute in Hv. injection Hv as <-.
  exists 2%positive. split_and!.
  { reflexivity. }
  { apply elem_of_dom. eexists. reflexivity. }
  reflexivity.
Qed.

Lemma two_point_ready ms : fit_ready demo_new failing_fit two_point_heap 1%positive ms.
Proof.
  intros jt v Hjt Hv.
  apply elem_of_cons in Hjt as [->|Hjt];
    [|apply list_elem_of_singleton in Hjt as ->; vm_compute in Hv; discriminate].
  vm_compute in Hv. injection Hv as <-.
  exists 2%positive. split_and!.
  { reflexivity. }
  { apply elem_of_dom. eexists. reflexivity. }
  right. eexists _, _. split_and!; [reflexivity..|].
  intros m _. unfold demo_new, failing_fit. split; repeat case_decide; done.
Qed.

Lemma two_point_few : few_points two_point_heap 1%positive.
Proof.
  intros jt l Hjt Hl.
  apply elem_of_cons in Hjt as [->|Hjt];
    [|apply list_elem_of_singleton in Hjt as ->; vm_compute in Hl; discriminate].
  vm_compute in Hl. injection Hl as <-. vm_compute. lia.
Qed.

Lemma postprocess_EOS_few_points_witness :
  (exists o,
     postprocess_EOS demo_new demo_fit 1%positive None empty_entry_heap =
       (<[o := empty_entry_heap !!! 1%positive]> empty_entry_heap, Return o)) /\
  (exists h' o,
     postprocess_EOS demo_new failing_fit 1%positive None two_point_heap = (h', Return o) /\
     eos_entry h' 2%positive "vinet" = Some ∅).
Proof.
  split.
  - eexists.
    exact (proj1 (postprocess_EOS_few_points demo_new demo_fit empty_entry_heap
                    1%positive None) empty_entry_no_points).
  - destruct (proj2 (postprocess_EOS_few_points demo_new failing_fit two_point_heap
                       1%positive None) (two_point_ready _) two_point_few)
      as (h' & Hrun & Hres).
    exists h', (fresh (dom two_point_heap)). split; [exact Hrun|].
    apply (Hres "relax" 2%positive (VFloats [82 # 1; 161 # 1]) (VFloats [-13 # 1; -35 # 1]));
      [list_mem|reflexivity..|list_mem|right; reflexivity].
Defined.

Lemma demo_heap_closed : heap_closed demo_heap.
Proof.
  intros x k l Hx. rewrite lookup_total_alt in Hx.
  destruct (demo_heap !! x) as [dct|] eqn:E; simpl in Hx;
    [|rewrite lookup_empty in Hx; discriminate].
  unfold demo_heap in E.
  apply lookup_insert_Some in E as [[<- <-]|[_ E]].
  - apply lookup_singleton_Some in Hx as [_ [= <-]].
    apply elem_of_dom. eexists. reflexivity.
  - apply lookup_singleton_Some in E as [<- <-].
    apply lookup_insert_Some in Hx as [[_ ?]|[_ Hx]]; [discriminate|].
    apply lookup_singleton_Some in Hx as [_ ?]. discriminate.
Qed.

Lemma postprocess_EOS_mutates_input_witness :
  exists h' o,
    postprocess_EOS demo_new demo_fit 1%positive None demo_heap = (h', Return o) /\
    o ≠ 1%positive /\
    (h' !!! o) !! "relax" = Some (VRef 2%positive) /\
    (h' !!! 1%positive) !! "relax" = Some (VRef 2%positive) /\
    is_Some ((h' !!! 2%positive) !! "EOS") /\
    (demo_heap !!! 2%positive) !! "EOS" = None.
Proof.
  destruct (postprocess_EOS_total demo_new demo_fit demo_heap 1%positive None
              (demo_heap_ready _)) as [h' Hrun].
  assert (Hne : demo_heap !!! 2%positive ≠ ∅).
  { intros Hemp. apply (f_equal (fun m : dict => m !! "volumes")) in Hemp.
    vm_compute in Hemp. discriminate. }
  destruct (postprocess_EOS_mutates_input demo_new demo_fit demo_heap 1%positive None
              h' _ "relax" 2%positive demo_heap_closed ltac:(list_mem) eq_refl Hne Hrun)
    as (Ho & _ & Hout & Hin & (e & _ & Htbl & _) & _).
  exists h', (fresh (dom demo_heap)).
  refine (conj Hrun (conj Ho (conj Hout (conj Hin (conj _ eq_refl))))).
  exists (VRef e). exact Htbl.
Defined.

End EOSExamples.

Section OpenMMFacts.

Import OpenMM.
Local Open Scope Q_scope.

Variable Config : Type.
Variable md : Q -> Z -> Config -> Config.

Lemma inject_Z_pos (n : Z) : (0 < n)%Z -> 0 < inject_Z n.
Proof. intros Hn. unfold Qlt. simpl. lia. Qed.

Lemma step_size_pos (s e : Q) (n : Z) :
  ~ s == e -> (0 < n)%Z -> 0 < Qabs (e - s) / inject_Z n.
Proof.
  intros Hne Hn.
  assert (0 < inject_Z n) as Hn' by (by apply inject_Z_pos).
  apply Qlt_shift_div_l; [exact Hn'|]. rewrite Qmult_0_l.
  destruct (Qlt_le_dec 0 (Qabs (e - s))) as [H|H]; [exact H|].
  exfalso. apply Hne.
  assert (Qabs (e - s) == 0) as H0.
  { apply Qle_antisym; [exact H|apply Qabs_nonneg]. }
  apply Qabs_Qle_condition in H. lra.
Qed.

Lemma arange_cooling (s e : Q) (n : Z) :
  e < s -> (0 < n)%Z ->
  let dT := Qabs (e - s) / inject_Z n in
  arange (s + dT) (e + dT) dT = Some [].
Proof.
  intros Hlt Hn dT.
  assert (0 < dT) as HdT by (apply step_size_pos; [lra|exact Hn]).
  unfold arange.
  destruct (Qeq_bool dT 0) eqn:E; [apply Qeq_bool_eq in E; lra|].
  assert ((e + dT - (s + dT)) / dT < 0) as Hneg.
  { apply Qlt_shift_div_r; [exact HdT|]. lra. }
  assert (Qceiling ((e + dT - (s + dT)) / dT) <= 0)%Z as Hc.
  { rewrite <- (Qceiling_Z 0). apply Qceiling_resp_le. apply Qlt_le_weak, Hneg. }
  rewrite Z.max_l by lia. reflexivity.
Qed.

(** Running the loop body over a list of temperatures. *)
Lemma run_temps_spec (k : Z) (temps : list Q) :
  forall sim : Simulation Config,
    let sim' := fold_left (fun sim temp => step Config md k (setTemperature Config temp sim))
                          temps sim in
    segments sim' = segments sim ++ map (fun T => (T, k)) temps /\
    config sim' = run_segments Config md (map (fun T => (T, k)) temps) (config sim) /\
    integrator_temperature sim' = default (integrator_temperature sim) (last temps).
Proof.
  induction temps as [|T temps IH]; intros sim sim'.
  - simpl. rewrite app_nil_r. done.
  - simpl in sim'. destruct (IH (step Config md k (setTemperature Config T sim)))
      as (Hseg & Hcfg & Htemp).
    fold sim' in Hseg, Hcfg, Htemp. split_and!.
    + rewrite Hseg. simpl. by rewrite <- app_assoc.
    + rewrite Hcfg. reflexivity.
    + rewrite Htemp. destruct temps as [|T' temps]; [reflexivity|].
      rewrite last_cons_cons.
      destruct (last (T' :: temps)) eqn:E; [reflexivity|].
      apply last_None in E. discriminate.
Qed.

(** A temperature change to a lower temperature runs nothing at all: the
    step size is an absolute value, so [np.arange] counts upwards from
    above the target and is empty. *)
Lemma temp_change_make_cooling (self : TempChangeMaker) (prev_task : TaskDoc Config)
    (T1 : Q) :
  tc_temperature self = Some T1 ->
  T1 < resolve_temperature None prev_task ->
  (0 < tc_temp_steps self)%Z ->
  temp_change_make Config md self prev_task =
    Some {| interchange := interchange prev_task;
            task_temperature := Some T1;
            task_segments := [] |}.
Proof.
  intros Htarget Hlt Hn.
  unfold temp_change_make, run_openmm.
  cbn [tc_starting_temperature tc_temperature tc_temp_steps tc_steps].
  rewrite Htarget.
  destruct (decide (tc_temp_steps self = 0%Z)) as [Heq|_]; [lia|].
  rewrite (arange_cooling _ _ _ Hlt Hn). reflexivity.
Qed.

(** A temperature change that returns: it ran its segments from the
    configuration it was given, each of [steps // temp_steps] MD steps, and
    it records its target temperature.  The temperatures of the range do
    not matter here. *)
Lemma temp_change_make_segments (self : TempChangeMaker) (prev_task job : TaskDoc Config) :
  temp_change_make Config md self prev_task = Some job ->
  interchange job = run_segments Config md (task_segments job) (interchange prev_task) /\
  Forall (fun seg : Q * Z => seg.2 = (tc_steps self / tc_temp_steps self)%Z)
         (task_segments job) /\
  task_temperature job = tc_temperature self.
Proof.
  unfold temp_change_make, run_openmm.
  cbn [tc_starting_temperature tc_temperature tc_temp_steps tc_steps].
  destruct (tc_temperature self) as [T1|]; [|discriminate].
  destruct (decide (tc_temp_steps self = 0%Z)); [discriminate|].
  destruct (arange _ _ _) as [temps|]; [|discriminate].
  intros [= <-]. simpl.
  destruct (run_temps_spec (tc_steps self / tc_temp_steps self)%Z temps
              {| config := interchange prev_task;
                 integrator_temperature := resolve_temperature None prev_task;
                 segments := [] |}) as (Hseg & Hcfg & _).
  simpl in Hseg, Hcfg. rewrite Hseg, Hcfg. split_and!; [done| |done].
  apply Forall_forall. intros seg Hin. apply list_elem_of_In in Hin.
  apply in_map_iff in Hin as (T & <- & _). done.
Qed.

(** C8, as the code has it.  An anneal execution that returns has run
    three jobs in a chain: the temperature change of [raise_temp_maker], the
    hold of [nvt_maker] and the temperature change of [lower_temp_maker].
    Each job starts from the configuration the job before it ended with.
    The hold is one MD segment of the hold maker's [steps], at its
    temperature (when it has none, at the temperature the first job
    recorded); a temperature change runs [steps // temp_steps] MD steps
    after each temperature it sets. *)
Theorem anneal_make_stages (maker : AnnealMaker) (input_set : TaskDoc Config)
    (jobs : list (TaskDoc Config)) :
  anneal_make Config md maker input_set = Some jobs ->
  exists raise_job nvt_job lower_job,
    jobs = [raise_job; nvt_job; lower_job] /\
    temp_change_make Config md (raise_temp_maker maker) input_set = Some raise_job /\
    nvt_make Config md (nvt_maker maker) raise_job = Some nvt_job /\
    temp_change_make Config md (lower_temp_maker maker) nvt_job = Some lower_job /\
    interchange raise_job =
      run_segments Config md (task_segments raise_job) (interchange input_set) /\
    interchange nvt_job =
      run_segments Config md (task_segments nvt_job) (interchange raise_job) /\
    interchange lower_job =
      run_segments Config md (task_segments lower_job) (interchange nvt_job) /\
    Forall (fun seg : Q * Z =>
              seg.2 = (tc_steps (raise_temp_maker maker) /
                       tc_temp_steps (raise_temp_maker maker))%Z)
           (task_segments raise_job) /\
    task_segments nvt_job =
      [(resolve_temperature (nvt_temperature (nvt_maker maker)) raise_job,
        nvt_steps (nvt_maker maker))] /\
    task_temperature raise_job = tc_temperature (raise_temp_maker maker) /\
    Forall (fun seg : Q * Z =>
              seg.2 = (tc_steps (lower_temp_maker maker) /
                       tc_temp_steps (lower_temp_maker maker))%Z)
           (task_segments lower_job).
Proof.
  unfold anneal_make. intros H.
  destruct (temp_change_make Config md (raise_temp_maker maker) input_set)
    as [raise_job|] eqn:Hraise; [|discriminate].
  destruct (nvt_make Config md (nvt_maker maker) raise_job)
    as [nvt_job|] eqn:Hnvt; [|discriminate].
  destruct (temp_change_make Config md (lower_temp_maker maker) nvt_job)
    as [lower_job|] eqn:Hlower; [|discriminate].
  injection H as <-.
  destruct (temp_change_make_segments _ _ _ Hraise) as (Hc1 & Hs1 & Ht1).
  destruct (temp_change_make_segments _ _ _ Hlower) as (Hc3 & Hs3 & _).
  exists raise_job, nvt_job, lower_job.
  unfold nvt_make in Hnvt. injection Hnvt as <-.
  split_and!; done.
Qed.

End OpenMMFacts.

Section OpenMMExamples.

Import OpenMM.
Local Open Scope Q_scope.

(** The anneal [demo_anneal] on an input run at 298 K: the first job heats
    to 400 K in two stages, the hold runs at 400 K, and the last job, whose
    target is 298 K, runs nothing. *)
Lemma anneal_is_not_hold_then_cool :
  exists raise_job nvt_job lower_job,
    anneal_make Z count_md demo_anneal demo_input = Some [raise_job; nvt_job; lower_job] /\
    map (fun s : Q * Z => (Qred s.1, s.2))
        (task_segments raise_job ++ task_segments nvt_job ++ task_segments lower_job)
      = [(349, 5%Z); (400, 5%Z); (400, 10%Z)] /\
    task_segments lower_job = [] /\
    ~ hold_then_cool 298 298
        (task_segments raise_job ++ task_segments nvt_job ++ task_segments lower_job) /\
    ~ hold_then_cool 400 298 (task_segments nvt_job ++ task_segments lower_job).
Proof.
  eexists _, _, _.
  split; [vm_compute; reflexivity|].
  split; [vm_compute; reflexivity|].
  split; [reflexivity|].
  split.
  - intros (T & n0 & rest & Heq & HT & _). vm_compute in Heq.
    injection Heq as <- _ _. vm_compute in HT. discriminate.
  - intros (T & n0 & rest & _ & _ & _ & T' & nf & Hlast & HT').
    vm_compute in Hlast. injection Hlast as <- _. vm_compute in HT'. discriminate.
Qed.

Lemma anneal_make_stages_witness :
  exists raise_job nvt_job lower_job,
    anneal_make Z count_md demo_anneal demo_input = Some [raise_job; nvt_job; lower_job] /\
    interchange raise_job = run_segments Z count_md (task_segments raise_job) 0%Z /\
    task_segments nvt_job = [(400, 10%Z)] /\
    interchange nvt_job = (interchange raise_job + 10)%Z /\
    interchange lower_job =
      run_segments Z count_md (task_segments lower_job) (interchange nvt_job) /\
    Forall (fun seg : Q * Z => seg.2 = 5%Z) (task_segments raise_job).
Proof.
  assert (E : exists jobs, anneal_make Z count_md demo_anneal demo_input = Some jobs).
  { vm_compute. eexists. reflexivity. }
  destruct E as [jobs E].
  destruct (anneal_make_stages Z count_md demo_anneal demo_input jobs E)
    as (raise_job & nvt_job & lower_job & -> & _ & _ & _ & Hc1 & Hc2 & Hc3 & Hs1 & Hh & _).
  exists raise_job, nvt_job, lower_job.
  rewrite Hh in Hc2. simpl in Hc2.
  split_and!; [exact E|exact Hc1|exact Hh|exact Hc2|exact Hc3|exact Hs1].
Defined.

End OpenMMExamples.

Section ScalingFacts.

Import Scaling.
Local Open Scope R_scope.

Lemma linear_factor_cube (s : R) : 0 < s -> linear_factor s ^ 3 = s.
Proof.
  intros HS. unfold linear_factor.
  assert (0 < Rpower s (/ 3)) as Hpos by (unfold Rpower; apply exp_pos).
  rewrite <- (Rpower_pow 3 _ Hpos), Rpower_mult.
  replace (/ 3 * INR 3) with 1 by (simpl; field).
  by apply Rpower_1.
Qed.

Lemma triple_product_scale (k : R) (L : Lattice) :
  triple_product (scale_lattice k L) = k ^ 3 * triple_product L.
Proof. unfold triple_product, scale_lattice, vscale. simpl. ring. Qed.

Lemma cart_coords_scale (k : R) (L : Lattice) (f : vec3) :
  cart_coords (scale_lattice k L) f = vscale k (cart_coords L f).
Proof.
  unfold cart_coords, scale_lattice, vscale, vadd. simpl. f_equal; ring.
Qed.

(** C3. For a positive scale factor [s] (the [S] of the claim) the trial runner hands the engine
    the structure whose three lattice vectors are the reference ones
    multiplied by [s ** (1/3)]; every atomic position is multiplied by the
    same factor; and the volume of this trial structure is [s] times the
    volume of the reference structure. *)
Theorem run_trial_scales_volume {Point : Type} (engine : Structure -> option Point)
    (structure : Structure) (s : R) :
  0 < s ->
  let trial := scale_structure structure s in
  run_trial engine structure s =
    match engine trial with
    | Some p => TrialPoint p
    | None => EngineFailure
    end /\
  lat_a (lattice trial) = vscale (Rpower s (/ 3)) (lat_a (lattice structure)) /\
  lat_b (lattice trial) = vscale (Rpower s (/ 3)) (lat_b (lattice structure)) /\
  lat_c (lattice trial) = vscale (Rpower s (/ 3)) (lat_c (lattice structure)) /\
  map (cart_coords (lattice trial)) (frac_coords trial) =
    map (fun f => vscale (Rpower s (/ 3)) (cart_coords (lattice structure) f))
        (frac_coords structure) /\
  volume trial = s * volume structure.
Proof.
  intros HS trial. split_and!; try reflexivity.
  - unfold run_trial. destruct (Rle_dec s 0) as [Hle|_]; [exfalso; Lra.lra|reflexivity].
  - simpl. apply map_ext. intros f. apply cart_coords_scale.
  - unfold volume, trial, scale_structure. simpl.
    rewrite triple_product_scale, linear_factor_cube by exact HS.
    rewrite Rabs_mult, (Rabs_pos_eq s) by Lra.lra. reflexivity.
Qed.

Lemma run_trial_scales_volume_witness :
  volume (scale_structure cubic_cell 8) = 8 * volume cubic_cell.
Proof.
  assert (H : 0 < 8) by Lra.lra.
  exact (proj2 (proj2 (proj2 (proj2 (proj2
    (run_trial_scales_volume (fun _ : Structure => @None unit) cubic_cell 8 H)))))).
Defined.

End ScalingFacts.

Section RangeFacts.

Import Search.
Local Open Scope Q_scope.

Lemma Qltb_lt (x y : Q) : Qltb x y = true <-> x < y.
Proof.
  unfold Qltb. rewrite negb_true_iff. split.
  - intros H. apply Qnot_le_lt. intros Hle.
    apply Qle_bool_iff in Hle. congruence.
  - intros H. destruct (Qle_bool y x) eqn:E; [|done].
    apply Qle_bool_iff in E. exfalso. by apply (Qlt_not_le x y).
Qed.

Lemma fold_min_spec (rest : list Q) :
  forall x,
    let m := fold_left Qmin rest x in
    m <= x /\ (forall y, In y rest -> m <= y) /\
    (m == x \/ exists y, In y rest /\ m == y).
Proof.
  induction rest as [|z rest IH]; intros x m; simpl in m.
  - split_and!; [apply Qle_refl|intros y []|left; reflexivity].
  - destruct (IH (Qmin x z)) as (Hle & Hall & Hex). fold m in Hle, Hall, Hex.
    split_and!.
    + eapply Qle_trans; [exact Hle|apply Q.le_min_l].
    + intros y [<-|Hy]; [|by apply Hall].
      eapply Qle_trans; [exact Hle|apply Q.le_min_r].
    + destruct Hex as [Hm|(y & Hy & Hm)].
      * destruct (Q.min_dec x z) as [Hx|Hz].
        -- left. by rewrite Hm.
        -- right. exists z. split; [by left|]. by rewrite Hm.
      * right. exists y. split; [by right|done].
Qed.

Lemma fold_max_spec (rest : list Q) :
  forall x,
    let m := fold_left Qmax rest x in
    x <= m /\ (forall y, In y rest -> y <= m) /\
    (m == x \/ exists y, In y rest /\ m == y).
Proof.
  induction rest as [|z rest IH]; intros x m; simpl in m.
  - split_and!; [apply Qle_refl|intros y []|left; reflexivity].
  - destruct (IH (Qmax x z)) as (Hle & Hall & Hex). fold m in Hle, Hall, Hex.
    split_and!.
    + eapply Qle_trans; [apply Q.le_max_l|exact Hle].
    + intros y [<-|Hy]; [|by apply Hall].
      eapply Qle_trans; [apply Q.le_max_r|exact Hle].
    + destruct Hex as [Hm|(y & Hy & Hm)].
      * destruct (Q.max_dec x z) as [Hx|Hz].
        -- left. by rewrite Hm.
        -- right. exists z. split; [by left|]. by rewrite Hm.
      * right. exists y. split; [by right|done].
Qed.

(** The range of a list: bounds that are attained. *)
Lemma list_range_spec (xs : list Q) (lo hi : Q) :
  list_range xs = Some (lo, hi) ->
  (forall x, In x xs -> lo <= x /\ x <= hi) /\
  (exists x, In x xs /\ x == lo) /\
  (exists x, In x xs /\ x == hi).
Proof.
  destruct xs as [|x rest]; [discriminate|].
  intros [= <- <-].
  destruct (fold_min_spec rest x) as (Hmin1 & Hmin2 & Hmin3).
  destruct (fold_max_spec rest x) as (Hmax1 & Hmax2 & Hmax3).
  split_and!.
  - intros y [<-|Hy]; [done|]. split; [by apply Hmin2|by apply Hmax2].
  - destruct Hmin3 as [Hm|(y & Hy & Hm)].
    + exists x. split; [by left|by symmetry].
    + exists y. split; [by right|by symmetry].
  - destruct Hmax3 as [Hm|(y & Hy & Hm)].
    + exists x. split; [by left|by symmetry].
    + exists y. split; [by right|by symmetry].
Qed.

Lemma list_range_nonempty (xs : list Q) :
  xs <> [] -> exists lo hi, list_range xs = Some (lo, hi).
Proof. destruct xs; [done|]. intros _. simpl. eauto. Qed.

(** Strictly inside the range: some element is below and some is above. *)
Lemma strictly_inside_iff (v : Q) (xs : list Q) :
  strictly_inside v xs = true <->
  (exists a, In a xs /\ a < v) /\ (exists b, In b xs /\ v < b).
Proof.
  unfold strictly_inside. destruct (list_range xs) as [[lo hi]|] eqn:Hr.
  - destruct (list_range_spec xs lo hi Hr) as (Hall & (a & Ha & Halo) & (b & Hb & Hbhi)).
    rewrite andb_true_iff, !Qltb_lt. split.
    + intros [Hlo Hhi]. split.
      * exists a. split; [done|]. by rewrite Halo.
      * exists b. split; [done|]. by rewrite Hbhi.
    + intros [(a' & Ha' & Hlt) (b' & Hb' & Hgt)]. split.
      * eapply Qle_lt_trans; [apply (Hall a' Ha')|done].
      * eapply Qlt_le_trans; [exact Hgt|apply (Hall b' Hb')].
  - destruct xs; [|discriminate]. split; [discriminate|].
    intros [(a & [] & _) _].
Qed.

Lemma strictly_inside_range (v : Q) (xs : list Q) (lo hi : Q) :
  list_range xs = Some (lo, hi) ->
  strictly_inside v xs = true <-> lo < v /\ v < hi.
Proof.
  intros Hr. unfold strictly_inside. rewrite Hr.
  by rewrite andb_true_iff, !Qltb_lt.
Qed.

(** Adding elements can only widen the range. *)
Lemma strictly_inside_app (v : Q) (xs ys : list Q) :
  strictly_inside v ys = true -> strictly_inside v (xs ++ ys) = true.
Proof.
  rewrite !strictly_inside_iff.
  intros [(a & Ha & Hlt) (b & Hb & Hgt)]. split.
  - exists a. split; [|done]. apply in_or_app. by right.
  - exists b. split; [|done]. apply in_or_app. by right.
Qed.

End RangeFacts.

Section SearchFacts.

Import Search.
Local Open Scope Q_scope.

Variable Structure : Type.
Variable volume : Structure -> Q.
Variable scale_structure : Structure -> Q -> Structure.
Variable Stress : Type.
Variable engine : Structure -> option (VolumeEnergyPoint Structure Stress).
Variable fit_model : string -> list Q -> list Q -> option EOSFitResult.
Variable models : list string.
Variable rebracket : Bracket -> Q -> Bracket.
Variable max_rounds : nat.

Local Abbreviation Point := (VolumeEnergyPoint Structure Stress).
Local Abbreviation State := (RecursionState Structure Stress).
Local Abbreviation sample := (Search.sample Structure scale_structure Stress engine).
Local Abbreviation select_fit := (Search.select_fit Structure Stress fit_model models).
Local Abbreviation round_step :=
  (Search.round_step Structure volume scale_structure Stress engine fit_model
     models rebracket max_rounds).
Local Abbreviation loop :=
  (Search.loop Structure volume scale_structure Stress engine fit_model
     models rebracket max_rounds).
Local Abbreviation search :=
  (Search.search Structure volume scale_structure Stress engine fit_model
     models rebracket max_rounds).
Local Abbreviation fit_input := (Search.fit_input Structure scale_structure Stress engine).
Local Abbreviation reaches :=
  (Search.reaches Structure volume scale_structure Stress engine fit_model
     models rebracket max_rounds).
Local Abbreviation scale_to_volume := (Search.scale_to_volume Structure volume scale_structure).

Local Abbreviation next_state := (Search.next_state Structure volume Stress rebracket).

(** A round, once its trials and its fit have succeeded. *)
Lemma round_step_fitted (reference : Structure) (s : State)
    (new_points : list Point) (r : EOSFitResult) :
  sample reference (factors (bracket s)) = inl new_points ->
  select_fit (points s ++ new_points) = inl r ->
  round_step reference s =
    if strictly_inside (V0 r) (map pt_volume new_points)
    then Done (Converged (scale_to_volume reference (V0 r)) (V0 r))
    else if (max_rounds <? S (round s))%nat
    then Done (Failed (BracketNonConvergence (points s ++ new_points)))
    else Continue (next_state reference s new_points r).
Proof.
  intros Hs Hf. unfold Search.round_step. rewrite Hs. simpl. by rewrite Hf.
Qed.

Lemma round_step_converged (reference : Structure) (s : State) st v0 :
  round_step reference s = Done (Converged st v0) ->
  exists new_points r,
    sample reference (factors (bracket s)) = inl new_points /\
    select_fit (points s ++ new_points) = inl r /\
    strictly_inside (V0 r) (map pt_volume new_points) = true /\
    v0 = V0 r /\ st = scale_to_volume reference (V0 r).
Proof.
  unfold Search.round_step.
  destruct (sample reference (factors (bracket s))) as [new_points|e] eqn:Hs;
    [|discriminate].
  simpl. destruct (select_fit (points s ++ new_points)) as [r|e] eqn:Hf;
    [|discriminate].
  destruct (strictly_inside (V0 r) (map pt_volume new_points)) eqn:Hin.
  - intros [= <- <-]. exists new_points, r. split_and!; done.
  - destruct (max_rounds <? S (round s))%nat; discriminate.
Qed.

Lemma round_step_continue (reference : Structure) (s s' : State) :
  round_step reference s = Continue s' ->
  exists new_points r,
    sample reference (factors (bracket s)) = inl new_points /\
    select_fit (points s ++ new_points) = inl r /\
    strictly_inside (V0 r) (map pt_volume new_points) = false /\
    (S (round s) <= max_rounds)%nat /\
    s' = next_state reference s new_points r.
Proof.
  unfold Search.round_step.
  destruct (sample reference (factors (bracket s))) as [new_points|e] eqn:Hs;
    [|discriminate].
  simpl. destruct (select_fit (points s ++ new_points)) as [r|e] eqn:Hf;
    [|discriminate].
  destruct (strictly_inside (V0 r) (map pt_volume new_points)) eqn:Hin; [discriminate|].
  destruct (max_rounds <? S (round s))%nat eqn:Hmax; [discriminate|].
  intros [= <-]. exists new_points, r. split_and!; try done.
  apply Nat.ltb_ge in Hmax. lia.
Qed.

(** Three trials give three points. *)
Lemma sample_length (reference : Structure) (fs : list Q) (ps : list Point) :
  sample reference fs = inl ps -> length ps = length fs.
Proof.
  revert ps. induction fs as [|f fs IH]; intros ps; simpl.
  - by intros [= <-].
  - destruct (run_trial _ _ _ _ _ _) as [p|e]; [|discriminate].
    destruct (sample reference fs) as [ps'|e]; [|discriminate].
    intros [= <-]. simpl. f_equal. by apply IH.
Qed.

Lemma reaches_trans (reference : Structure) (s1 s2 s3 : State) :
  reaches reference s1 s2 -> reaches reference s2 s3 -> reaches reference s1 s3.
Proof.
  induction 1 as [|s s' s'' Hstep _ IH]; [done|].
  intros H. eapply reaches_step; [exact Hstep|by apply IH].
Qed.

(** A result of the loop is produced by the round of a reachable state. *)
Lemma loop_result (reference : Structure) (fuel : nat) :
  forall (s : State) o,
    loop fuel reference s = Some o ->
    exists s_final, reaches reference s s_final /\
                    round_step reference s_final = Done o.
Proof.
  induction fuel as [|fuel IH]; intros s o; simpl; [discriminate|].
  destruct (round_step reference s) as [s'|o'] eqn:Hstep.
  - intros Hloop. destruct (IH s' o Hloop) as (sf & Hreach & Hdone).
    exists sf. split; [|done]. by eapply reaches_step.
  - intros [= <-]. exists s. split; [apply reaches_refl|done].
Qed.

(** Enough fuel: the round counter bounds the number of rounds left. *)
Lemma loop_terminates (reference : Structure) (fuel : nat) :
  forall s : State,
    (0 < fuel)%nat -> (max_rounds < round s + fuel)%nat ->
    exists o, loop fuel reference s = Some o.
Proof.
  induction fuel as [|fuel IH]; intros s Hpos Hfuel; [lia|]. simpl.
  destruct (round_step reference s) as [s'|o] eqn:Hstep; [|eauto].
  destruct (round_step_continue reference s s' Hstep)
    as (new_points & r & _ & _ & _ & Hround & ->).
  apply IH; simpl; lia.
Qed.

Lemma loop_fuel_mono (reference : Structure) (fuel fuel' : nat) :
  forall (s : State) o,
    loop fuel reference s = Some o -> (fuel <= fuel')%nat ->
    loop fuel' reference s = Some o.
Proof.
  revert fuel'. induction fuel as [|fuel IH]; intros fuel' s o; simpl; [discriminate|].
  intros Hloop Hle. destruct fuel' as [|fuel']; [lia|]. simpl.
  destruct (round_step reference s) as [s'|o']; [|done].
  apply IH; [done|lia].
Qed.

(** Points are only ever appended. *)
Lemma reaches_points (reference : Structure) (s s' : State) :
  reaches reference s s' -> exists more, points s' = points s ++ more.
Proof.
  induction 1 as [s|s s' s'' Hstep _ (more & IH)].
  - exists []. by rewrite app_nil_r.
  - destruct (round_step_continue reference s s' Hstep)
      as (new_points & r & _ & _ & _ & _ & ->).
    simpl in IH. exists (new_points ++ more). by rewrite IH, app_assoc.
Qed.

(** C1. In every round whose trials and fit succeed, the search returns,
    and returns the reference structure rescaled to the fitted V0, if and
    only if V0 lies strictly between the smallest and the largest volume of
    the points sampled in that round; otherwise no structure is returned:
    the search goes to the next round with a new bracket, or fails with a
    bracket non-convergence once the round counter has reached its limit.
    Hence a V0 returned by the search lies strictly inside the range of all
    the volumes sampled up to and including the last round. *)
Theorem bracket_check_decides (reference : Structure) :
  (forall (s : State) new_points r lo hi,
     sample reference (factors (bracket s)) = inl new_points ->
     select_fit (points s ++ new_points) = inl r ->
     list_range (map pt_volume new_points) = Some (lo, hi) ->
     (round_step reference s =
        Done (Converged (scale_to_volume reference (V0 r)) (V0 r))
      <-> lo < V0 r /\ V0 r < hi) /\
     (~ (lo < V0 r /\ V0 r < hi) ->
      ((S (round s) <= max_rounds)%nat ->
       round_step reference s = Continue (next_state reference s new_points r)) /\
      ((max_rounds < S (round s))%nat ->
       round_step reference s =
         Done (Failed (BracketNonConvergence (points s ++ new_points)))))) /\
  (forall (s : State) st v0,
     round_step reference s = Done (Converged st v0) ->
     exists new_points r lo hi,
       sample reference (factors (bracket s)) = inl new_points /\
       select_fit (points s ++ new_points) = inl r /\
       list_range (map pt_volume new_points) = Some (lo, hi) /\
       lo < v0 /\ v0 < hi /\ v0 = V0 r /\
       st = scale_to_volume reference v0) /\
  (forall b st v0,
     search reference b = Some (Converged st v0) ->
     exists s_final sampled lo hi,
       reaches reference (initial_state b) s_final /\
       fit_input reference s_final = Some sampled /\
       list_range (map pt_volume sampled) = Some (lo, hi) /\
       lo < v0 /\ v0 < hi).
Proof.
  split_and!.
  - intros s new_points r lo hi Hs Hf Hr.
    rewrite (round_step_fitted reference s new_points r Hs Hf).
    pose proof (strictly_inside_range (V0 r) _ lo hi Hr) as Hin.
    destruct (strictly_inside (V0 r) (map pt_volume new_points)) eqn:E.
    + split; [split; [intros _; by apply Hin|done]|].
      intros Hout. exfalso. apply Hout. by apply Hin.
    + split.
      * split.
        -- destruct (max_rounds <? S (round s))%nat; discriminate.
        -- intros Hlh. apply Hin in Hlh. discriminate.
      * intros _. split; intros Hround.
        -- apply Nat.ltb_ge in Hround. by rewrite Hround.
        -- apply Nat.ltb_lt in Hround. by rewrite Hround.
  - intros s st v0 Hdone.
    destruct (round_step_converged reference s st v0 Hdone)
      as (new_points & r & Hs & Hf & Hin & -> & ->).
    assert (Hne : map pt_volume new_points <> []).
    { intros Hnil. rewrite Hnil in Hin. discriminate. }
    destruct (list_range_nonempty _ Hne) as (lo & hi & Hr).
    exists new_points, r, lo, hi. split_and!; try done.
    + by apply (strictly_inside_range (V0 r) _ lo hi Hr).
    + by apply (strictly_inside_range (V0 r) _ lo hi Hr).
  - intros b st v0 Hsearch.
    destruct (loop_result reference _ _ _ Hsearch) as (sf & Hreach & Hdone).
    destruct (round_step_converged reference sf st v0 Hdone)
      as (new_points & r & Hs & Hf & Hin & -> & ->).
    assert (Hall : strictly_inside (V0 r) (map pt_volume (points sf ++ new_points)) = true).
    { rewrite map_app. by apply strictly_inside_app. }
    assert (Hne : map pt_volume (points sf ++ new_points) <> []).
    { intros Hnil. rewrite Hnil in Hall. discriminate. }
    destruct (list_range_nonempty _ Hne) as (lo & hi & Hr).
    exists sf, (points sf ++ new_points), lo, hi. split_and!; try done.
    + unfold Search.fit_input. by rewrite Hs.
    + by apply (strictly_inside_range (V0 r) _ lo hi Hr).
    + by apply (strictly_inside_range (V0 r) _ lo hi Hr).
Qed.

(** C4. The accumulated point set only grows: from one round to any later
    one the points of the state are extended at the end, the list handed to
    the fitter in the earlier round is a prefix of the list handed to it in
    the later round, and so every point fed to an earlier fit, the points
    sampled in that round included, is fed to every later fit. *)
Theorem points_accumulate (reference : Structure) (s s' : State) :
  reaches reference s s' ->
  (exists more, points s' = points s ++ more) /\
  (forall fed fed',
     fit_input reference s = Some fed ->
     fit_input reference s' = Some fed' ->
     exists more, fed' = fed ++ more) /\
  (forall new_points fed' p,
     sample reference (factors (bracket s)) = inl new_points ->
     fit_input reference s' = Some fed' ->
     In p (points s ++ new_points) -> In p fed').
Proof.
  intros Hreach.
  assert (Hprefix : forall fed fed',
            fit_input reference s = Some fed ->
            fit_input reference s' = Some fed' ->
            exists more, fed' = fed ++ more).
  { inversion Hreach as [s0|s0 s1 s2 Hstep Hreach']; subst.
    - intros fed fed' H1 H2. exists []. rewrite app_nil_r. congruence.
    - intros fed fed' H1 H2.
      destruct (round_step_continue reference s s1 Hstep)
        as (new_points & r & Hs & _ & _ & _ & ->).
      unfold Search.fit_input in H1. rewrite Hs in H1. injection H1 as <-.
      destruct (reaches_points reference _ _ Hreach') as (more & Hmore).
      simpl in Hmore. unfold Search.fit_input in H2.
      destruct (sample reference (factors (bracket s'))) as [new'|e]; [|discriminate].
      injection H2 as <-. exists (more ++ new'). by rewrite Hmore, app_assoc. }
  split_and!.
  - exact (reaches_points reference _ _ Hreach).
  - exact Hprefix.
  - intros new_points fed' p Hs Hfed' Hp.
    destruct (Hprefix (points s ++ new_points) fed') as (more & ->); [|done|].
    + unfold Search.fit_input. by rewrite Hs.
    + apply in_or_app. by left.
Qed.

Local Abbreviation engine_keeps_volume :=
  (Search.engine_keeps_volume Structure volume scale_structure Stress engine).
Local Abbreviation fit_finds := (Search.fit_finds Structure Stress fit_model models).
Local Abbreviation nth_bracket := (Search.nth_bracket rebracket).
Local Abbreviation first_bracketed_at := (Search.first_bracketed_at rebracket).
Local Abbreviation never_bracketed := (Search.never_bracketed rebracket).

(** With an engine that keeps the volume, positive scale factors give
    points whose volumes are the factors times the reference volume. *)
Lemma sample_keeps_volume (reference : Structure) (fs : list Q) :
  engine_keeps_volume reference ->
  Forall (fun f => 0 < f) fs ->
  exists ps, sample reference fs = inl ps /\
             Forall2 (fun v f => v == f * volume reference) (map pt_volume ps) fs.
Proof.
  intros Heng. induction fs as [|f fs IH]; intros Hpos.
  - exists []. split; [done|constructor].
  - apply Forall_cons in Hpos as [Hf Hfs].
    destruct (IH Hfs) as (ps & Hps & Hvol).
    destruct (Heng f Hf) as (p & Hp & Hpv).
    exists (p :: ps). simpl. unfold run_trial.
    destruct (Qle_bool f 0) eqn:E.
    { apply Qle_bool_iff in E. exfalso. by apply (Qlt_not_le 0 f). }
    rewrite Hp, Hps. split; [done|]. by constructor.
Qed.

Lemma Forall2_In_l {A B : Type} (P : A -> B -> Prop) (l : list A) (k : list B) (x : A) :
  Forall2 P l k -> In x l -> exists y, In y k /\ P x y.
Proof.
  induction 1 as [|a b l k Hab _ IH]; intros Hin; [destruct Hin|].
  destruct Hin as [<-|Hin].
  - exists b. split; [by left|done].
  - destruct (IH Hin) as (y & Hy & Hxy). exists y. split; [by right|done].
Qed.

Lemma Forall2_In_r {A B : Type} (P : A -> B -> Prop) (l : list A) (k : list B) (y : B) :
  Forall2 P l k -> In y k -> exists x, In x l /\ P x y.
Proof.
  induction 1 as [|a b l k Hab _ IH]; intros Hin; [destruct Hin|].
  destruct Hin as [<-|Hin].
  - exists a. split; [by left|done].
  - destruct (IH Hin) as (x & Hx & Hxy). exists x. split; [by right|done].
Qed.

(** The bracket check on volumes is the bracket check on scale factors. *)
Lemma strictly_inside_scaled (c v : Q) (vols fs : list Q) :
  0 < c ->
  Forall2 (fun vol f => vol == f * c) vols fs ->
  strictly_inside v vols = strictly_inside (v / c) fs.
Proof.
  intros Hc Hrel.
  assert (Hback : v / c * c == v) by (field; lra).
  assert (Hlt : forall vol f, vol == f * c -> (vol < v <-> f < v / c)).
  { intros vol f ->. split; intros H.
    - by apply Qlt_shift_div_l.
    - apply (Qmult_lt_r _ _ c Hc) in H. by rewrite Hback in H. }
  assert (Hgt : forall vol f, vol == f * c -> (v < vol <-> v / c < f)).
  { intros vol f ->. split; intros H.
    - by apply Qlt_shift_div_r.
    - apply (Qmult_lt_r _ _ c Hc) in H. by rewrite Hback in H. }
  assert (Hiff : strictly_inside v vols = true <-> strictly_inside (v / c) fs = true).
  { rewrite !strictly_inside_iff. split.
    - intros [(a & Ha & Hav) (b & Hb & Hbv)]. split.
      + destruct (Forall2_In_l _ _ _ _ Hrel Ha) as (f & Hf & Haf).
        exists f. split; [done|]. by apply (Hlt a f).
      + destruct (Forall2_In_l _ _ _ _ Hrel Hb) as (f & Hf & Hbf).
        exists f. split; [done|]. by apply (Hgt b f).
    - intros [(f & Hf & Hfv) (g & Hg & Hgv)]. split.
      + destruct (Forall2_In_r _ _ _ _ Hrel Hf) as (a & Ha & Haf).
        exists a. split; [done|]. by apply (Hlt a f).
      + destruct (Forall2_In_r _ _ _ _ Hrel Hg) as (b & Hb & Hbg).
        exists b. split; [done|]. by apply (Hgt b g). }
  destruct (strictly_inside v vols), (strictly_inside (v / c) fs); try done.
  - symmetry. by apply Hiff.
  - by apply Hiff.
Qed.

(** One round of the idealised search: the bracket check is decided by the
    scale factors alone. *)
Lemma round_step_ideal (reference : Structure) (vstar : Q) (s : State) :
  0 < volume reference ->
  engine_keeps_volume reference ->
  fit_finds vstar ->
  positive_bracket (bracket s) ->
  exists new_points r,
    V0 r = vstar /\
    round_step reference s =
      if strictly_inside (vstar / volume reference) (factors (bracket s))
      then Done (Converged (scale_to_volume reference vstar) vstar)
      else if (max_rounds <? S (round s))%nat
      then Done (Failed (BracketNonConvergence (points s ++ new_points)))
      else Continue (next_state reference s new_points r).
Proof.
  intros Hvol Heng Hfit (Hlo & Hmid & Hhi).
  destruct (sample_keeps_volume reference (factors (bracket s)) Heng)
    as (new_points & Hs & Hrel).
  { unfold factors. repeat constructor; done. }
  assert (Hlen : (3 <= length (points s ++ new_points))%nat).
  { rewrite length_app, (sample_length reference _ _ Hs). simpl. lia. }
  destruct (Hfit _ Hlen) as (r & Hr & HV0).
  exists new_points, r. split; [done|].
  rewrite (round_step_fitted reference s new_points r Hs Hr), HV0.
  by rewrite (strictly_inside_scaled (volume reference) vstar _ _ Hvol Hrel).
Qed.

Lemma converges_from (reference : Structure) (b : Bracket) (vstar : Q) (n : nat) :
  0 < volume reference ->
  engine_keeps_volume reference ->
  fit_finds vstar ->
  forall (k : nat) (s : State),
    bracket s = nth_bracket b (vstar / volume reference) k ->
    round s = S k ->
    first_bracketed_at b (vstar / volume reference) (k + n) ->
    (S (k + n) <= Nat.max 1 max_rounds)%nat ->
    loop (S n) reference s =
      Some (Converged (scale_to_volume reference vstar) vstar).
Proof.
  intros Hvol Heng Hfit.
  induction n as [|n IH]; intros k s Hb Hround (Hin & Hout & Hpos) Hmax.
  - rewrite Nat.add_0_r in *.
    destruct (round_step_ideal reference vstar s Hvol Heng Hfit)
      as (new_points & r & HV0 & Hstep).
    { rewrite Hb. by apply Hpos. }
    simpl. rewrite Hstep, Hb, Hin. done.
  - destruct (round_step_ideal reference vstar s Hvol Heng Hfit)
      as (new_points & r & HV0 & Hstep).
    { rewrite Hb. apply Hpos. lia. }
    rewrite Hb, (Hout k) in Hstep by lia.
    assert ((max_rounds <? S (round s))%nat = false) as Hlim.
    { apply Nat.ltb_ge. lia. }
    rewrite Hlim in Hstep.
    change (loop (S (S n)) reference s) with
      (match round_step reference s with
       | Done o => Some o
       | Continue s' => loop (S n) reference s'
       end).
    rewrite Hstep. apply (IH (S k)).
    + simpl. by rewrite Hb, HV0.
    + simpl. by rewrite Hround.
    + replace (S k + n)%nat with (k + S n)%nat by lia. done.
    + lia.
Qed.

Lemma fails_from (reference : Structure) (b : Bracket) (vstar : Q) (n : nat) :
  0 < volume reference ->
  engine_keeps_volume reference ->
  fit_finds vstar ->
  never_bracketed b (vstar / volume reference) (Nat.max 1 max_rounds) ->
  forall (k : nat) (s : State),
    bracket s = nth_bracket b (vstar / volume reference) k ->
    round s = S k ->
    (k + S n = Nat.max 1 max_rounds)%nat ->
    exists pts, loop (S n) reference s = Some (Failed (BracketNonConvergence pts)).
Proof.
  intros Hvol Heng Hfit Hnever.
  induction n as [|n IH]; intros k s Hb Hround Hk.
  - destruct (Hnever k ltac:(lia)) as [Hout Hpos].
    destruct (round_step_ideal reference vstar s Hvol Heng Hfit)
      as (new_points & r & HV0 & Hstep).
    { by rewrite Hb. }
    rewrite Hb, Hout in Hstep.
    assert ((max_rounds <? S (round s))%nat = true) as Hlim.
    { apply Nat.ltb_lt. lia. }
    rewrite Hlim in Hstep. simpl. rewrite Hstep. eauto.
  - destruct (Hnever k ltac:(lia)) as [Hout Hpos].
    destruct (round_step_ideal reference vstar s Hvol Heng Hfit)
      as (new_points & r & HV0 & Hstep).
    { by rewrite Hb. }
    rewrite Hb, Hout in Hstep.
    assert ((max_rounds <? S (round s))%nat = false) as Hlim.
    { apply Nat.ltb_ge. lia. }
    rewrite Hlim in Hstep.
    change (loop (S (S n)) reference s) with
      (match round_step reference s with
       | Done o => Some o
       | Continue s' => loop (S n) reference s'
       end).
    rewrite Hstep. apply (IH (S k)).
    + simpl. by rewrite Hb, HV0.
    + simpl. by rewrite Hround.
    + lia.
Qed.

(** C7. The search always terminates.  Each re-bracketing adds one to the
    round counter, which never exceeds the configured maximum; a bracket
    check that fails when the counter has reached the maximum ends the
    search with a bracket non-convergence; and the bounded loop always
    produces an outcome.  Conversely, when the engine keeps volumes, the
    fitter finds the minimum [vstar] and one of the brackets that the
    re-bracketing rule produces within the maximum round count holds the
    minimum strictly inside, the search converges to [vstar] within that
    many rounds; when none does, it fails with a bracket
    non-convergence. *)
Theorem search_terminates (reference : Structure) (b : Bracket) :
  (exists o, search reference b = Some o) /\
  (forall s s' : State,
     round_step reference s = Continue s' ->
     round s' = S (round s) /\ (round s' <= max_rounds)%nat) /\
  (forall (s : State) new_points r,
     sample reference (factors (bracket s)) = inl new_points ->
     select_fit (points s ++ new_points) = inl r ->
     strictly_inside (V0 r) (map pt_volume new_points) = false ->
     (max_rounds <= round s)%nat ->
     round_step reference s =
       Done (Failed (BracketNonConvergence (points s ++ new_points)))) /\
  (forall vstar,
     0 < volume reference ->
     engine_keeps_volume reference ->
     fit_finds vstar ->
     (forall K,
        (S K <= Nat.max 1 max_rounds)%nat ->
        first_bracketed_at b (vstar / volume reference) K ->
        loop (S K) reference (initial_state b) =
          Some (Converged (scale_to_volume reference vstar) vstar) /\
        search reference b =
          Some (Converged (scale_to_volume reference vstar) vstar)) /\
     (never_bracketed b (vstar / volume reference) (Nat.max 1 max_rounds) ->
      exists pts, search reference b = Some (Failed (BracketNonConvergence pts)))).
Proof.
  split_and!.
  - apply loop_terminates; simpl; lia.
  - intros s s' Hstep.
    destruct (round_step_continue reference s s' Hstep)
      as (new_points & r & _ & _ & _ & Hround & ->). simpl. lia.
  - intros s new_points r Hs Hf Hout Hround.
    rewrite (round_step_fitted reference s new_points r Hs Hf), Hout.
    assert ((max_rounds <? S (round s))%nat = true) as ->; [|done].
    apply Nat.ltb_lt. lia.
  - intros vstar Hvol Heng Hfit. split.
    + intros K HK Hfirst.
      assert (Hloop : loop (S K) reference (initial_state b) =
                      Some (Converged (scale_to_volume reference vstar) vstar)).
      { apply (converges_from reference b vstar K Hvol Heng Hfit 0%nat); try done. }
      split; [exact Hloop|].
      apply (loop_fuel_mono reference (S K)); [exact Hloop|]. lia.
    + intros Hnever.
      destruct (fails_from reference b vstar (Nat.max 1 max_rounds - 1) Hvol Heng Hfit
                  Hnever 0%nat (initial_state b) eq_refl eq_refl ltac:(lia))
        as (pts & Hloop).
      exists pts.
      apply (loop_fuel_mono reference (S (Nat.max 1 max_rounds - 1))); [exact Hloop|].
      lia.
Qed.

(** The scenario recorded in the test of the flow: trials at the default
    bracket come back with the recorded volumes, and the preferred model's
    fit of them gives the recorded V0.  The search then converges in its
    first round and returns the structure rescaled to that V0. *)
Lemma recorded_scenario_converges (reference : Structure) (p1 p2 p3 : Point)
    (r : EOSFitResult) (other_models : list string) :
  models = "birch_murnaghan" :: other_models ->
  engine (scale_structure reference 0.8) = Some p1 ->
  engine (scale_structure reference 1.0) = Some p2 ->
  engine (scale_structure reference 1.2) = Some p3 ->
  pt_volume p1 = 82.59487098351644 ->
  pt_volume p2 = 161.31810738968053 ->
  pt_volume p3 = 278.7576895693679 ->
  fit_model "birch_murnaghan" (map pt_volume [p1; p2; p3]) (map pt_energy [p1; p2; p3])
    = Some r ->
  V0 r = 171.51226566279973 ->
  loop 1 reference (initial_state default_bracket) =
    Some (Converged (scale_to_volume reference (V0 r)) (V0 r)) /\
  search reference default_bracket =
    Some (Converged (scale_to_volume reference (V0 r)) (V0 r)) /\
  Qabs (V0 r - 171.51) < 0.01.
Proof.
  intros Hmodels H1 H2 H3 Hv1 Hv2 Hv3 Hfit HV0.
  assert (Hs : sample reference (factors default_bracket) = inl [p1; p2; p3]).
  { simpl. unfold run_trial. simpl. by rewrite H1, H2, H3. }
  assert (Hf : select_fit ([] ++ [p1; p2; p3]) = inl r).
  { unfold Search.select_fit, fit. rewrite Hmodels. simpl.
    simpl in Hfit. by rewrite Hfit. }
  assert (Hloop : loop 1 reference (initial_state default_bracket) =
                  Some (Converged (scale_to_volume reference (V0 r)) (V0 r))).
  { simpl.
    rewrite (round_step_fitted reference (initial_state default_bracket)
               [p1; p2; p3] r Hs Hf).
    simpl. rewrite Hv1, Hv2, Hv3, HV0. reflexivity. }
  split_and!.
  - exact Hloop.
  - apply (loop_fuel_mono reference 1); [exact Hloop|lia].
  - rewrite HV0. reflexivity.
Qed.

End SearchFacts.

Section SearchExamples.

Import Search.
Local Open Scope Q_scope.

Lemma demo_engine_keeps_volume :
  engine_keeps_volume Q demo_volume demo_scale unit demo_engine 100.
Proof. intros k Hk. eexists. split; reflexivity. Qed.

Lemma demo_fit_finds : fit_finds Q unit demo_fit_model demo_models 170.
Proof.
  intros pts Hlen. unfold select_fit, fit. rewrite length_map.
  assert ((length pts <? 3)%nat = false) as -> by (apply Nat.ltb_ge; lia).
  eexists. split; reflexivity.
Qed.

Lemma demo_first_bracketed :
  first_bracketed_at double_span default_bracket (170 / demo_volume 100) 2.
Proof.
  split_and!.
  - reflexivity.
  - intros [|[|k]] Hk; [reflexivity..|lia].
  - intros [|[|[|k]]] Hk; [repeat split..|lia].
Qed.

Lemma points_accumulate_witness :
  exists s' fed fed' more,
    demo_round_step 100 (initial_state default_bracket) = Continue s' /\
    fit_input Q demo_scale unit demo_engine 100 (initial_state default_bracket) = Some fed /\
    fit_input Q demo_scale unit demo_engine 100 s' = Some fed' /\
    fed' = fed ++ more.
Proof.
  eassert (Hstep : demo_round_step 100 (initial_state default_bracket) = Continue _)
    by (vm_compute; reflexivity).
  match type of Hstep with
  | _ = Continue ?s1 =>
      eassert (H1 : fit_input Q demo_scale unit demo_engine 100
                      (initial_state default_bracket) = Some _)
        by (vm_compute; reflexivity);
      eassert (H2 : fit_input Q demo_scale unit demo_engine 100 s1 = Some _)
        by (vm_compute; reflexivity);
      destruct (points_accumulate Q demo_volume demo_scale unit demo_engine
                  demo_fit_model demo_models double_span 5 100
                  (initial_state default_bracket) s1
                  (reaches_step _ _ _ _ _ _ _ _ _ _ _ _ _ Hstep
                     (reaches_refl _ _ _ _ _ _ _ _ _ _ _)))
        as (_ & Hprefix & _);
      destruct (Hprefix _ _ H1 H2) as (more & Hmore);
      exact (ex_intro _ s1 (ex_intro _ _ (ex_intro _ _ (ex_intro _ more
               (conj Hstep (conj H1 (conj H2 Hmore)))))))
  end.
Defined.

Lemma search_terminates_witness :
  demo_search = Some (Converged (demo_scale 100 (170 / demo_volume 100)) 170) /\
  loop Q demo_volume demo_scale unit demo_engine demo_fit_model demo_models
       double_span 5 3 100 (initial_state default_bracket) =
    Some (Converged (demo_scale 100 (170 / demo_volume 100)) 170).
Proof.
  destruct (search_terminates Q demo_volume demo_scale unit demo_engine demo_fit_model
              demo_models double_span 5 100 default_bracket)
    as (_ & _ & _ & Hideal).
  destruct (Hideal 170 eq_refl demo_engine_keeps_volume demo_fit_finds) as [Hconv _].
  destruct (Hconv 2%nat ltac:(simpl; lia) demo_first_bracketed) as [Hloop Hsearch].
  split; [exact Hsearch|exact Hloop].
Defined.

End SearchExamples.

(** ** More on [create_list_summing_to] *)

Section UtilsMoreFacts.

Import Utils.
Local Open Scope Z_scope.

(** X1. For every [n_pieces >= 1] and every integer [total_sum], negative
    ones included, [create_list_summing_to] returns [n_pieces] integers
    whose sum is [total_sum], each of which is the floor of
    [total_sum / n_pieces] or that floor plus one. *)
Theorem create_list_summing_to_any_total (total_sum n_pieces : Z) :
  1 <= n_pieces ->
  exists l,
    create_list_summing_to total_sum n_pieces = Some l /\
    Z.of_nat (length l) = n_pieces /\
    sum l = total_sum /\
    Forall (fun x => x = total_sum / n_pieces \/ x = total_sum / n_pieces + 1) l.
Proof.
  intros Hn.
  pose proof (Z.mod_pos_bound total_sum n_pieces ltac:(lia)) as Hmod.
  pose proof (Z.div_mod total_sum n_pieces ltac:(lia)) as Hdm.
  unfold create_list_summing_to.
  destruct (decide (n_pieces = 0)) as [->|_]; [lia|].
  eexists; split; [reflexivity|]. split_and!.
  - rewrite length_app, !length_list_mul. lia.
  - rewrite sum_app, !sum_list_mul by lia. nia.
  - apply Forall_app; split; apply Forall_forall; intros x Hx;
      apply elem_of_list_mul in Hx; lia.
Qed.

Lemma create_list_summing_to_any_total_witness :
  exists l, create_list_summing_to (-7) 3 = Some l /\ sum l = -7.
Proof.
  destruct (create_list_summing_to_any_total (-7) 3 ltac:(lia))
    as (l & Hl & _ & Hsum & _).
  exists l. split; [exact Hl|exact Hsum].
Defined.

(** X2. With no pieces the division raises, and with a negative number of
    pieces the result is the empty list, whatever the total: the call does
    not fail, and what it returns does not sum to a non-zero total. *)
Theorem create_list_summing_to_no_pieces (total_sum n_pieces : Z) :
  n_pieces <= 0 ->
  create_list_summing_to total_sum n_pieces =
    if decide (n_pieces = 0) then None else Some [].
Proof.
  intros Hn. unfold create_list_summing_to.
  destruct (decide (n_pieces = 0)) as [->|Hne]; [done|].
  pose proof (Z.mod_neg_bound total_sum n_pieces ltac:(lia)) as Hmod.
  unfold list_mul.
  rewrite (Z2Nat.nonpos (total_sum mod n_pieces)) by lia.
  rewrite (Z2Nat.nonpos (n_pieces - total_sum mod n_pieces)) by lia.
  reflexivity.
Qed.

Lemma create_list_summing_to_no_pieces_witness :
  create_list_summing_to 10 (-3) = Some [].
Proof. apply (create_list_summing_to_no_pieces 10 (-3)). lia. Defined.

End UtilsMoreFacts.

(** ** More on [postprocess_EOS] *)

Section EOSMoreFacts.

Import EOS.

Variable EOS_new : string -> lib_result unit.
Variable EOS_fit : string -> val -> val -> lib_result eos_fit.

Implicit Types (h : heap) (d o l e r : loc) (jt m : string).

(** A job type whose entry is a non-empty dictionary: the table is created
    empty and the models are fitted from there. *)
Lemma process_jobtype_nonempty h d o ms jt l :
  jt ≠ "EOS" ->
  (h !!! o) !! jt = (h !!! d) !! jt ->
  (h !!! d) !! jt = Some (VRef l) -> h !!! l ≠ ∅ ->
  let e := fresh (dom h) in
  let h1 := <[l := <["EOS" := VRef e]> (h !!! l)]> (<[e := ∅]> h) in
  process_jobtype EOS_new EOS_fit d o ms jt h =
    for_each (fit_one EOS_new EOS_fit d o jt) ms h1 /\
  table_inv h1 d o jt l e /\
  h1 !!! e = ∅ /\
  (e ∉ dom h) /\
  dom h ⊆ dom h1 /\
  (forall k, k ≠ "EOS" -> (h1 !!! l) !! k = (h !!! l) !! k).
Proof.
  intros Hjt Hcopy Hd Hne e h1.
  assert (Hl : l ∈ dom h) by (by apply lookup_total_nonempty_dom).
  assert (Hdd : d ∈ dom h) by (eapply lookup_total_Some_dom, Hd).
  assert (Hod : o ∈ dom h) by (eapply lookup_total_Some_dom; by rewrite Hcopy).
  assert (Hfresh : e ∉ dom h) by apply is_fresh.
  assert (Hel : e ≠ l) by (by apply fresh_ne_dom).
  assert (Hother : forall x, x ∈ dom h -> x ≠ l -> h1 !!! x = h !!! x).
  { intros x Hx Hxl. unfold h1. rewrite lookup_total_insert_ne by done.
    by apply lookup_total_alloc_old. }
  assert (Hkeys : forall k, k ≠ "EOS" -> (h1 !!! l) !! k = (h !!! l) !! k).
  { intros k Hk. unfold h1. rewrite lookup_total_insert_eq.
    by rewrite lookup_insert_ne. }
  assert (Hsame : forall x k, x ∈ dom h -> k ≠ "EOS" ->
                              (h1 !!! x) !! k = (h !!! x) !! k).
  { intros x k Hx Hk. destruct (decide (x = l)) as [->|Hxl]; [by apply Hkeys|].
    by rewrite Hother. }
  split_and!.
  - unfold process_jobtype, bind, dict_get. rewrite Hd. simpl.
    destruct (decide (size (h !!! l) = 0%nat)) as [Hsz|Hsz].
    { by apply map_size_empty_iff in Hsz. }
    unfold alloc, dict_getitem. simpl.
    rewrite (lookup_total_alloc_old h o) by done.
    rewrite Hcopy, Hd. simpl. unfold dict_setitem.
    rewrite (lookup_total_alloc_old h l) by done. reflexivity.
  - split.
    + by rewrite Hsame.
    + by rewrite Hsame, Hcopy.
    + unfold h1. rewrite lookup_total_insert_eq. apply lookup_insert_eq.
    + by apply fresh_ne_dom.
    + by apply fresh_ne_dom.
    + done.
    + unfold h1. rewrite !dom_insert. set_solver.
  - unfold h1. rewrite lookup_total_insert_ne by done. apply lookup_total_insert_eq.
  - done.
  - unfold h1. rewrite !dom_insert. set_solver.
  - done.
Qed.

(** The models that are not fitted leave no entry in the table. *)
Lemma fit_models_other d o jt l e ms :
  forall h h' res,
    table_inv h d o jt l e ->
    for_each (fit_one EOS_new EOS_fit d o jt) ms h = (h', res) ->
    forall m, m ∉ ms -> (h' !!! e) !! m = (h !!! e) !! m.
Proof.
  induction ms as [|m0 ms IH]; intros h h' res Hinv Hrun m Hm.
  - simpl in Hrun. by injection Hrun as <- <-.
  - apply not_elem_of_cons in Hm as [Hm0 Hm].
    simpl in Hrun. unfold bind in Hrun.
    rewrite (fit_one_eq EOS_new EOS_fit h d o jt l e m0 Hinv) in Hrun.
    destruct (model_result _ _ _ _ _) as [rec0|x].
    + pose proof (record_result_inv EOS_new EOS_fit h d o jt l e m0 rec0 Hinv) as Hinv1.
      rewrite (IH _ _ _ Hinv1 Hrun m Hm).
      rewrite record_result_table by (by destruct Hinv).
      by rewrite decide_False.
    + by injection Hrun as <- <-.
Qed.

(** X3. A non-empty job-type entry without ["volumes"] makes the call raise
    [KeyError] as soon as the constructor of the first model has
    succeeded; by then the entry of the caller's dictionary has received an
    empty ["EOS"] table, which stays. *)
Theorem postprocess_EOS_missing_volumes h d models l m ms :
  default default_EOS_models models = m :: ms ->
  EOS_new m = LibOk tt ->
  (h !!! d) !! "relax" = Some (VRef l) -> h !!! l ≠ ∅ ->
  (h !!! l) !! "volumes" = None ->
  exists h' e,
    postprocess_EOS EOS_new EOS_fit d models h = (h', Raise (KeyError "volumes")) /\
    (e ∉ dom h) /\
    (h' !!! l) !! "EOS" = Some (VRef e) /\
    h' !!! e = ∅.
Proof.
  intros Hms Hnew Hd Hne Hvol.
  assert (Hl : l ∈ dom h) by (by apply lookup_total_nonempty_dom).
  assert (Hdd : d ∈ dom h) by (eapply lookup_total_Some_dom, Hd).
  unfold postprocess_EOS, bind, dict_copy, alloc. simpl. rewrite Hms.
  set (o := fresh (dom h)).
  set (h0 := <[o := h !!! d]> h).
  assert (Ho : o ∉ dom h) by apply is_fresh.
  assert (Hh0d : h0 !!! d = h !!! d) by (by apply lookup_total_alloc_old).
  assert (Hh0l : h0 !!! l = h !!! l) by (by apply lookup_total_alloc_old).
  assert (Hh0o : h0 !!! o = h !!! d) by apply lookup_total_insert_eq.
  destruct (process_jobtype_nonempty h0 d o (m :: ms) "relax" l)
    as (Hproc & Hinv & Hempty & Hfresh & Hdom & Hkeys);
    [done|by rewrite Hh0o, Hh0d|by rewrite Hh0d|by rewrite Hh0l|].
  set (e := fresh (dom h0)) in *.
  set (h1 := <[l := <["EOS" := VRef e]> (h0 !!! l)]> (<[e := ∅]> h0)) in *.
  exists h1, e. unfold bind. rewrite Hproc. cbn [for_each]. unfold bind.
  rewrite (fit_one_eq EOS_new EOS_fit h1 d o "relax" l e m Hinv).
  unfold model_result. rewrite Hnew.
  rewrite Hkeys by done. rewrite Hh0l, Hvol.
  split_and!; [done| |by destruct Hinv|done].
  intros Hin. apply Hfresh. unfold h0. rewrite dom_insert. set_solver.
Qed.

(** One job type that returns: the table of a non-empty entry is a new
    object that holds the requested models and nothing else. *)
Lemma process_jobtype_table_keys h d o ms jt h' l :
  jt ≠ "EOS" ->
  (h !!! o) !! jt = (h !!! d) !! jt ->
  (h !!! d) !! jt = Some (VRef l) -> h !!! l ≠ ∅ ->
  process_jobtype EOS_new EOS_fit d o ms jt h = (h', Return tt) ->
  exists e,
    (e ∉ dom h) /\ e ∈ dom h' /\
    (h' !!! l) !! "EOS" = Some (VRef e) /\
    forall m, is_Some ((h' !!! e) !! m) <-> m ∈ ms.
Proof.
  intros Hjt Hcopy Hd Hne Hrun.
  destruct (process_jobtype_nonempty h d o ms jt l Hjt Hcopy Hd Hne)
    as (Hproc & Hinv & Hempty & Hfresh & Hdom & Hkeys).
  set (e := fresh (dom h)) in *.
  set (h1 := <[l := <["EOS" := VRef e]> (h !!! l)]> (<[e := ∅]> h)) in *.
  rewrite Hproc in Hrun.
  destruct (fit_models_spec EOS_new EOS_fit d o jt l e (dom h) ms h1 h' (Return tt)
              Hinv Hdom Hrun) as (Hinv' & Hdom' & _ & _ & Hret & _ & _).
  exists e. split_and!; [done|by destruct Hinv'|by destruct Hinv'|].
  intros m. split.
  - intros Hsome. destruct (decide (m ∈ ms)) as [|Hnin]; [done|].
    rewrite (fit_models_other d o jt l e ms h1 h' _ Hinv Hrun m Hnin) in Hsome.
    rewrite Hempty, lookup_empty in Hsome. by destruct Hsome.
  - intros Hm. destruct (Hret eq_refl m Hm) as (rec & _ & r & Hr & _). eauto.
Qed.

(** X4. After a call that returns, the ["EOS"] table of every non-empty job
    type is a dictionary created by the call, and its keys are the
    requested models and no others: results that an earlier call had left
    under other model names are gone. *)
Theorem postprocess_EOS_table_keys h d models h' o jt l :
  (forall jt l, jt ∈ ["relax"; "static"] ->
                (h !!! d) !! jt = Some (VRef l) -> l ∈ dom h) ->
  postprocess_EOS EOS_new EOS_fit d models h = (h', Return o) ->
  jt ∈ ["relax"; "static"] ->
  (h !!! d) !! jt = Some (VRef l) -> h !!! l ≠ ∅ ->
  exists e,
    (e ∉ dom h) /\
    (h' !!! l) !! "EOS" = Some (VRef e) /\
    forall m, is_Some ((h' !!! e) !! m) <-> m ∈ default default_EOS_models models.
Proof.
  intros Hwf Hrun Hjt Hd Hne.
  unfold postprocess_EOS, bind, dict_copy, alloc in Hrun. simpl in Hrun.
  set (ms := default default_EOS_models models) in *.
  set (o0 := fresh (dom h)) in *.
  set (h1 := <[o0 := h !!! d]> h) in *.
  unfold bind in Hrun.
  destruct (process_jobtype EOS_new EOS_fit d o0 ms "relax" h1)
    as [h2 [[]|x1]] eqn:Hrelax; [|discriminate].
  destruct (process_jobtype EOS_new EOS_fit d o0 ms "static" h2)
    as [h3 [[]|x2]] eqn:Hstatic; [|discriminate].
  simpl in Hrun. injection Hrun as <- <-.
  assert (Ho : o0 ∉ dom h) by apply is_fresh.
  assert (Hdd : d ∈ dom h) by (eapply lookup_total_Some_dom, Hd).
  assert (Hl : l ∈ dom h) by (by apply lookup_total_nonempty_dom).
  assert (Hdom1 : dom h ⊆ dom h1) by (unfold h1; rewrite dom_insert; set_solver).
  assert (Hh1 : forall x, x ∈ dom h -> h1 !!! x = h !!! x).
  { intros x Hx. by apply lookup_total_alloc_old. }
  assert (Hh1o : h1 !!! o0 = h !!! d) by apply lookup_total_insert_eq.
  assert (Hcopy1 : (h1 !!! o0) !! "relax" = (h1 !!! d) !! "relax").
  { by rewrite Hh1o, Hh1. }
  destruct (process_jobtype_returns EOS_new EOS_fit h1 d o0 ms "relax" h2
              ltac:(done) Hcopy1 Hrelax) as (Hdom2 & Hsame2 & Hsome2 & Hframe2 & _ & _).
  assert (Ho1 : o0 ∈ dom h1) by (unfold h1; rewrite dom_insert; set_solver).
  assert (Hcopy2 : (h2 !!! o0) !! "static" = (h2 !!! d) !! "static").
  { rewrite !Hsame2 by (done || by apply Hdom1). by rewrite Hh1o, Hh1. }
  destruct (process_jobtype_returns EOS_new EOS_fit h2 d o0 ms "static" h3
              ltac:(done) Hcopy2 Hstatic) as (Hdom3 & Hsame3 & Hsome3 & Hframe3 & _ & _).
  assert (Hd2 : forall k, k ≠ "EOS" -> (h2 !!! d) !! k = (h !!! d) !! k).
  { intros k Hk. rewrite Hsame2 by (done || by apply Hdom1). by rewrite Hh1. }
  assert (Hne2 : h2 !!! l ≠ ∅).
  { destruct (map_choose _ Hne) as (k & v & Hkv).
    assert (His : is_Some ((h2 !!! l) !! k)).
    { apply Hsome2; [by apply Hdom1|]. rewrite Hh1 by done. eauto. }
    intros Hemp. rewrite Hemp, lookup_empty in His. by destruct His. }
  assert (Hstatic_case : forall l', (h !!! d) !! "static" = Some (VRef l') -> l' = l ->
    exists e, (e ∉ dom h) /\ (h3 !!! l) !! "EOS" = Some (VRef e) /\
              forall m, is_Some ((h3 !!! e) !! m) <-> m ∈ ms).
  { intros l' Hl' ->.
    destruct (process_jobtype_table_keys h2 d o0 ms "static" h3 l
                ltac:(done) Hcopy2 ltac:(by rewrite Hd2) Hne2 Hstatic)
      as (e & He & _ & Htbl & Hkeys).
    exists e. split_and!; [|done|done].
    intros Hin. apply He. by apply Hdom2, Hdom1. }
  apply elem_of_cons in Hjt as [->|Hjt].
  - destruct (process_jobtype_table_keys h1 d o0 ms "relax" h2 l
                ltac:(done) Hcopy1 ltac:(by rewrite Hh1) ltac:(by rewrite Hh1) Hrelax)
      as (e & He & He2 & Htbl & Hkeys).
    assert (Hcases : (h !!! d) !! "static" = Some (VRef l) \/
                     (h !!! d) !! "static" ≠ Some (VRef l)).
    { destruct ((h !!! d) !! "static") as [[q|xs|l']|]; try (by right).
      destruct (decide (l' = l)) as [->|Hne']; [by left|right; congruence]. }
    destruct Hcases as [Hsame|Hdiff].
    { by apply (Hstatic_case l). }
    assert (Hnot : forall l', (h2 !!! d) !! "static" = Some (VRef l') -> l ≠ l').
    { intros l' Hl' <-. apply Hdiff. by rewrite <- Hd2. }
    assert (Hnote : forall l', (h2 !!! d) !! "static" = Some (VRef l') -> e ≠ l').
    { intros l' Hl' <-. rewrite Hd2 in Hl' by done.
      apply He, Hdom1. by eapply Hwf; [|exact Hl']; set_solver. }
    exists e. split_and!.
    + intros Hin. apply He. by apply Hdom1.
    + rewrite Hframe3; [done|by apply Hdom2, Hdom1|done].
    + intros m. rewrite Hframe3; [by apply Hkeys|done|done].
  - apply elem_of_cons in Hjt as [->|Hjt]; [|by apply elem_of_nil in Hjt].
    by apply (Hstatic_case l).
Qed.

(** X5. What a call that returns gives back is a new dictionary with exactly
    the entries of [data_dict]: the same keys with the same values, the
    references to the job-type dictionaries included. *)
Theorem postprocess_EOS_returns_copy h d models h' o :
  d ∈ dom h ->
  (forall jt l, jt ∈ ["relax"; "static"] ->
                (h !!! d) !! jt = Some (VRef l) -> l ∈ dom h) ->
  postprocess_EOS EOS_new EOS_fit d models h = (h', Return o) ->
  (o ∉ dom h) /\ o ∈ dom h' /\ h' !!! o = h !!! d.
Proof.
  intros Hdd Hwf Hrun.
  unfold postprocess_EOS, bind, dict_copy, alloc in Hrun. simpl in Hrun.
  set (ms := default default_EOS_models models) in *.
  set (o0 := fresh (dom h)) in *.
  set (h1 := <[o0 := h !!! d]> h) in *.
  unfold bind in Hrun.
  destruct (process_jobtype EOS_new EOS_fit d o0 ms "relax" h1)
    as [h2 [[]|x1]] eqn:Hrelax; [|discriminate].
  destruct (process_jobtype EOS_new EOS_fit d o0 ms "static" h2)
    as [h3 [[]|x2]] eqn:Hstatic; [|discriminate].
  simpl in Hrun. injection Hrun as <- <-.
  assert (Ho : o0 ∉ dom h) by apply is_fresh.
  assert (Hdom1 : dom h ⊆ dom h1) by (unfold h1; rewrite dom_insert; set_solver).
  assert (Hh1 : forall x, x ∈ dom h -> h1 !!! x = h !!! x).
  { intros x Hx. by apply lookup_total_alloc_old. }
  assert (Hh1o : h1 !!! o0 = h !!! d) by apply lookup_total_insert_eq.
  assert (Ho1 : o0 ∈ dom h1) by (unfold h1; rewrite dom_insert; set_solver).
  assert (Hcopy1 : (h1 !!! o0) !! "relax" = (h1 !!! d) !! "relax").
  { by rewrite Hh1o, Hh1. }
  destruct (process_jobtype_returns EOS_new EOS_fit h1 d o0 ms "relax" h2
              ltac:(done) Hcopy1 Hrelax) as (Hdom2 & Hsame2 & _ & Hframe2 & _ & _).
  assert (Hcopy2 : (h2 !!! o0) !! "static" = (h2 !!! d) !! "static").
  { rewrite !Hsame2 by (done || by apply Hdom1). by rewrite Hh1o, Hh1. }
  destruct (process_jobtype_returns EOS_new EOS_fit h2 d o0 ms "static" h3
              ltac:(done) Hcopy2 Hstatic) as (Hdom3 & Hsame3 & _ & Hframe3 & _ & _).
  split_and!; [done|by apply Hdom3, Hdom2|].
  rewrite Hframe3, Hframe2; [done|done| |by apply Hdom2|].
  - intros l Hl ->. rewrite Hh1 in Hl by done. apply Ho.
    by eapply Hwf; [|exact Hl]; set_solver.
  - intros l Hl ->. rewrite Hsame2 in Hl by (done || by apply Hdom1).
    rewrite Hh1 in Hl by done. apply Ho.
    by eapply Hwf; [|exact Hl]; set_solver.
Qed.

End EOSMoreFacts.

Section EOSMoreExamples.
Import EOS.

Ltac list_mem := repeat (apply elem_of_cons; first [left; reflexivity | right]).

Lemma postprocess_EOS_missing_volumes_witness :
  exists h' e,
    postprocess_EOS demo_new demo_fit 1%positive None no_volumes_heap
      = (h', Raise (KeyError "volumes")) /\
    (e ∉ dom no_volumes_heap) /\
    (h' !!! 2%positive) !! "EOS" = Some (VRef e) /\
    h' !!! e = ∅.
Proof.
  apply (postprocess_EOS_missing_volumes demo_new demo_fit no_volumes_heap 1%positive
           None 2%positive "murnaghan"
           ["birch"; "birch_murnaghan"; "pourier_tarantola"; "vinet"]);
    [reflexivity|reflexivity|reflexivity| |reflexivity].
  intros Hemp. apply (f_equal (fun m : dict => m !! "energies")) in Hemp.
  vm_compute in Hemp. discriminate.
Defined.

Lemma postprocess_EOS_table_keys_witness :
  exists h' o e,
    postprocess_EOS demo_new demo_fit 1%positive (Some ["murnaghan"; "vinet"]) demo_heap
      = (h', Return o) /\
    (e ∉ dom demo_heap) /\
    (h' !!! 2%positive) !! "EOS" = Some (VRef e) /\
    forall m, is_Some ((h' !!! e) !! m) <-> m ∈ ["murnaghan"; "vinet"].
Proof.
  destruct (postprocess_EOS_total demo_new demo_fit demo_heap 1%positive
              (Some ["murnaghan"; "vinet"]) (demo_heap_ready _)) as [h' Hrun].
  assert (Hne : demo_heap !!! 2%positive ≠ ∅).
  { intros Hemp. apply (f_equal (fun m : dict => m !! "volumes")) in Hemp.
    vm_compute in Hemp. discriminate. }
  destruct (postprocess_EOS_table_keys demo_new demo_fit demo_heap 1%positive
              (Some ["murnaghan"; "vinet"]) h' _ "relax" 2%positive
              (fun jt l _ H => demo_heap_closed 1%positive jt l H)
              Hrun ltac:(list_mem) eq_refl Hne) as (e & He & Htbl & Hkeys).
  exists h', (fresh (dom demo_heap)), e.
  exact (conj Hrun (conj He (conj Htbl Hkeys))).
Defined.

Lemma postprocess_EOS_returns_copy_witness :
  exists h' o,
    postprocess_EOS demo_new demo_fit 1%positive None demo_heap = (h', Return o) /\
    (o ∉ dom demo_heap) /\ o ∈ dom h' /\
    h' !!! o = demo_heap !!! 1%positive.
Proof.
  destruct (postprocess_EOS_total demo_new demo_fit demo_heap 1%positive None
              (demo_heap_ready _)) as [h' Hrun].
  destruct (postprocess_EOS_returns_copy demo_new demo_fit demo_heap 1%positive None
              h' _ ltac:(apply elem_of_dom; eexists; reflexivity)
              (fun jt l _ H => demo_heap_closed 1%positive jt l H) Hrun)
    as (Ho & Ho' & Heq).
  exists h', (fresh (dom demo_heap)).
  exact (conj Hrun (conj Ho (conj Ho' Heq))).
Defined.

End EOSMoreExamples.

(** ** More on the OpenMM temperature stages *)

Section OpenMMMoreFacts.

Import OpenMM.
Local Open Scope Q_scope.

Variable Config : Type.
Variable md : Q -> Z -> Config -> Config.

(** X7. A temperature change to a lower temperature runs no MD step: the
    step size is an absolute value, so the temperatures [np.arange] counts
    through start above the target and there are none.  The job returns the
    configuration it was given and still records the target temperature. *)
Theorem temp_change_to_lower_temperature (self : TempChangeMaker)
    (prev_task : TaskDoc Config) (T1 : Q) :
  tc_temperature self = Some T1 ->
  T1 < resolve_temperature None prev_task ->
  (0 < tc_temp_steps self)%Z ->
  exists job,
    temp_change_make Config md self prev_task = Some job /\
    task_segments job = [] /\
    interchange job = interchange prev_task /\
    task_temperature job = Some T1.
Proof.
  intros Htarget Hlt Hn. eexists. split.
  - by apply temp_change_make_cooling.
  - done.
Qed.

(** X8. When [steps] is one integer, [from_temps_and_steps] splits it over
    the three stages without losing a step: the three step counts add up to
    [steps], the first two are equal, and for [steps >= 0] the third is the
    largest and exceeds them by at most 2. *)
Theorem from_temps_and_steps_split (anneal_temp final_temp : Q) (n : Z)
    (temp_steps : int_or_triple) (kwargs : list string) :
  exists maker,
    from_temps_and_steps anneal_temp final_temp (IntArg n) temp_steps (Some kwargs)
      = Some maker /\
    (tc_steps (raise_temp_maker maker) + nvt_steps (nvt_maker maker)
       + tc_steps (lower_temp_maker maker) = n)%Z /\
    tc_steps (raise_temp_maker maker) = nvt_steps (nvt_maker maker) /\
    ((0 <= n)%Z ->
       (0 <= tc_steps (lower_temp_maker maker) - tc_steps (raise_temp_maker maker) <= 2)%Z).
Proof.
  eexists. split; [reflexivity|]. cbn [raise_temp_maker nvt_maker lower_temp_maker
    tc_steps nvt_steps fst snd].
  pose proof (Z.div_mod n 3 ltac:(lia)).
  split_and!; [lia|done|].
  intros Hn. pose proof (Z.mod_pos_bound n 3 ltac:(lia)). lia.
Qed.

End OpenMMMoreFacts.

Section OpenMMMoreExamples.
Import OpenMM.
Local Open Scope Q_scope.

Lemma temp_change_to_lower_temperature_witness :
  exists job,
    temp_change_make Z count_md
      {| tc_steps := 10; tc_temp_steps := 2; tc_temperature := Some 250;
         tc_starting_temperature := None |} demo_input = Some job /\
    task_segments job = [] /\
    interchange job = interchange demo_input /\
    task_temperature job = Some 250.
Proof.
  apply (temp_change_to_lower_temperature Z count_md
           {| tc_steps := 10; tc_temp_steps := 2; tc_temperature := Some 250;
              tc_starting_temperature := None |} demo_input 250);
    [reflexivity|reflexivity|reflexivity].
Defined.

End OpenMMMoreExamples.

(** ** [increment_name] *)

Section NamesFacts.
Import Names.
Local Open Scope string_scope.

Lemma span_digits_all (ds : string) :
  all_digits ds = true -> span_digits ds = (ds, "").
Proof.
  induction ds as [|c ds IH]; simpl; [done|].
  intros [Hc Hds]%andb_prop. rewrite Hc, (IH Hds). done.
Qed.

Lemma match_here_plain (s ds : string) :
  ends_plain s = true -> s <> "" -> match_here (s ++ ds) = None.
Proof.
  induction s as [|c s IH]; [done|]. intros Hp _.
  destruct s as [|c' s].
  - simpl in Hp. apply andb_prop in Hp as [Hc Hn].
    apply negb_true_iff in Hc. unfold match_here. simpl. rewrite Hc. simpl.
    destruct ds; [|done]. destruct (decide (c = "010"%char)); done.
  - assert (Hp' : ends_plain (String c' s) = true) by exact Hp.
    specialize (IH Hp' ltac:(done)).
    unfold match_here in *. change (String c (String c' s) ++ ds) with
      (String c (String c' s ++ ds)).
    cbn [span_digits]. destruct (is_digit c); cbn [fst snd].
    + destruct (at_end (span_digits (String c' s ++ ds)).2); [discriminate|done].
    + done.
Qed.

Lemma re_search_plain (base ds : string) :
  ends_plain base = true -> all_digits ds = true ->
  re_search (base ++ ds) = (String.length base, ds).
Proof.
  intros Hp Hd. induction base as [|c base IH].
  - change ("" ++ ds) with ds. destruct ds as [|d ds]; [reflexivity|].
    unfold re_search, match_here. rewrite (span_digits_all _ Hd). done.
  - assert (Hp' : ends_plain base = true).
    { destruct base; [done|exact Hp]. }
    change (String c base ++ ds) with (String c (base ++ ds)).
    cbn [re_search].
    change (String c (base ++ ds)) with (String c base ++ ds).
    rewrite (match_here_plain (String c base) ds Hp ltac:(done)).
    rewrite (IH Hp'). done.
Qed.

Lemma prefix_app (base s : string) : prefix (String.length base) (base ++ s) = base.
Proof.
  unfold prefix. induction base as [|c base IH]; simpl.
  - by destruct s.
  - by rewrite IH.
Qed.

Lemma uint_of_digit (c : ascii) (s : string) (d0 : Decimal.uint) :
  is_digit c = true -> NilEmpty.uint_of_string s = Some d0 ->
  exists d1, NilEmpty.uint_of_string (String c s) = Some d1.
Proof.
  intros Hc Hs.
  destruct c as [[] [] [] [] [] [] [] []]; try discriminate Hc; simpl;
    rewrite Hs; simpl; eauto.
Qed.

Lemma uint_of_all_digits (ds : string) :
  all_digits ds = true -> exists d, NilEmpty.uint_of_string ds = Some d.
Proof.
  induction ds as [|c ds IH]; simpl.
  - eauto.
  - intros [Hc Hds]%andb_prop. destruct (IH Hds) as [d0 Hd0].
    exact (uint_of_digit c ds d0 Hc Hd0).
Qed.

Lemma int_all_digits (ds : string) :
  all_digits ds = true -> ds <> "" -> exists n, int_ ds = Some n.
Proof.
  intros Hd Hne. destruct (uint_of_all_digits ds Hd) as [d Hdd].
  exists (N.of_uint d). unfold int_. destruct ds; [done|]. by rewrite Hdd.
Qed.

Lemma str_nonempty (n : N) : str n <> "".
Proof.
  unfold str. destruct n as [|p]; [done|]. simpl.
  intros H. assert (Hu := NilEmpty.usu (Pos.to_uint p)). rewrite H in Hu.
  simpl in Hu. injection Hu as Hu.
  pose proof (DecimalPos.Unsigned.to_uint_nonnil p). congruence.
Qed.

Lemma int_str (n : N) : int_ (str n) = Some n.
Proof.
  unfold int_. pose proof (str_nonempty n) as Hne.
  destruct (str n) eqn:E; [done|]. rewrite <- E. unfold str.
  rewrite NilEmpty.usu. simpl. by rewrite DecimalN.Unsigned.of_to.
Qed.

End NamesFacts.

Section NamesTheorems.
Import Names.
Local Open Scope string_scope.

Lemma span_digits_spec (s : string) :
  s = (span_digits s).1 ++ (span_digits s).2 /\ all_digits (span_digits s).1 = true.
Proof.
  induction s as [|c s [IH1 IH2]]; simpl; [done|].
  destruct (is_digit c) eqn:Hc; simpl; [|done].
  rewrite Hc, IH2. split; [|done]. rewrite IH1 at 1. reflexivity.
Qed.

Lemma at_end_cases (r : string) :
  at_end r = true -> r = "" \/ r = String "010"%char "".
Proof.
  destruct r as [|c [|c' r]]; simpl; [by left| |done].
  destruct (decide (c = "010"%char)) as [->|]; [by right|done].
Qed.

Lemma re_search_decomp (s : string) :
  exists pre tail,
    s = pre ++ (re_search s).2 ++ tail /\
    String.length pre = (re_search s).1 /\
    all_digits (re_search s).2 = true /\
    (tail = "" \/ tail = String "010"%char "").
Proof.
  induction s as [|c s IH].
  - exists "", "". split_and!; try done. by left.
  - cbn [re_search]. unfold match_here.
    destruct (span_digits_spec (String c s)) as [Hs Hd].
    destruct (at_end (span_digits (String c s)).2) eqn:He.
    + exists "", (span_digits (String c s)).2. cbn [fst snd].
      split_and!; [exact Hs|done|exact Hd|by apply at_end_cases].
    + destruct IH as (pre & tail & Heq & Hlen & Hdig & Htail).
      exists (String c pre), tail. cbn [fst snd]. split_and!; try done.
      * rewrite Heq at 1. reflexivity.
      * simpl. by rewrite Hlen.
Qed.

Lemma string_app_inv_head (p a b : string) : p ++ a = p ++ b -> a = b.
Proof. apply String.app_inj. Qed.

Lemma uint_of_string_newline (ds : string) :
  NilEmpty.uint_of_string (ds ++ String "010"%char "") = None.
Proof.
  induction ds as [|c ds IH]; [done|].
  change (String c ds ++ String "010"%char "") with (String c (ds ++ String "010"%char "")).
  cbn [NilEmpty.uint_of_string]. rewrite IH.
  by destruct c as [[] [] [] [] [] [] [] []].
Qed.

Lemma string_app_empty_r (s : string) : s ++ "" = s.
Proof.
  induction s as [|c s IH]; [done|].
  change (String c s ++ "") with (String c (s ++ "")). by rewrite IH.
Qed.

Lemma increment_name_app (base ds : string) (n : N) :
  ends_plain base = true -> all_digits ds = true ->
  (ds = "" /\ n = 1%N \/ int_ ds = Some n) ->
  increment_name (base ++ ds) = Some (base ++ str (n + 1)).
Proof.
  intros Hp Hd Hn. unfold increment_name.
  rewrite (re_search_plain base ds Hp Hd). cbn [fst snd].
  rewrite prefix_app.
  destruct (decide (ds = "")) as [->|Hne].
  - destruct Hn as [[_ ->]|Hn]; [done|]. by simpl in Hn.
  - destruct Hn as [[? _]|Hn]; [done|]. by rewrite Hn.
Qed.

(** X9. A name that is empty or ends in a character that is neither a digit
    nor a newline gets the count 2 appended; a name that ends in a run of
    digits (leading zeros allowed) gets that run replaced by the decimal
    form of its value plus one. *)
Theorem increment_name_counts (base ds : string) (n : N) :
  ends_plain base = true -> all_digits ds = true ->
  (ds = "" /\ n = 1%N \/ int_ ds = Some n) ->
  increment_name (base ++ ds) = Some (base ++ str (n + 1)).
Proof. apply increment_name_app. Qed.

Lemma increment_name_counts_witness :
  increment_name ("state" ++ "007") = Some ("state" ++ str (7 + 1)).
Proof.
  apply increment_name_counts; [reflexivity|reflexivity|right; reflexivity].
Defined.

Lemma all_digits_of_uint (s : string) (d : Decimal.uint) :
  NilEmpty.uint_of_string s = Some d -> all_digits s = true.
Proof.
  revert d. induction s as [|c s IH]; intros d; [done|].
  cbn [NilEmpty.uint_of_string all_digits].
  destruct (NilEmpty.uint_of_string s) as [d0|] eqn:Hs.
  - rewrite (IH d0 eq_refl).
    destruct c as [[] [] [] [] [] [] [] []]; simpl; done.
  - destruct c as [[] [] [] [] [] [] [] []]; simpl; done.
Qed.

Lemma str_all_digits (n : N) : all_digits (str n) = true.
Proof. eapply all_digits_of_uint. unfold str. apply NilEmpty.usu. Qed.

(** X10. Incrementing [k + 1] times a name that does not end in a digit or a
    newline gives the name followed by [k + 2]: the first file is the
    unnumbered one and the following ones are numbered from 2. *)
Theorem increment_times_plain (base : string) (k : nat) :
  ends_plain base = true ->
  increment_times (S k) base = Some (base ++ str (N.of_nat k + 2)).
Proof.
  intros Hp.
  assert (Hstep : forall n : N,
    increment_name (base ++ str n) = Some (base ++ str (n + 1))).
  { intros n. apply increment_name_app; [done|apply str_all_digits|].
    right. apply int_str. }
  assert (Hiter : forall j (n : N),
    increment_times j (base ++ str n) = Some (base ++ str (n + N.of_nat j))).
  { induction j as [|j IH]; intros n.
    - simpl. by rewrite N.add_0_r.
    - cbn [increment_times]. rewrite Hstep, IH. do 3 f_equal. lia. }
  cbn [increment_times].
  rewrite <- (string_app_empty_r base) at 1.
  rewrite (increment_name_app base "" 1 Hp eq_refl) by (by left).
  rewrite Hiter. do 3 f_equal. lia.
Qed.

Lemma increment_times_plain_witness :
  increment_times 3 "trajectory" = Some ("trajectory" ++ str 4).
Proof. apply (increment_times_plain "trajectory" 2). reflexivity. Defined.

(** X11. [increment_name] returns on every name, and what it returns is never
    the name it was given. *)
Theorem increment_name_new (s : string) :
  exists r, increment_name s = Some r /\ r <> s.
Proof.
  destruct (re_search_decomp s) as (pre & tail & Heq & Hlen & Hdig & Htail).
  unfold increment_name.
  assert (Hpre : prefix (re_search s).1 s = pre).
  { rewrite <- Hlen. rewrite Heq at 1. apply prefix_app. }
  rewrite Hpre.
  assert (Hne : forall n,
    (if decide ((re_search s).2 = "") then Some 1%N else int_ (re_search s).2) = Some n ->
    pre ++ str (n + 1) <> s).
  { intros n Hn Hbad. rewrite Heq in Hbad at 1.
    apply string_app_inv_head in Hbad.
    destruct Htail as [->| ->].
    - rewrite string_app_empty_r in Hbad.
      destruct (decide ((re_search s).2 = "")) as [He|He].
      + rewrite He in Hbad. by apply str_nonempty in Hbad.
      + rewrite <- Hbad in Hn. rewrite int_str in Hn. injection Hn as Hn. lia.
    - pose proof (int_str (n + 1)) as Hint. rewrite Hbad in Hint.
      unfold int_ in Hint. rewrite uint_of_string_newline in Hint.
      by destruct ((re_search s).2 ++ String "010"%char ""). }
  destruct (decide ((re_search s).2 = "")) as [He|He].
  - eexists. split; [reflexivity|]. by apply Hne.
  - destruct (int_all_digits _ Hdig He) as [n Hn]. rewrite Hn.
    eexists. split; [reflexivity|]. by apply Hne.
Qed.

End NamesTheorems.

(** ** [merge_specs_by_name_and_smile] *)

Section MolSpecsFacts.
Import MolSpecs.
Local Open Scope Z_scope.

Variable to_smiles : string -> option string.

Local Abbreviation spec_key := (MolSpecs.spec_key to_smiles).
Local Abbreviation firsts_from := (MolSpecs.firsts_from to_smiles).
Local Abbreviation firsts := (MolSpecs.firsts to_smiles).
Local Abbreviation same_key := (MolSpecs.same_key to_smiles).
Local Abbreviation merged := (MolSpecs.merged to_smiles).
Local Abbreviation merge_step := (MolSpecs.merge_step to_smiles).
Local Abbreviation merge_loop := (MolSpecs.merge_loop to_smiles).

Implicit Types (s : MoleculeSpec) (l p : list MoleculeSpec) (d : odict).

Lemma with_count_id s : with_count (count s) s = s.
Proof. by destruct s. Qed.

Lemma add_to_with_count c c' s : add_to_count c (with_count c' s) = with_count (c' + c) s.
Proof. done. Qed.

Lemma total_count_app l1 l2 : total_count (l1 ++ l2) = total_count l1 + total_count l2.
Proof.
  unfold total_count. rewrite fmap_app.
  induction (count <$> l1) as [|a l IH]; simpl; [done|]. rewrite IH. lia.
Qed.

Lemma firsts_from_elem seen l s :
  s ∈ firsts_from seen l -> s ∈ l /\ spec_key s ∉ seen.
Proof.
  revert seen. induction l as [|a l IH]; intros seen; simpl.
  - by intros ?%elem_of_nil.
  - destruct (decide (spec_key a ∈ seen)) as [Hin|Hnin].
    + intros [??]%IH. split; [by right|done].
    + intros [->|[H1 H2]%IH]%elem_of_cons.
      * split; [by left|done].
      * split; [by right|]. intros ?. apply H2. by right.
Qed.

Lemma firsts_from_keys seen l s :
  s ∈ l -> spec_key s ∉ seen -> spec_key s ∈ spec_key <$> firsts_from seen l.
Proof.
  revert seen. induction l as [|a l IH]; intros seen; simpl.
  - by intros ?%elem_of_nil.
  - intros [->|Hs]%elem_of_cons Hseen.
    + rewrite decide_False by done. rewrite fmap_cons. by left.
    + destruct (decide (spec_key a ∈ seen)); [by apply IH|].
      rewrite fmap_cons. destruct (decide (spec_key s = spec_key a)) as [->|Hne].
      * by left.
      * right. apply IH; [done|]. intros [?|?]%elem_of_cons; done.
Qed.

Lemma firsts_from_NoDup seen l : NoDup (spec_key <$> firsts_from seen l).
Proof.
  revert seen. induction l as [|a l IH]; intros seen; simpl.
  - constructor.
  - destruct (decide (spec_key a ∈ seen)); [apply IH|].
    rewrite fmap_cons. constructor; [|apply IH].
    intros (s & Hk & Hs)%list_elem_of_fmap.
    apply firsts_from_elem in Hs as [_ Hs]. apply Hs. rewrite Hk. by left.
Qed.

Lemma firsts_from_snoc seen l s :
  firsts_from seen (l ++ [s]) =
    firsts_from seen l ++
      (if decide (spec_key s ∈ seen ++ (spec_key <$> l)) then [] else [s]).
Proof.
  revert seen. induction l as [|a l IH]; intros seen; simpl.
  - rewrite app_nil_r. by destruct (decide (spec_key s ∈ seen)).
  - destruct (decide (spec_key a ∈ seen)) as [Hin|Hnin].
    + rewrite IH. f_equal. apply decide_ext.
      rewrite !elem_of_app, elem_of_cons.
      intuition (subst; auto); left; congruence.
    + rewrite IH. simpl. do 2 f_equal. apply decide_ext.
      repeat (rewrite elem_of_app || rewrite elem_of_cons). tauto.
Qed.

Lemma same_key_snoc s l a :
  same_key s (l ++ [a]) =
    same_key s l ++ (if decide (spec_key a = spec_key s) then [a] else []).
Proof.
  unfold MolSpecs.same_key. rewrite filter_app. reflexivity.
Qed.

Lemma same_key_none s l : spec_key s ∉ spec_key <$> l -> same_key s l = [].
Proof.
  intros Hnin. unfold MolSpecs.same_key.
  induction l as [|a l IH]; [done|].
  rewrite fmap_cons in Hnin. apply not_elem_of_cons in Hnin as [Hne Hnin].
  rewrite filter_cons, decide_False by done. by apply IH.
Qed.

Local Abbreviation merge_inv := (MolSpecs.merge_inv to_smiles).

Lemma odict_get_Some d k r : odict_get d k = Some r -> (k, r) ∈ d.
Proof.
  induction d as [|[k' r'] d IH]; simpl; [done|].
  destruct (decide (k = k')) as [->|Hne].
  - intros [= ->]. by left.
  - intros H. right. by apply IH.
Qed.

Lemma odict_get_None d k : odict_get d k = None -> k ∉ d.*1.
Proof.
  induction d as [|[k' r'] d IH]; simpl.
  - intros _ ?%elem_of_nil. done.
  - destruct (decide (k = k')) as [->|Hne]; [done|].
    intros H [?|?]%elem_of_cons; [done|]. by apply IH.
Qed.

Lemma NoDup_fst_eq {A B} (l : list (A * B)) a b1 b2 :
  NoDup l.*1 -> (a, b1) ∈ l -> (a, b2) ∈ l -> b1 = b2.
Proof.
  induction l as [|[a' b'] l IH]; simpl.
  - by intros _ ?%elem_of_nil.
  - intros [Hnin Hnd]%NoDup_cons [[= -> ->]|H1]%elem_of_cons [[= ->]|H2]%elem_of_cons.
    + done.
    + exfalso. apply Hnin. apply list_elem_of_fmap. by exists (a', b2).
    + subst. exfalso. apply Hnin. apply list_elem_of_fmap. by exists (a', b1).
    + by apply IH.
Qed.

Lemma NoDup_snd_eq {A B} (l : list (A * B)) a1 a2 b :
  NoDup l.*2 -> (a1, b) ∈ l -> (a2, b) ∈ l -> a1 = a2.
Proof.
  induction l as [|[a' b'] l IH]; simpl.
  - by intros _ ?%elem_of_nil.
  - intros [Hnin Hnd]%NoDup_cons [[= -> ->]|H1]%elem_of_cons [[= ->]|H2]%elem_of_cons.
    + done.
    + exfalso. apply Hnin. apply list_elem_of_fmap. by exists (a2, b').
    + subst. exfalso. apply Hnin. apply list_elem_of_fmap. by exists (a1, b').
    + by apply IH.
Qed.

Lemma Forall2_impl_elem {A B} (P Q : A -> B -> Prop) (l : list A) (k : list B) :
  Forall2 P l k ->
  (forall x y, x ∈ l -> y ∈ k -> P x y -> Q x y) ->
  Forall2 Q l k.
Proof.
  induction 1 as [|x y l k Hxy Hlk IH]; intros Himp; constructor.
  - apply Himp; [by left|by left|done].
  - apply IH. intros x' y' Hx' Hy'. apply Himp; by right.
Qed.

Lemma Forall2_elem_l {A B} (P : A -> B -> Prop) (l : list A) (k : list B) x :
  Forall2 P l k -> x ∈ l -> exists y, y ∈ k /\ P x y.
Proof.
  induction 1 as [|x' y l k Hxy Hlk IH]; [by intros ?%elem_of_nil|].
  intros [->|Hx]%elem_of_cons.
  - exists y. split; [by left|done].
  - destruct (IH Hx) as (y' & Hy' & HP). exists y'. split; [by right|done].
Qed.

Lemma inv_keys objs p done objs' d :
  merge_inv objs p done objs' d -> Some <$> d.*1 = spec_key <$> firsts p.
Proof.
  intros [_ _ _ Hv]. revert Hv. generalize (firsts p). intros l Hv.
  induction Hv as [|[k r] s d' l' [Hk _] _ IH]; [done|].
  rewrite !fmap_cons. cbn [fst] in *. by rewrite Hk, IH.
Qed.

Lemma inv_keys_NoDup objs p done objs' d :
  merge_inv objs p done objs' d -> NoDup d.*1.
Proof.
  intros Hinv. pose proof (firsts_from_NoDup [] p) as H.
  fold (firsts p) in H. rewrite <- (inv_keys _ _ _ _ _ Hinv) in H.
  by apply NoDup_fmap_1 in H.
Qed.

Lemma total_count_one s : total_count [s] = count s.
Proof. unfold total_count. simpl. lia. Qed.

Lemma merge_step_inv objs p done objs' d r s :
  merge_inv objs p done objs' d -> r ∉ done -> objs !! r = Some s ->
  is_Some (spec_key s) ->
  exists objs'' d',
    merge_step (objs', d) r = Some (objs'', d') /\
    merge_inv objs (p ++ [s]) (done ++ [r]) objs'' d'.
Proof.
  intros Hinv Hr Hs [k Hk].
  pose proof (inv_keys _ _ _ _ _ Hinv) as Hkeys.
  pose proof (inv_keys_NoDup _ _ _ _ _ Hinv) as Hnd1.
  destruct Hinv as [Hframe Hdone Hnd Hvals].
  assert (Hrd : r ∉ d.*2) by (intros ?; by apply Hr, Hdone).
  unfold MolSpecs.merge_step. rewrite (Hframe r Hrd), Hs, Hk.
  destruct (odict_get d k) as [r0|] eqn:Hget.
  - apply odict_get_Some in Hget.
    destruct (Forall2_elem_l _ _ _ _ Hvals Hget) as (s0 & Hs0 & Hk0 & Hv0).
    cbn [fst snd] in Hk0, Hv0. rewrite Hv0.
    assert (Hin : spec_key s ∈ spec_key <$> p).
    { rewrite Hk, <- Hk0. apply list_elem_of_fmap. exists s0. split; [done|].
      by apply firsts_from_elem in Hs0 as [? _]. }
    assert (Hfirsts : firsts (p ++ [s]) = firsts p).
    { unfold MolSpecs.firsts. rewrite firsts_from_snoc.
      rewrite decide_True by done. apply app_nil_r. }
    eexists _, _. split; [reflexivity|]. split.
    + intros r' Hr'. rewrite list_lookup_insert_ne; [by apply Hframe|].
      intros ->. apply Hr'. apply list_elem_of_fmap. by exists (k, r').
    + intros r' Hr'. apply elem_of_app. left. by apply Hdone.
    + done.
    + rewrite Hfirsts. eapply Forall2_impl_elem; [exact Hvals|].
      intros [ki ri] s' Hkr Hs' [Hki Hvi]. cbn [fst snd] in *. split; [done|].
      destruct (decide (ki = k)) as [->|Hne].
      * assert (ri = r0) as -> by (eapply NoDup_fst_eq; eauto).
        rewrite list_lookup_insert_eq by (by eapply lookup_lt_Some).
        f_equal. assert (Heq : with_count (total_count (same_key s0 p)) s0
                             = with_count (total_count (same_key s' p)) s') by congruence.
        rewrite Heq, add_to_with_count, same_key_snoc, total_count_app.
        rewrite decide_True by congruence. by rewrite total_count_one.
      * assert (ri ≠ r0).
        { intros ->. apply Hne. eapply NoDup_snd_eq; eauto. }
        rewrite list_lookup_insert_ne by done. rewrite Hvi.
        rewrite same_key_snoc, decide_False by congruence. by rewrite app_nil_r.
  - apply odict_get_None in Hget.
    assert (Hnin : spec_key s ∉ spec_key <$> p).
    { intros (a & Ha & Hap)%list_elem_of_fmap.
      assert (Hf : spec_key a ∈ spec_key <$> firsts p).
      { apply firsts_from_keys; [done|]. by intros ?%elem_of_nil. }
      rewrite <- Ha, <- Hkeys, Hk in Hf.
      apply list_elem_of_fmap in Hf as (k' & [= <-] & Hk'). done. }
    assert (Hfirsts : firsts (p ++ [s]) = firsts p ++ [s]).
    { unfold MolSpecs.firsts. rewrite firsts_from_snoc. by rewrite decide_False. }
    eexists _, _. split; [reflexivity|]. split.
    + intros r' Hr'. apply Hframe. intros Hin. apply Hr'.
      rewrite fmap_app. apply elem_of_app. by left.
    + intros r' Hr'. rewrite fmap_app in Hr'. apply elem_of_app in Hr' as [Hr'|Hr'].
      * apply elem_of_app. left. by apply Hdone.
      * apply elem_of_app. right. exact Hr'.
    + rewrite fmap_app. apply NoDup_app. split_and!; [done| |apply NoDup_singleton].
      intros r' Hr' ->%list_elem_of_singleton. done.
    + rewrite Hfirsts. apply Forall2_app.
      * eapply Forall2_impl_elem; [exact Hvals|].
        intros [ki ri] s' Hkr Hs' [Hki Hvi]. cbn [fst snd] in *. split; [done|].
        rewrite Hvi. rewrite same_key_snoc, decide_False; [by rewrite app_nil_r|].
        intros Heq. apply Hnin. rewrite Heq. apply list_elem_of_fmap. exists s'.
        split; [done|]. by apply firsts_from_elem in Hs' as [? _].
      * constructor; [|constructor]. cbn [fst snd]. split; [done|].
        rewrite (Hframe r Hrd), Hs. f_equal.
        rewrite same_key_snoc, decide_True by done.
        rewrite same_key_none by done. simpl. rewrite total_count_one.
        symmetry. apply with_count_id.
Qed.

Lemma merge_loop_inv objs refs :
  forall p done objs' d ins,
    merge_inv objs p done objs' d -> NoDup (done ++ refs) ->
    deref objs refs = Some ins ->
    Forall (fun s => is_Some (spec_key s)) ins ->
    exists objs'' d',
      merge_loop (objs', d) refs = Some (objs'', d') /\
      merge_inv objs (p ++ ins) (done ++ refs) objs'' d'.
Proof.
  induction refs as [|r refs IH]; intros p done objs' d ins Hinv Hnd Hderef Hkeys.
  - injection Hderef as <-. rewrite !app_nil_r. eexists _, _. split; [reflexivity|done].
  - apply mapM_Some in Hderef. inversion Hderef as [|? s ? ins' Hs Hrest]; subst.
    apply mapM_Some in Hrest. apply Forall_cons in Hkeys as [Hk Hkeys].
    assert (Hr : r ∉ done).
    { apply NoDup_app in Hnd as (_ & Hdisj & _). intros Hin.
      apply (Hdisj r Hin). by left. }
    destruct (merge_step_inv objs p done objs' d r s Hinv Hr Hs Hk)
      as (objs1 & d1 & Hstep & Hinv1).
    assert (Hnd1 : NoDup ((done ++ [r]) ++ refs)) by (by rewrite <- app_assoc).
    destruct (IH (p ++ [s]) (done ++ [r]) objs1 d1 ins' Hinv1 Hnd1 Hrest Hkeys)
      as (objs2 & d2 & Hloop & Hinv2).
    exists objs2, d2. cbn [MolSpecs.merge_loop]. rewrite Hstep. split; [exact Hloop|].
    by rewrite <- !app_assoc in Hinv2.
Qed.

Lemma merge_specs_merged (objs : list MoleculeSpec) (refs : list nat)
    (ins : list MoleculeSpec) :
  NoDup refs -> deref objs refs = Some ins ->
  Forall (fun s => is_Some (spec_key s)) ins ->
  merge_specs_by_name_and_smile to_smiles objs refs = Some (merged ins).
Proof.
  intros Hnd Hderef Hkeys.
  assert (Hinit : merge_inv objs [] [] objs []).
  { split; try done; constructor. }
  destruct (merge_loop_inv objs refs [] [] objs [] ins Hinit Hnd Hderef Hkeys)
    as (objs' & d & Hloop & [_ _ _ Hvals]).
  unfold merge_specs_by_name_and_smile, odict in *. rewrite Hloop.
  unfold odict_values, MolSpecs.merged. apply mapM_Some.
  apply Forall2_fmap_r. simpl in Hvals.
  eapply Forall2_impl; [exact Hvals|]. by intros kr s [_ ?].
Qed.

Lemma deref_seq l : deref l (seq 0 (length l)) = Some l.
Proof.
  apply mapM_Some. apply Forall2_same_length_lookup. split.
  - by rewrite length_seq.
  - intros i r s Hr Hs. apply lookup_seq in Hr as [-> _]. done.
Qed.

Lemma spec_key_with_count c s : spec_key (with_count c s) = spec_key s.
Proof. done. Qed.

Lemma merged_keys l : spec_key <$> merged l = spec_key <$> firsts l.
Proof. unfold MolSpecs.merged. rewrite <- list_fmap_compose. by apply list_fmap_ext. Qed.

Lemma total_count_merged l :
  total_count (merged l) =
    foldr Z.add 0 ((fun s => total_count (same_key s l)) <$> firsts l).
Proof.
  unfold MolSpecs.merged, total_count at 1. rewrite <- list_fmap_compose. done.
Qed.

Lemma same_key_cons_ne s a l :
  spec_key a ≠ spec_key s -> same_key s (a :: l) = same_key s l.
Proof. intros Hne. unfold MolSpecs.same_key. by rewrite filter_cons, decide_False. Qed.

Lemma same_key_cons_eq s a l :
  spec_key a = spec_key s -> same_key s (a :: l) = a :: same_key s l.
Proof. intros Heq. unfold MolSpecs.same_key. by rewrite filter_cons, decide_True. Qed.

Lemma total_count_cons a l : total_count (a :: l) = count a + total_count l.
Proof. done. Qed.

Lemma total_split seen a l :
  spec_key a ∉ seen ->
  total_count (filter (fun s => spec_key s ∉ seen) l) =
    total_count (same_key a l) +
    total_count (filter (fun s => spec_key s ∉ spec_key a :: seen) l).
Proof.
  intros Ha. induction l as [|b l IH]; [done|].
  rewrite !filter_cons.
  destruct (decide (spec_key b = spec_key a)) as [Heq|Hne].
  - rewrite same_key_cons_eq by done.
    rewrite decide_True by (by rewrite Heq).
    rewrite decide_False by (rewrite Heq; intros H; apply H; by left).
    rewrite !total_count_cons, IH. lia.
  - rewrite same_key_cons_ne by done.
    destruct (decide (spec_key b ∉ seen)) as [Hb|Hb].
    + rewrite decide_True by (by intros [?|?]%elem_of_cons).
      rewrite !total_count_cons, IH. lia.
    + rewrite decide_False; [exact IH|].
      intros H. apply Hb. intros Hin. apply H. by right.
Qed.

Lemma total_firsts_from seen l :
  foldr Z.add 0 ((fun s => total_count (same_key s l)) <$> firsts_from seen l) =
    total_count (filter (fun s => spec_key s ∉ seen) l).
Proof.
  revert seen. induction l as [|a l IH]; intros seen; [done|].
  cbn [MolSpecs.firsts_from]. rewrite filter_cons.
  destruct (decide (spec_key a ∈ seen)) as [Hin|Hnin].
  - rewrite decide_False by (by intros H). rewrite <- IH. f_equal.
    apply Forall_fmap_ext, Forall_forall. intros s Hs.
    apply firsts_from_elem in Hs as [_ Hs].
    rewrite same_key_cons_ne; [done|]. intros Heq. apply Hs. by rewrite <- Heq.
  - rewrite decide_True by done. rewrite fmap_cons. cbn [foldr].
    rewrite same_key_cons_eq by done. rewrite !total_count_cons.
    rewrite (total_split seen a l Hnin), <- IH.
    assert (Hext : (fun s => total_count (same_key s (a :: l)))
                     <$> firsts_from (spec_key a :: seen) l
                 = (fun s => total_count (same_key s l))
                     <$> firsts_from (spec_key a :: seen) l).
    { apply Forall_fmap_ext, Forall_forall. intros s Hs.
      apply firsts_from_elem in Hs as [_ Hs].
      rewrite same_key_cons_ne; [done|]. intros Heq. apply Hs. rewrite Heq. by left. }
    rewrite Hext. lia.
Qed.

Lemma total_count_merged_eq l : total_count (merged l) = total_count l.
Proof.
  rewrite total_count_merged. unfold MolSpecs.firsts. rewrite total_firsts_from.
  f_equal. induction l as [|a l IH]; [done|].
  rewrite filter_cons, decide_True by (by intros ?%elem_of_nil). by rewrite IH.
Qed.

Lemma firsts_from_id seen l :
  NoDup (spec_key <$> l) -> (forall s, s ∈ l -> spec_key s ∉ seen) ->
  firsts_from seen l = l.
Proof.
  revert seen. induction l as [|a l IH]; intros seen Hnd Hseen; [done|].
  rewrite fmap_cons in Hnd. apply NoDup_cons in Hnd as [Ha Hnd].
  cbn [MolSpecs.firsts_from]. rewrite decide_False by (apply Hseen; by left).
  f_equal. apply IH; [done|]. intros s Hs [Heq|Hin]%elem_of_cons.
  - apply Ha. rewrite <- Heq. apply list_elem_of_fmap. by exists s.
  - apply (Hseen s); [by right|done].
Qed.

Lemma same_key_unique l :
  NoDup (spec_key <$> l) ->
  Forall (fun s => total_count (same_key s l) = count s) l.
Proof.
  induction l as [|a l IH]; [constructor|].
  rewrite fmap_cons. intros [Ha Hnd]%NoDup_cons. constructor.
  - rewrite same_key_cons_eq by done. rewrite same_key_none by done.
    apply total_count_one.
  - specialize (IH Hnd). rewrite Forall_forall in IH. apply Forall_forall.
    intros s Hs. rewrite same_key_cons_ne; [by apply IH|].
    intros Heq. apply Ha. rewrite Heq. apply list_elem_of_fmap. by exists s.
Qed.

Lemma merged_id l : NoDup (spec_key <$> l) -> merged l = l.
Proof.
  intros Hnd. unfold MolSpecs.merged, MolSpecs.firsts.
  rewrite firsts_from_id; [|done|by intros s _ ?%elem_of_nil].
  rewrite <- (list_fmap_id l) at 2. apply Forall_fmap_ext.
  eapply Forall_impl; [by apply same_key_unique|].
  intros s Hs. simpl. rewrite Hs. apply with_count_id.
Qed.

(** X12. On a list of separate spec objects on which the toolkit does not
    raise, the merge returns the first spec of each (SMILES, name) pair, in
    the order of the input, with its count replaced by the sum of the counts
    of all specs of that pair. *)
Theorem merge_specs_first_of_each_key (objs : list MoleculeSpec) (refs : list nat)
    (ins : list MoleculeSpec) :
  NoDup refs -> deref objs refs = Some ins ->
  Forall (fun s => is_Some (spec_key s)) ins ->
  merge_specs_by_name_and_smile to_smiles objs refs = Some (merged ins).
Proof. apply merge_specs_merged. Qed.

(** X13. The merge keeps the total count: the counts of the returned specs
    add up to the counts of the given ones. *)
Theorem merge_specs_keeps_total (objs : list MoleculeSpec) (refs : list nat)
    (ins : list MoleculeSpec) :
  NoDup refs -> deref objs refs = Some ins ->
  Forall (fun s => is_Some (spec_key s)) ins ->
  exists out,
    merge_specs_by_name_and_smile to_smiles objs refs = Some out /\
    total_count out = total_count ins.
Proof.
  intros Hnd Hderef Hkeys. exists (merged ins). split.
  - by apply merge_specs_merged.
  - apply total_count_merged_eq.
Qed.

(** X14. No two of the returned specs have the same (SMILES, name) pair, and
    every pair of the input is among them. *)
Theorem merge_specs_keys_unique (objs : list MoleculeSpec) (refs : list nat)
    (ins : list MoleculeSpec) :
  NoDup refs -> deref objs refs = Some ins ->
  Forall (fun s => is_Some (spec_key s)) ins ->
  exists out,
    merge_specs_by_name_and_smile to_smiles objs refs = Some out /\
    NoDup (spec_key <$> out) /\
    (forall k, k ∈ spec_key <$> out <-> k ∈ spec_key <$> ins).
Proof.
  intros Hnd Hderef Hkeys. exists (merged ins). split_and!.
  - by apply merge_specs_merged.
  - rewrite merged_keys. apply firsts_from_NoDup.
  - intros k. rewrite merged_keys. split.
    + intros (s & -> & Hs)%list_elem_of_fmap. apply list_elem_of_fmap. exists s.
      split; [done|]. by apply firsts_from_elem in Hs as [? _].
    + intros (s & -> & Hs)%list_elem_of_fmap.
      apply firsts_from_keys; [done|]. by intros ?%elem_of_nil.
Qed.

(** X15. Merging what a merge returned changes nothing. *)
Theorem merge_specs_idempotent (objs : list MoleculeSpec) (refs : list nat)
    (ins out : list MoleculeSpec) :
  NoDup refs -> deref objs refs = Some ins ->
  Forall (fun s => is_Some (spec_key s)) ins ->
  merge_specs_by_name_and_smile to_smiles objs refs = Some out ->
  merge_values to_smiles out = Some out.
Proof.
  intros Hnd Hderef Hkeys Hout.
  rewrite (merge_specs_merged objs refs ins Hnd Hderef Hkeys) in Hout.
  injection Hout as <-. unfold merge_values.
  rewrite (merge_specs_merged (merged ins) _ (merged ins)).
  - f_equal. apply merged_id. rewrite merged_keys. apply firsts_from_NoDup.
  - apply NoDup_seq.
  - apply deref_seq.
  - apply Forall_forall. intros s (s0 & -> & Hs0)%list_elem_of_fmap.
    rewrite spec_key_with_count. rewrite Forall_forall in Hkeys. apply Hkeys.
    by apply firsts_from_elem in Hs0 as [? _].
Qed.

End MolSpecsFacts.

Section MolSpecsExamples.
Import MolSpecs.
Local Open Scope Z_scope.

Lemma demo_specs_keys :
  Forall (fun s => is_Some (spec_key demo_to_smiles s)) [water 3; ethanol 2; water 5].
Proof. repeat constructor; by eexists. Qed.

Lemma merge_specs_first_of_each_key_witness :
  merge_specs_by_name_and_smile demo_to_smiles [water 3; ethanol 2; water 5] [0; 1; 2]%nat
    = Some [water 8; ethanol 2].
Proof.
  apply (merge_specs_first_of_each_key demo_to_smiles
           [water 3; ethanol 2; water 5] [0; 1; 2]%nat [water 3; ethanol 2; water 5]).
  - apply (NoDup_seq 0 3).
  - reflexivity.
  - exact demo_specs_keys.
Defined.

Lemma merge_specs_keeps_total_witness :
  exists out,
    merge_specs_by_name_and_smile demo_to_smiles [water 3; ethanol 2; water 5] [0; 1; 2]%nat
      = Some out /\
    total_count out = 10.
Proof.
  apply (merge_specs_keeps_total demo_to_smiles
           [water 3; ethanol 2; water 5] [0; 1; 2]%nat [water 3; ethanol 2; water 5]).
  - apply (NoDup_seq 0 3).
  - reflexivity.
  - exact demo_specs_keys.
Defined.

Lemma merge_specs_keys_unique_witness :
  exists out,
    merge_specs_by_name_and_smile demo_to_smiles [water 3; ethanol 2; water 5] [0; 1; 2]%nat
      = Some out /\
    NoDup (spec_key demo_to_smiles <$> out) /\
    (forall k, k ∈ spec_key demo_to_smiles <$> out <->
               k ∈ spec_key demo_to_smiles <$> [water 3; ethanol 2; water 5]).
Proof.
  apply (merge_specs_keys_unique demo_to_smiles
           [water 3; ethanol 2; water 5] [0; 1; 2]%nat [water 3; ethanol 2; water 5]).
  - apply (NoDup_seq 0 3).
  - reflexivity.
  - exact demo_specs_keys.
Defined.

Lemma merge_specs_idempotent_witness :
  merge_values demo_to_smiles [water 8; ethanol 2] = Some [water 8; ethanol 2].
Proof.
  apply (merge_specs_idempotent demo_to_smiles
           [water 3; ethanol 2; water 5] [0; 1; 2]%nat [water 3; ethanol 2; water 5]).
  - apply (NoDup_seq 0 3).
  - reflexivity.
  - exact demo_specs_keys.
  - reflexivity.
Defined.

End MolSpecsExamples.

(** ** [_interpolate_quantity] *)

Section ScheduleFacts.
Import Schedule.
Local Open Scope Q_scope.

Lemma linspace_length (a b : Q) (num : Z) (l : list Q) :
  linspace a b num = Some l -> length l = Z.to_nat num.
Proof.
  unfold linspace. destruct (num <? 0)%Z; [done|].
  destruct (1 <? num)%Z; intros [= <-].
  - by rewrite length_insert, length_map, length_seq.
  - by rewrite length_map, length_seq.
Qed.

Lemma linspace_Some (a b : Q) (num : Z) :
  (0 <= num)%Z -> exists l, linspace a b num = Some l.
Proof.
  intros Hn. unfold linspace. destruct (num <? 0)%Z eqn:E; [lia|].
  destruct (1 <? num)%Z; eauto.
Qed.

Lemma linspace_lookup (a b : Q) (num : Z) (l : list Q) (i : nat) (v : Q) :
  linspace a b num = Some l -> l !! i = Some v ->
  (Z.of_nat i < num)%Z /\
  ((1 < num)%Z -> v == a + inject_Z (Z.of_nat i) * ((b - a) / inject_Z (num - 1))) /\
  (num = 1%Z -> v == a) /\
  ((1 < num)%Z -> Z.of_nat i = (num - 1)%Z -> v = b).
Proof.
  intros Hl Hi.
  assert (Hlt : (Z.of_nat i < num)%Z).
  { apply lookup_lt_Some in Hi. rewrite (linspace_length _ _ _ _ Hl) in Hi.
    unfold linspace in Hl. destruct (num <? 0)%Z eqn:E; [done|]. lia. }
  split; [done|].
  unfold linspace in Hl. destruct (Z.ltb_spec num 0) as [E|E]; [done|].
  set (f := fun j : nat => inject_Z (Z.of_nat j) * ((b - a) / inject_Z (num - 1)) + a) in *.
  assert (Hy : forall j w, map f (seq 0 (Z.to_nat num)) !! j = Some w -> w = f j).
  { intros j w Hj. change (map f ?l) with (f <$> l) in Hj.
    rewrite list_lookup_fmap in Hj.
    destruct (seq 0 (Z.to_nat num) !! j) as [j'|] eqn:Hs; [|done].
    apply lookup_seq in Hs as [-> _]. simpl in Hj. by injection Hj as <-. }
  destruct (Z.ltb_spec 1 num) as [E1|E1]; injection Hl as <-.
  - destruct (decide (i = Z.to_nat (num - 1))) as [->|Hne].
    + rewrite list_lookup_insert_eq in Hi
        by (rewrite length_map, length_seq; lia).
      injection Hi as <-. split_and!; [|intros; lia|done].
      intros _. rewrite Z2Nat.id by lia.
      assert (~ inject_Z (num - 1) == 0).
      { intros H. apply (proj1 (inject_Z_injective (num - 1) 0)) in H. lia. }
      field. done.
    + rewrite list_lookup_insert_ne in Hi by done.
      apply Hy in Hi as ->. split_and!; [|intros; lia|intros; lia].
      intros _. unfold f. ring.
  - apply Hy in Hi as ->. split_and!; [intros; lia| |intros; lia].
    intros ->. assert (i = 0%nat) as -> by lia. unfold f. simpl. ring.
Qed.

Lemma segment_within (lo hi x x0 x1 f0 f1 : Q) :
  lo <= f0 <= hi -> lo <= f1 <= hi -> x0 <= x -> x < x1 ->
  lo <= (f1 - f0) / (x1 - x0) * (x - x0) + f0 <= hi.
Proof.
  intros [H0l H0h] [H1l H1h] Hx0 Hx1.
  assert (Hd : 0 < x1 - x0) by lra.
  set (t := (x - x0) / (x1 - x0)).
  assert (Ht0 : 0 <= t).
  { unfold t. apply Qle_shift_div_l; [done|]. lra. }
  assert (Ht1 : t <= 1).
  { unfold t. apply Qle_shift_div_r; [done|]. lra. }
  assert (Heq : (f1 - f0) / (x1 - x0) * (x - x0) + f0 == f0 + (f1 - f0) * t).
  { unfold t. field. lra. }
  rewrite Heq. split; nra.
Qed.

Lemma increasing_tail (x0 : Q) (xp : list Q) : increasing (x0 :: xp) -> increasing xp.
Proof. intros H i u v Hu Hv. exact (H (S i) u v Hu Hv). Qed.

Lemma interp_from_within (lo hi x : Q) (xp fp : list Q) :
  forall x0 f0,
    lo <= f0 <= hi -> within lo hi fp -> x0 <= x -> increasing (x0 :: xp) ->
    lo <= interp_from x x0 f0 xp fp <= hi.
Proof.
  revert fp. induction xp as [|x1 xp IH]; intros fp x0 f0 Hf0 Hfp Hx Hinc; [done|].
  destruct fp as [|f1 fp]; [done|]. cbn [interp_from].
  apply Forall_cons in Hfp as [Hf1 Hfp].
  destruct (Qlt_le_dec x x1) as [Hlt|Hle].
  - by apply segment_within.
  - apply IH; [done|done|done|by eapply increasing_tail].
Qed.

Lemma interp_from_past (x : Q) (xp fp : list Q) :
  forall x0 f0,
    length xp = length fp -> Forall (fun u => u <= x) xp ->
    Some (interp_from x x0 f0 xp fp) = last (f0 :: fp).
Proof.
  revert fp. induction xp as [|x1 xp IH]; intros [|f1 fp] x0 f0 Hlen Hall; try done.
  cbn [interp_from]. apply Forall_cons in Hall as [H1 Hall].
  destruct (Qlt_le_dec x x1) as [Hlt|Hle]; [lra|].
  rewrite (IH fp x1 f1) by (simpl in Hlen; (lia || done)). done.
Qed.

(** The sample points [np.linspace(0, n - 1, n)] are 0, 1, ..., n - 1. *)
Lemma sample_points (n : Z) (xp : list Q) (i : nat) (u : Q) :
  linspace 0 (inject_Z (n - 1)) n = Some xp -> xp !! i = Some u ->
  u == inject_Z (Z.of_nat i).
Proof.
  intros Hxp Hu.
  destruct (linspace_lookup _ _ _ _ _ _ Hxp Hu) as (Hlt & Hmany & Hone & _).
  destruct (decide (n = 1%Z)) as [->|Hne].
  - rewrite Hone by done. assert (i = 0%nat) as -> by lia. done.
  - rewrite Hmany by lia.
    assert (~ inject_Z (n - 1) == 0).
    { intros H. apply (proj1 (inject_Z_injective (n - 1) 0)) in H. lia. }
    field. done.
Qed.

Lemma sample_points_increasing (n : Z) (xp : list Q) :
  linspace 0 (inject_Z (n - 1)) n = Some xp -> increasing xp.
Proof.
  intros Hxp i u v Hu Hv.
  rewrite (sample_points _ _ _ _ Hxp Hu), (sample_points _ _ _ _ Hxp Hv).
  rewrite <- Zlt_Qlt. lia.
Qed.

(** The points at which the schedule is read lie between 0 and [n - 1]. *)
Lemma read_points (n m : Z) (x : list Q) (j : nat) (u : Q) :
  (1 <= n)%Z -> linspace 0 (inject_Z (n - 1)) (m + 1) = Some x -> x !! j = Some u ->
  0 <= u <= inject_Z (n - 1).
Proof.
  intros Hn Hx Hu.
  destruct (linspace_lookup _ _ _ _ _ _ Hx Hu) as (Hlt & Hmany & Hone & _).
  assert (Hn0 : 0 <= inject_Z (n - 1)).
  { change 0 with (inject_Z 0). rewrite <- Zle_Qle. lia. }
  destruct (decide (m = 0%Z)) as [->|Hne].
  - rewrite Hone by done. lra.
  - assert (Hm : 0 < inject_Z (m + 1 - 1)).
    { change 0 with (inject_Z 0). rewrite <- Zlt_Qlt. lia. }
    assert (Hj0 : 0 <= inject_Z (Z.of_nat j)).
    { change 0 with (inject_Z 0). rewrite <- Zle_Qle. lia. }
    assert (Hjm : inject_Z (Z.of_nat j) <= inject_Z (m + 1 - 1)).
    { rewrite <- Zle_Qle. lia. }
    rewrite Hmany by lia.
    set (t := inject_Z (Z.of_nat j) / inject_Z (m + 1 - 1)).
    assert (Ht0 : 0 <= t) by (unfold t; apply Qle_shift_div_l; [done|lra]).
    assert (Ht1 : t <= 1) by (unfold t; apply Qle_shift_div_r; [done|lra]).
    assert (Heq : 0 + inject_Z (Z.of_nat j) * ((inject_Z (n - 1) - 0) / inject_Z (m + 1 - 1))
                  == t * inject_Z (n - 1)).
    { unfold t. field. lra. }
    rewrite Heq. split; nra.
Qed.

(** The call returns for a non-empty list of values and [n_pts >= 0], and
    what it returns is read off the values point by point. *)
Lemma interpolate_quantity_eq (v0 : Q) (rest : list Q) (n_pts : Z) :
  (0 <= n_pts)%Z ->
  exists x x0 xp,
    linspace 0 (inject_Z (Z.of_nat (length (v0 :: rest)) - 1)) (n_pts + 1) = Some x /\
    linspace 0 (inject_Z (Z.of_nat (length (v0 :: rest)) - 1))
             (Z.of_nat (length (v0 :: rest))) = Some (x0 :: xp) /\
    length xp = length rest /\
    _interpolate_quantity (v0 :: rest) n_pts =
      Some (map (fun xi => if Qlt_le_dec xi x0 then v0
                           else interp_from xi x0 v0 xp rest) x).
Proof.
  intros Hn. set (n := Z.of_nat (length (v0 :: rest))).
  destruct (linspace_Some 0 (inject_Z (n - 1)) (n_pts + 1) ltac:(lia)) as [x Hx].
  destruct (linspace_Some 0 (inject_Z (n - 1)) n ltac:(lia)) as [xp Hxp].
  pose proof (linspace_length _ _ _ _ Hxp) as Hlen.
  unfold n in Hlen. rewrite Nat2Z.id in Hlen.
  destruct xp as [|x0 xp]; [done|].
  exists x, x0, xp. split_and!; [done|done|by injection Hlen|].
  unfold _interpolate_quantity. fold n. rewrite Hx, Hxp. unfold interp.
  rewrite Hlen, Nat.eqb_refl. done.
Qed.

(** X16. For a non-empty list of values and [n_pts >= 0] the interpolated
    schedule has [n_pts + 1] entries, one for each step from 0 to [n_pts],
    and every entry lies between any two bounds that hold the values. *)
Theorem interpolate_quantity_within (values : list Q) (n_pts : Z) :
  values <> [] -> (0 <= n_pts)%Z ->
  exists sched,
    _interpolate_quantity values n_pts = Some sched /\
    length sched = Z.to_nat (n_pts + 1) /\
    forall lo hi, within lo hi values -> within lo hi sched.
Proof.
  intros Hne Hn. destruct values as [|v0 rest]; [done|].
  destruct (interpolate_quantity_eq v0 rest n_pts Hn)
    as (x & x0 & xp & Hx & Hxp & Hlen & Heq).
  eexists. split; [exact Heq|]. split.
  - rewrite length_map. by apply linspace_length in Hx.
  - intros lo hi Hw. apply Forall_cons in Hw as [Hv0 Hrest].
    apply Forall_map, Forall_forall. intros xi Hxi.
    apply list_elem_of_lookup in Hxi as [j Hj].
    destruct (Qlt_le_dec xi x0) as [Hlt|Hle]; [done|].
    apply interp_from_within; [done|done|done|].
    by eapply sample_points_increasing.
Qed.

Lemma interpolate_quantity_within_witness :
  exists sched,
    _interpolate_quantity [300; 400; 350] 4 = Some sched /\
    length sched = 5%nat /\
    within 300 400 sched.
Proof.
  destruct (interpolate_quantity_within [300; 400; 350] 4 ltac:(done) ltac:(lia))
    as (sched & Hs & Hlen & Hw).
  exists sched. split; [exact Hs|]. split; [exact Hlen|].
  apply Hw. repeat constructor; simpl; lra.
Defined.

(** X17. The schedule starts at the first value and, when [n_pts >= 1], ends
    at the last value. *)
Theorem interpolate_quantity_ends (values sched : list Q) (n_pts : Z) :
  (0 <= n_pts)%Z -> _interpolate_quantity values n_pts = Some sched ->
  (exists v v0, sched !! 0%nat = Some v /\ values !! 0%nat = Some v0 /\ v == v0) /\
  ((1 <= n_pts)%Z -> last sched = last values).
Proof.
  intros Hn Hs. destruct values as [|v0 rest].
  { unfold _interpolate_quantity in Hs. simpl in Hs.
    destruct (linspace 0 (inject_Z (Z.of_nat 0 - 1)) (n_pts + 1)); done. }
  destruct (interpolate_quantity_eq v0 rest n_pts Hn)
    as (x & x0 & xp & Hx & Hxp & Hlen & Heq).
  rewrite Heq in Hs. injection Hs as <-.
  set (n := Z.of_nat (length (v0 :: rest))) in *.
  assert (Hnpos : (1 <= n)%Z) by (unfold n; simpl; lia).
  pose proof (linspace_length _ _ _ _ Hx) as Hxlen.
  pose proof (sample_points n (x0 :: xp) 0 x0 Hxp eq_refl) as Hx0.
  change (inject_Z (Z.of_nat 0)) with 0 in Hx0.
  split.
  - destruct x as [|u x]; [simpl in Hxlen; lia|].
    eexists _, v0. split; [reflexivity|]. split; [done|].
    destruct (linspace_lookup _ _ _ _ 0%nat u Hx eq_refl) as (_ & Hmany & Hone & _).
    assert (Hu : u == 0).
    { destruct (decide (n_pts = 0%Z)) as [->|Hne]; [by apply Hone|].
      rewrite Hmany by lia. simpl. ring. }
    destruct (Qlt_le_dec u x0) as [Hlt|Hle]; [done|].
    destruct xp as [|x1 xp]; destruct rest as [|f1 rest]; try done.
    cbn [interp_from].
    pose proof (sample_points n (x0 :: x1 :: xp) 1 x1 Hxp eq_refl) as Hx1.
    change (inject_Z (Z.of_nat 1)) with 1 in Hx1.
    destruct (Qlt_le_dec u x1) as [Hlt1|Hle1].
    + rewrite Hu, Hx0, Hx1. field.
    + rewrite Hu, Hx1 in Hle1. lra.
  - intros Hn1.
    assert (Hlast : last x = Some (inject_Z (n - 1))).
    { rewrite last_lookup, Hxlen.
      destruct (x !! Nat.pred (Z.to_nat (n_pts + 1))) as [u|] eqn:Hu.
      - destruct (linspace_lookup _ _ _ _ _ u Hx Hu) as (_ & _ & _ & Hend).
        rewrite Hend; [done|lia|lia].
      - apply lookup_ge_None in Hu. exfalso. rewrite Hxlen in Hu.
        destruct (Z.to_nat (n_pts + 1)) eqn:E; simpl in Hu; lia. }
    change (map ?f x) with (f <$> x). rewrite fmap_last, Hlast. simpl.
    destruct (Qlt_le_dec (inject_Z (n - 1)) x0) as [Hlt|Hle].
    + exfalso. rewrite Hx0 in Hlt.
      change 0 with (inject_Z 0) in Hlt. rewrite <- Zlt_Qlt in Hlt. lia.
    + apply interp_from_past; [done|].
      apply Forall_forall. intros u Hu.
      apply list_elem_of_lookup in Hu as [i Hi].
      pose proof (sample_points n (x0 :: xp) (S i) u Hxp Hi) as Hui.
      assert (S i < length (x0 :: xp))%nat by (by eapply lookup_lt_Some).
      apply linspace_length in Hxp. rewrite Hui. rewrite <- Zle_Qle. lia.
Qed.

Lemma interpolate_quantity_ends_witness :
  last ramp_300_400 = last [300; 400].
Proof.
  assert (H : _interpolate_quantity [300; 400] 4 = Some ramp_300_400)
    by (vm_compute; reflexivity).
  exact (proj2 (interpolate_quantity_ends [300; 400] ramp_300_400 4 ltac:(lia) H)
               ltac:(lia)).
Defined.

(** X18. Between two values [a] and [b] the schedule is the straight ramp:
    entry [i] is [a + i * (b - a) / n_pts]. *)
Theorem interpolate_quantity_ramp (a b : Q) (n_pts : Z) (sched : list Q) (i : nat) (v : Q) :
  (1 <= n_pts)%Z -> _interpolate_quantity [a; b] n_pts = Some sched ->
  sched !! i = Some v ->
  v == a + inject_Z (Z.of_nat i) * (b - a) / inject_Z n_pts.
Proof.
  intros Hn Hs Hv.
  destruct (interpolate_quantity_eq a [b] n_pts ltac:(lia))
    as (x & x0 & xp & Hx & Hxp & Hlen & Heq).
  rewrite Heq in Hs. injection Hs as <-.
  destruct xp as [|x1 [|? ?]]; try done.
  pose proof (sample_points _ _ 0 x0 Hxp eq_refl) as Hx0.
  pose proof (sample_points _ _ 1 x1 Hxp eq_refl) as Hx1.
  change (inject_Z (Z.of_nat 0)) with 0 in Hx0.
  change (inject_Z (Z.of_nat 1)) with 1 in Hx1.
  change (map ?f x) with (f <$> x) in Hv. rewrite list_lookup_fmap in Hv.
  destruct (x !! i) as [u|] eqn:Hu; [|done]. simpl in Hv. injection Hv as <-.
  destruct (linspace_lookup _ _ _ _ _ u Hx Hu) as (Hlt & Hmany & _ & _).
  specialize (Hmany ltac:(lia)).
  change (inject_Z (Z.of_nat (length [a; b]) - 1)) with 1 in Hmany.
  replace (n_pts + 1 - 1)%Z with n_pts in Hmany by lia.
  assert (Hnp : 0 < inject_Z n_pts).
  { change 0 with (inject_Z 0). rewrite <- Zlt_Qlt. lia. }
  assert (Hu' : u == inject_Z (Z.of_nat i) / inject_Z n_pts).
  { rewrite Hmany. field. lra. }
  assert (Hu0 : 0 <= u).
  { rewrite Hu'. apply Qle_shift_div_l; [done|].
    assert (0 <= inject_Z (Z.of_nat i)).
    { change 0 with (inject_Z 0). rewrite <- Zle_Qle. lia. }
    lra. }
  destruct (Qlt_le_dec u x0) as [Hlt0|Hle0]; [lra|].
  cbn [interp_from].
  destruct (Qlt_le_dec u x1) as [Hlt1|Hle1].
  - rewrite Hx0, Hx1, Hu'. field. lra.
  - assert (Hu1 : u <= 1).
    { rewrite Hu'. apply Qle_shift_div_r; [done|].
      assert (inject_Z (Z.of_nat i) <= inject_Z n_pts) by (rewrite <- Zle_Qle; lia).
      lra. }
    assert (Hi : inject_Z (Z.of_nat i) == inject_Z n_pts).
    { assert (Hone : u == 1) by lra. rewrite Hu' in Hone.
      assert (Hm : inject_Z (Z.of_nat i)
                   == inject_Z (Z.of_nat i) / inject_Z n_pts * inject_Z n_pts)
        by (field; lra).
      rewrite Hm, Hone. ring. }
    rewrite Hi. field. lra.
Qed.

Lemma interpolate_quantity_ramp_witness :
  exists v, ramp_300_400 !! 2%nat = Some v /\
            v == 300 + inject_Z (Z.of_nat 2) * (400 - 300) / inject_Z 4.
Proof.
  eexists. split; [reflexivity|].
  apply (interpolate_quantity_ramp 300 400 4 ramp_300_400 2);
    [lia|vm_compute; reflexivity|reflexivity].
Defined.

End ScheduleFacts.

(** ** [BaseOpenMMMaker] *)

Section BaseMakerFacts.
Import BaseMaker.

Variable file_exists : string -> bool.
Variable path_join : string -> string -> string.
Variable format : option value -> string.
Variable increment_name : string -> option string.
Variable CalculationInput : attrs -> attrs.

Local Abbreviation _add_reporters :=
  (BaseMaker._add_reporters file_exists path_join format increment_name).
Local Abbreviation add_traj_reporter :=
  (BaseMaker.add_traj_reporter file_exists path_join format increment_name).
Local Abbreviation add_state_reporter :=
  (BaseMaker.add_state_reporter file_exists path_join format increment_name).
Local Abbreviation rename_if_taken := (BaseMaker.rename_if_taken file_exists increment_name).
Local Abbreviation _create_task_doc := (BaseMaker._create_task_doc format CalculationInput).
Local Abbreviation make :=
  (BaseMaker.make file_exists path_join format increment_name CalculationInput).
Local Abbreviation make_chain :=
  (BaseMaker.make_chain file_exists path_join format increment_name CalculationInput).

Implicit Types (self : attrs) (a b : string) (p : option OpenMMTaskDocument).

Lemma bind_Ok {A B} (r : result A) (k : A -> result B) (y : B) :
  bind r k = Ok y -> exists x, r = Ok x /\ k x = Ok y.
Proof. destruct r as [x|e]; simpl; [eauto|done]. Qed.

Lemma resolve_lookup_same self a p d :
  (_resolve_attr self a p d).1 !! a = (_resolve_attr self a p d).2.
Proof.
  unfold _resolve_attr. cbn [fst snd].
  repeat case_match; simplify_eq; by rewrite ?lookup_insert_eq, ?lookup_delete_eq.
Qed.

Lemma resolve_lookup_ne self a b p d :
  a ≠ b -> (_resolve_attr self b p d).1 !! a = self !! a.
Proof.
  intros Hne. unfold _resolve_attr. cbn [fst snd].
  repeat case_match; by rewrite ?lookup_insert_ne, ?lookup_delete_ne.
Qed.

Lemma resolve_value_ext self1 self2 a p d :
  self1 !! a = self2 !! a -> (_resolve_attr self1 a p d).2 = (_resolve_attr self2 a p d).2.
Proof. intros H. unfold _resolve_attr. cbn [snd]. by rewrite H. Qed.

(** X19. Resolving is sticky: once an attribute has been resolved to a value,
    the maker holds that value, and resolving the attribute again gives the
    same value and the same maker whatever previous task and defaults are
    given then. *)
Theorem resolve_attr_sticky self self' a p d v :
  _resolve_attr self a p d = (self', Some v) ->
  forall p' d', _resolve_attr self' a p' d' = (self', Some v).
Proof.
  intros H p' d'.
  assert (H1 : (_resolve_attr self a p d).1 = self') by (by rewrite H).
  assert (H2 : (_resolve_attr self a p d).2 = Some v) by (by rewrite H).
  assert (Hl : self' !! a = Some v) by (by rewrite <- H1, resolve_lookup_same).
  unfold _resolve_attr. rewrite Hl. f_equal.
  apply insert_id. done.
Qed.

Section Tracking.

Variable self0 : attrs.
Variable p : option OpenMMTaskDocument.

Local Abbreviation Q := (resolved_at self0 p).
Local Abbreviation P := (kept_or_resolved self0 p).

Lemma resolved_value a self :
  Q a self -> (_resolve_attr self a p None).2 = (_resolve_attr self0 a p None).2.
Proof.
  unfold resolved_at, _resolve_attr. cbn [snd]. intros H. rewrite H.
  repeat case_match; simplify_eq; done.
Qed.

Lemma kept_value a self :
  P a self -> (_resolve_attr self a p None).2 = (_resolve_attr self0 a p None).2.
Proof.
  intros [H|H]; [by apply resolve_value_ext|by apply resolved_value].
Qed.

Lemma P_start a : P a self0.
Proof. by left. Qed.

Lemma Q_P a self : Q a self -> P a self.
Proof. by right. Qed.

Lemma PQ_resolve a self : P a self -> Q a (_resolve_attr self a p None).1.
Proof.
  intros H. unfold resolved_at. rewrite resolve_lookup_same. by apply kept_value.
Qed.

Lemma Q_resolve a b self : Q a self -> Q a (_resolve_attr self b p None).1.
Proof.
  intros H. destruct (decide (a = b)) as [<-|Hne].
  - apply PQ_resolve. by right.
  - unfold resolved_at. by rewrite resolve_lookup_ne.
Qed.

Lemma P_resolve a b self : P a self -> P a (_resolve_attr self b p None).1.
Proof.
  intros H. destruct (decide (a = b)) as [<-|Hne].
  - right. by apply PQ_resolve.
  - destruct H as [H|H]; [left|right]; unfold resolved_at; by rewrite resolve_lookup_ne.
Qed.

Lemma Q_insert a b v self : a ≠ b -> Q a self -> Q a (<[b := v]> self).
Proof. intros Hne H. unfold resolved_at. by rewrite lookup_insert_ne. Qed.

Lemma P_insert a b v self : a ≠ b -> P a self -> P a (<[b := v]> self).
Proof.
  intros Hne [H|H]; [left|right]; unfold resolved_at; by rewrite lookup_insert_ne.
Qed.

Lemma rename_if_taken_tracks a attr file name kind self self' :
  a ≠ attr ->
  rename_if_taken self attr file name p kind = Ok self' ->
  (P a self -> P a self') /\ (Q a self -> Q a self').
Proof.
  intros Hne H. unfold BaseMaker.rename_if_taken in H.
  apply bind_Ok in H as ([] & _ & H).
  - apply bind_Ok in H as (v & _ & [= <-]).
    split; intros; [by apply P_insert|by apply Q_insert].
  - by injection H as <-.
Qed.

Lemma create_simulation_tracks a self :
  (P a self -> P a (_create_simulation self p)) /\
  (Q a self -> Q a (_create_simulation self p)) /\
  (a ∈ ["temperature"; "friction_coefficient"; "step_size"; "platform_name";
        "platform_properties"] ->
   P a self -> Q a (_create_simulation self p)).
Proof.
  unfold _create_simulation. split_and!.
  - intros H. by repeat apply P_resolve.
  - intros H. by repeat apply Q_resolve.
  - intros Ha H. repeat (apply elem_of_cons in Ha as [->|Ha]);
      [..|by apply elem_of_nil in Ha];
      eauto 8 using P_resolve, Q_resolve, PQ_resolve.
Qed.

Lemma add_traj_reporter_tracks a self dir ti tn tt rv self' reps :
  a ∉ file_names ->
  add_traj_reporter self dir p ti tn tt rv = Ok (self', reps) ->
  (P a self -> P a self') /\ (Q a self -> Q a self').
Proof.
  intros Ha H. unfold BaseMaker.add_traj_reporter in H.
  destruct (_ && _ && _); [done|].
  apply bind_Ok in H as (self1 & Hren & [= <- _]).
  apply (rename_if_taken_tracks a) in Hren as [HP HQ].
  - split; intros; [by apply P_resolve, HP|by apply Q_resolve, HQ].
  - intros ->. apply Ha. by left.
Qed.

Lemma add_state_reporter_tracks a self dir si sn self' reps :
  a ∉ file_names ->
  add_state_reporter self dir p si sn = Ok (self', reps) ->
  (P a self -> P a self') /\ (Q a self -> Q a self').
Proof.
  intros Ha H. unfold BaseMaker.add_state_reporter in H.
  apply bind_Ok in H as (self1 & Hren & H).
  apply bind_Ok in H as (file & _ & [= <- _]).
  apply (rename_if_taken_tracks a) in Hren; [done|].
  intros ->. apply Ha. right. by left.
Qed.

Lemma add_reporters_tracks a self dir self' reps :
  a ∉ file_names ->
  _add_reporters self dir p = Ok (self', reps) ->
  (P a self -> P a self') /\
  (Q a self -> Q a self') /\
  (a ∈ ["n_steps"; "traj_interval"; "traj_file_type"; "report_velocities";
        "state_interval"] ->
   P a self -> Q a self').
Proof.
  intros Ha H. unfold BaseMaker._add_reporters in H.
  apply bind_Ok in H as (has_steps & _ & H).
  apply bind_Ok in H as (traj_on & _ & H).
  apply bind_Ok in H as ([self1 reps1] & Htraj & H).
  apply bind_Ok in H as (state_on & _ & H).
  apply bind_Ok in H as ([self2 reps2] & Hstate & [= <- _]).
  cbn [fst snd] in *.
  assert (Ht : (P a (_resolve_attr
                       (_resolve_attr
                          (_resolve_attr
                             (_resolve_attr (_resolve_attr self "n_steps" p None).1
                                "traj_interval" p None).1
                             "traj_file_name" p None).1
                          "traj_file_type" p None).1
                       "report_velocities" p None).1 -> P a self1) /\
               (Q a (_resolve_attr
                       (_resolve_attr
                          (_resolve_attr
                             (_resolve_attr (_resolve_attr self "n_steps" p None).1
                                "traj_interval" p None).1
                             "traj_file_name" p None).1
                          "traj_file_type" p None).1
                       "report_velocities" p None).1 -> Q a self1)).
  { destruct (has_steps && traj_on).
    - by eapply add_traj_reporter_tracks.
    - by injection Htraj as <- _. }
  assert (Hs : (P a (_resolve_attr (_resolve_attr self1 "state_interval" p None).1
                       "state_file_name" p None).1 -> P a self2) /\
               (Q a (_resolve_attr (_resolve_attr self1 "state_interval" p None).1
                       "state_file_name" p None).1 -> Q a self2)).
  { destruct (has_steps && state_on).
    - by eapply add_state_reporter_tracks.
    - by injection Hstate as <- _. }
  destruct Ht as [HtP HtQ], Hs as [HsP HsQ].
  split_and!.
  - intros H. apply HsP. do 2 apply P_resolve. apply HtP. by repeat apply P_resolve.
  - intros H. apply HsQ. do 2 apply Q_resolve. apply HtQ. by repeat apply Q_resolve.
  - intros Hin H. apply HsQ.
    repeat (apply elem_of_cons in Hin as [->|Hin]); [..|by apply elem_of_nil in Hin].
    + do 2 apply Q_resolve. apply HtQ. eauto 8 using P_resolve, Q_resolve, PQ_resolve.
    + do 2 apply Q_resolve. apply HtQ. eauto 8 using P_resolve, Q_resolve, PQ_resolve.
    + do 2 apply Q_resolve. apply HtQ. eauto 8 using P_resolve, Q_resolve, PQ_resolve.
    + do 2 apply Q_resolve. apply HtQ. eauto 8 using P_resolve, Q_resolve, PQ_resolve.
    + apply Q_resolve, PQ_resolve, HtP. by repeat apply P_resolve.
Qed.

End Tracking.

Lemma Ok_pair_inv {A B} (x x' : A) (y y' : B) :
  Ok (x, y) = Ok (x', y') -> x = x' /\ y = y'.
Proof. by intros [= -> ->]. Qed.

(** Attributes that are neither resolved before the copy nor file names
    are left as they were. *)
Lemma rename_if_taken_other a attr file name kind self self' p :
  a ≠ attr ->
  rename_if_taken self attr file name p kind = Ok self' -> self' !! a = self !! a.
Proof.
  intros Hne H. unfold BaseMaker.rename_if_taken in H.
  apply bind_Ok in H as ([] & _ & H).
  - apply bind_Ok in H as (v & _ & [= <-]). by rewrite lookup_insert_ne.
  - by injection H as <-.
Qed.

Lemma add_reporters_other a self dir p self' reps :
  a ∉ file_names -> a ∉ carried ->
  _add_reporters self dir p = Ok (self', reps) -> self' !! a = self !! a.
Proof.
  intros Hf Hc H. unfold file_names, carried in *.
  repeat (apply not_elem_of_cons in Hf as [? Hf]).
  repeat (apply not_elem_of_cons in Hc as [? Hc]).
  unfold BaseMaker._add_reporters in H.
  apply bind_Ok in H as (has_steps & _ & H).
  apply bind_Ok in H as (traj_on & _ & H).
  apply bind_Ok in H as ([self1 reps1] & Htraj & H).
  apply bind_Ok in H as (state_on & _ & H).
  apply bind_Ok in H as ([self2 reps2] & Hstate & [= <- _]).
  cbn [fst snd] in *.
  assert (Hstep : self2 !! a = self1 !! a).
  { destruct (has_steps && state_on).
    - unfold BaseMaker.add_state_reporter in Hstate.
      apply bind_Ok in Hstate as (s & Hren & Hstate).
      apply bind_Ok in Hstate as (file & _ & [= <- _]).
      apply (rename_if_taken_other a) in Hren; [|done].
      by rewrite Hren, !resolve_lookup_ne.
    - apply Ok_pair_inv in Hstate as [<- _]. by rewrite !resolve_lookup_ne. }
  rewrite Hstep.
  destruct (has_steps && traj_on).
  - unfold BaseMaker.add_traj_reporter in Htraj.
    destruct (_ && _ && _); [done|].
    apply bind_Ok in Htraj as (s & Hren & [<- _]%Ok_pair_inv).
    apply (rename_if_taken_other a) in Hren; [|done].
    by rewrite !resolve_lookup_ne, Hren, !resolve_lookup_ne.
  - apply Ok_pair_inv in Htraj as [<- _]. by rewrite !resolve_lookup_ne.
Qed.

Hypothesis CalculationInput_keeps : forall kwargs, CalculationInput kwargs = kwargs.

(** The attributes of the maker when [_create_task_doc] copies them. *)
Lemma make_inv self0 class_name output_dir cwd p self' doc :
  make self0 class_name output_dir cwd p = Ok (self', doc) ->
  exists self calc,
    calcs_reversed doc = calc :: calcs_of p /\
    input calc = delete "tags" (delete "name" self) /\
    output_embed_traj calc =
      (_resolve_attr
         (_resolve_attr
            (_resolve_attr (_resolve_attr self "state_file_name" p None).1
               "traj_file_name" p None).1
            "traj_file_type" p None).1
         "embed_traj" p None).2 /\
    (forall a, a ∉ file_names ->
       (kept_or_resolved self0 p a self) /\
       (a ∈ carried -> resolved_at self0 p a self)) /\
    (forall a, a ∉ file_names -> a ∉ carried -> self !! a = self0 !! a).
Proof.
  intros H. unfold BaseMaker.make in H.
  apply bind_Ok in H as ([self1 reps] & Hadd & [= <- <-]). cbn [fst snd] in *.
  eexists _, _. split_and!; [reflexivity|by rewrite CalculationInput_keeps|reflexivity| |].
  - intros a Ha.
    destruct (create_simulation_tracks self0 p a self0) as (HcP & HcQ & HcPQ).
    destruct (add_reporters_tracks self0 p a _ _ _ _ Ha Hadd) as (HaP & HaQ & HaPQ).
    unfold _update_interchange. split.
    + apply P_resolve, HaP, HcP, P_start.
    + intros Hin. unfold carried in Hin.
      repeat (apply elem_of_cons in Hin as [->|Hin]); [..|by apply elem_of_nil in Hin].
      1-5: apply Q_resolve, HaQ, HcPQ; [set_solver|apply P_start].
      1-5: apply Q_resolve, HaPQ; [set_solver|apply HcP, P_start].
      apply PQ_resolve, HaP, HcP, P_start.
  - intros a Hf Hc.
    unfold _update_interchange.
    rewrite resolve_lookup_ne by (unfold carried in Hc; set_solver).
    rewrite (add_reporters_other a _ _ _ _ _ Hf Hc Hadd).
    unfold _create_simulation. unfold carried in Hc.
    repeat (apply not_elem_of_cons in Hc as [? Hc]).
    by rewrite !resolve_lookup_ne.
Qed.

Lemma make_input_resolved self0 class_name output_dir cwd p self' doc a :
  make self0 class_name output_dir cwd p = Ok (self', doc) ->
  a ∈ carried ->
  exists calc,
    calcs_reversed doc = calc :: calcs_of p /\
    input calc !! a = (_resolve_attr self0 a p None).2.
Proof.
  intros Hmake Ha.
  destruct (make_inv _ _ _ _ _ _ _ Hmake) as (self & calc & Hcalcs & Hin & _ & Htrack & _).
  exists calc. split; [done|]. rewrite Hin.
  assert (Hf : a ∉ file_names).
  { unfold carried, file_names in *. set_solver. }
  rewrite !lookup_delete_ne by (unfold carried in Ha; set_solver).
  by apply Htrack.
Qed.

(** X20. The input recorded for a job that returns holds, for each of the
    carried attributes (temperature, friction coefficient, step size,
    platform, step count, intervals, trajectory type, velocity and wrapping
    flags), the resolved value: the maker's own value if it has one, else
    the value recorded for the previous job, else the default.  The
    constructor [CalculationInput] is taken to keep the keyword arguments it
    is given. *)
Theorem make_records_resolved self0 class_name output_dir cwd p self' doc a :
  make self0 class_name output_dir cwd p = Ok (self', doc) ->
  a ∈ carried ->
  exists calc,
    calcs_reversed doc = calc :: calcs_of p /\
    input calc !! a = (_resolve_attr self0 a p None).2.
Proof. apply make_input_resolved. Qed.

Lemma make_chain_carries_from a v makers cwd :
  a ∈ carried ->
  forall p doc,
    prev_input p ≫= (fun i => i !! a) = Some v ->
    Forall (fun m : string * attrs => m.2 !! a = None) makers ->
    make_chain makers cwd p = Ok doc ->
    exists new,
      from_option calcs_reversed [] doc = new ++ calcs_of p /\
      length new = length makers /\
      Forall (fun c => input c !! a = Some v) new.
Proof.
  intros Ha. induction makers as [|[cls m] makers IH]; intros p doc Hprev Hunset Hchain.
  - injection Hchain as <-. exists []. split_and!; [by destruct p|done|constructor].
  - apply Forall_cons in Hunset as [Hm Hunset]. cbn [snd] in Hm.
    cbn [BaseMaker.make_chain] in Hchain.
    apply bind_Ok in Hchain as ([self' task] & Hmake & Hchain). cbn [snd] in Hchain.
    destruct (make_input_resolved _ _ _ _ _ _ _ a Hmake Ha) as (calc & Hcalcs & Hval).
    assert (Hv : input calc !! a = Some v).
    { rewrite Hval. unfold _resolve_attr. cbn [snd]. by rewrite Hm, Hprev. }
    destruct (IH (Some task) doc) as (new & Hnew & Hlen & Hall); [|done|done|].
    { unfold prev_input. by rewrite Hcalcs. }
    exists (new ++ [calc]). split_and!.
    + rewrite Hnew. cbn [calcs_of]. rewrite Hcalcs. by rewrite <- app_assoc.
    + rewrite length_app. simpl. lia.
    + apply Forall_app. split; [done|]. by constructor.
Qed.

(** X21. A value set on the first maker of a chain of jobs carries through the
    chain: when the later makers leave a carried attribute unset, every job
    of the chain records the first maker's value for it; and the chain puts
    one calculation per job before those of the task it started from.  The
    constructor [CalculationInput] is taken to keep the keyword arguments it
    is given. *)
Theorem make_chain_carries a v class_name self0 rest cwd p doc :
  a ∈ carried -> self0 !! a = Some v ->
  Forall (fun m : string * attrs => m.2 !! a = None) rest ->
  make_chain ((class_name, self0) :: rest) cwd p = Ok (Some doc) ->
  exists new,
    calcs_reversed doc = new ++ calcs_of p /\
    length new = S (length rest) /\
    Forall (fun c => input c !! a = Some v) new.
Proof.
  intros Ha Hset Hunset Hchain.
  cbn [BaseMaker.make_chain] in Hchain.
  apply bind_Ok in Hchain as ([self' task] & Hmake & Hchain). cbn [snd] in Hchain.
  destruct (make_input_resolved _ _ _ _ _ _ _ a Hmake Ha) as (calc & Hcalcs & Hval).
  assert (Hv : input calc !! a = Some v).
  { rewrite Hval. unfold _resolve_attr. cbn [snd]. by rewrite Hset. }
  destruct (make_chain_carries_from a v rest cwd Ha (Some task) (Some doc))
    as (new & Hnew & Hlen & Hall); [|done|done|].
  { unfold prev_input. by rewrite Hcalcs. }
  exists (new ++ [calc]). split_and!.
  - cbn in Hnew. rewrite Hnew, Hcalcs. by rewrite <- app_assoc.
  - rewrite length_app. simpl. lia.
  - apply Forall_app. split; [done|]. by constructor.
Qed.

Lemma make_embed_traj self0 class_name output_dir cwd p self' doc :
  make self0 class_name output_dir cwd p = Ok (self', doc) ->
  exists calc,
    calcs_reversed doc = calc :: calcs_of p /\
    output_embed_traj calc = (_resolve_attr self0 "embed_traj" p None).2 /\
    input calc !! "embed_traj" = self0 !! "embed_traj".
Proof.
  intros Hmake.
  destruct (make_inv _ _ _ _ _ _ _ Hmake) as (self & calc & Hcalcs & Hin & Hout & _ & Hother).
  assert (Hsame : self !! "embed_traj" = self0 !! "embed_traj").
  { apply Hother; unfold file_names, carried; set_solver. }
  exists calc. split_and!; [done| |].
  - rewrite Hout. apply resolve_value_ext. by rewrite !resolve_lookup_ne.
  - rewrite Hin. by rewrite !lookup_delete_ne.
Qed.

(** X22. [embed_traj] is inherited one job deep only.  It is resolved after
    the maker's attributes have been copied for the record, so a job that
    inherits it does not record it: of three chained jobs of which the first
    sets [embed_traj] and the others leave it unset, the second still uses
    the first one's value and the third falls back to the default.  The
    constructor [CalculationInput] is taken to keep the keyword arguments it
    is given. *)
Theorem embed_traj_one_hop c1 m1 c2 m2 c3 m3 cwd p doc v :
  m1 !! "embed_traj" = Some v ->
  m2 !! "embed_traj" = None -> m3 !! "embed_traj" = None ->
  make_chain [(c1, m1); (c2, m2); (c3, m3)] cwd p = Ok (Some doc) ->
  exists k3 k2 k1,
    calcs_reversed doc = k3 :: k2 :: k1 :: calcs_of p /\
    output_embed_traj k1 = Some v /\
    output_embed_traj k2 = Some v /\
    output_embed_traj k3 = Some (VBool false).
Proof.
  intros H1 H2 H3 Hchain. cbn [BaseMaker.make_chain] in Hchain.
  apply bind_Ok in Hchain as ([s1 t1] & Hm1 & Hchain). cbn [snd] in Hchain.
  apply bind_Ok in Hchain as ([s2 t2] & Hm2 & Hchain). cbn [snd] in Hchain.
  apply bind_Ok in Hchain as ([s3 t3] & Hm3 & Hchain). cbn [snd] in Hchain.
  injection Hchain as <-.
  destruct (make_embed_traj _ _ _ _ _ _ _ Hm1) as (k1 & Hc1 & Ho1 & Hi1).
  destruct (make_embed_traj _ _ _ _ _ _ _ Hm2) as (k2 & Hc2 & Ho2 & Hi2).
  destruct (make_embed_traj _ _ _ _ _ _ _ Hm3) as (k3 & Hc3 & Ho3 & Hi3).
  exists k3, k2, k1. split_and!.
  - rewrite Hc3. cbn [calcs_of]. rewrite Hc2. cbn [calcs_of]. by rewrite Hc1.
  - rewrite Ho1. unfold _resolve_attr. cbn [snd]. by rewrite H1.
  - rewrite Ho2. unfold _resolve_attr, prev_input. cbn [snd].
    rewrite H2, Hc1. cbn [mbind option_bind]. by rewrite Hi1, H1.
  - rewrite Ho3. unfold _resolve_attr, prev_input. cbn [snd].
    rewrite H3, Hc2. cbn [mbind option_bind]. rewrite Hi2, H2.
    vm_compute. reflexivity.
Qed.

End BaseMakerFacts.

Section BaseMakerExamples.
Import BaseMaker.

Lemma resolve_attr_sticky_witness :
  let self' := (_resolve_attr plain_maker "temperature" None None).1 in
  _resolve_attr self' "temperature" (Some {| tags := None; dir_name := "/tmp"; calcs_reversed := [] |})
    (Some {[ "temperature" := VNum 500 ]})
  = (self', Some (VNum 298)).
Proof.
  intros self'.
  apply (resolve_attr_sticky plain_maker self' "temperature" None None (VNum 298)).
  vm_compute. reflexivity.
Defined.

Lemma make_records_resolved_witness :
  exists self' doc calc,
    make no_files demo_path_join demo_format demo_increment keep_all
      hot_maker "NVTMaker" None "/tmp" None = Ok (self', doc) /\
    calcs_reversed doc = calc :: [] /\
    input calc !! "step_size" = Some (VNum (1 # 1000)).
Proof.
  assert (E : exists r,
            make no_files demo_path_join demo_format demo_increment keep_all
              hot_maker "NVTMaker" None "/tmp" None = Ok r).
  { vm_compute. eexists. reflexivity. }
  destruct E as [[self' doc] E]. exists self', doc.
  destruct (make_records_resolved no_files demo_path_join demo_format demo_increment
              keep_all (fun _ => eq_refl) hot_maker "NVTMaker" None "/tmp" None
              self' doc "step_size" E) as (calc & Hcalcs & Hval).
  - unfold carried. do 2 right. left.
  - exists calc. split_and!; [exact E|exact Hcalcs|exact Hval].
Defined.

Lemma make_chain_carries_witness :
  exists doc new,
    demo_make_chain [("NVTMaker", hot_maker); ("NPTMaker", plain_maker);
                     ("NVTMaker", plain_maker)] = Ok (Some doc) /\
    calcs_reversed doc = new ++ [] /\
    length new = 3%nat /\
    Forall (fun c => input c !! "temperature" = Some (VNum 400)) new.
Proof.
  assert (E : exists doc,
            demo_make_chain [("NVTMaker", hot_maker); ("NPTMaker", plain_maker);
                             ("NVTMaker", plain_maker)] = Ok (Some doc)).
  { vm_compute. eexists. reflexivity. }
  destruct E as [doc E]. exists doc.
  destruct (make_chain_carries no_files demo_path_join demo_format demo_increment
              keep_all (fun _ => eq_refl) "temperature" (VNum 400) "NVTMaker" hot_maker
              [("NPTMaker", plain_maker); ("NVTMaker", plain_maker)] "/tmp" None doc)
    as (new & Hnew & Hlen & Hall).
  - unfold carried. left.
  - reflexivity.
  - repeat constructor.
  - exact E.
  - exists new. split_and!; [exact E|exact Hnew|exact Hlen|exact Hall].
Defined.

Lemma embed_traj_one_hop_witness :
  exists doc k3 k2 k1,
    demo_make_chain [("NVTMaker", hot_maker); ("NPTMaker", plain_maker);
                     ("NVTMaker", plain_maker)] = Ok (Some doc) /\
    calcs_reversed doc = k3 :: k2 :: k1 :: [] /\
    output_embed_traj k1 = Some (VBool true) /\
    output_embed_traj k2 = Some (VBool true) /\
    output_embed_traj k3 = Some (VBool false).
Proof.
  assert (E : exists doc,
            demo_make_chain [("NVTMaker", hot_maker); ("NPTMaker", plain_maker);
                             ("NVTMaker", plain_maker)] = Ok (Some doc)).
  { vm_compute. eexists. reflexivity. }
  destruct E as [doc E]. exists doc.
  destruct (embed_traj_one_hop no_files demo_path_join demo_format demo_increment
              keep_all (fun _ => eq_refl) "NVTMaker" hot_maker "NPTMaker" plain_maker
              "NVTMaker" plain_maker "/tmp" None doc (VBool true))
    as (k3 & k2 & k1 & Hcalcs & H1 & H2 & H3).
  - reflexivity.
  - reflexivity.
  - reflexivity.
  - exact E.
  - exists k3, k2, k1. split_and!; [exact E|exact Hcalcs|exact H1|exact H2|exact H3].
Defined.

End BaseMakerExamples.

(** ** [as_dict] and [from_dict] of the OpenFF objects *)

Section MontyFacts.
Import Monty.

Variable V : Type.
Variable str : string -> V.
Variable Interchange : Type.
Variable interchange_dict : Interchange -> gmap string V.
Variable interchange_new : gmap string V -> option Interchange.
Variable Quantity : Type.
Variable to_tuple : Quantity -> V * V.
Variable from_tuple : V * V -> option Quantity.

(** X23. Decoding the dictionary of an interchange hands the constructor
    exactly the fields [Interchange.dict()] gave, provided none of them is
    named ["@module"] or ["@class"]: the two marker keys are taken out again
    and nothing else is. *)
Theorem interchange_monty_round_trip (x : Interchange) :
  interchange_dict x !! "@module" = None ->
  interchange_dict x !! "@class" = None ->
  openff_interchange_from_monty_dict V Interchange interchange_new
    (openff_interchange_as_monty_dict V str Interchange interchange_dict x)
  = lift (interchange_new (interchange_dict x)).
Proof.
  intros Hm Hc. unfold openff_interchange_from_monty_dict,
    openff_interchange_as_monty_dict.
  rewrite delete_insert_ne by done. rewrite !delete_insert_eq.
  by rewrite (delete_id _ _ Hm), (delete_id _ _ Hc).
Qed.

(** X24. Decoding the dictionary of a quantity calls [from_tuple] on the very
    pair [to_tuple] gave, so a quantity comes back whenever OpenFF's own
    tuple conversion brings it back. *)
Theorem quantity_monty_round_trip (q : Quantity) :
  openff_quantity_from_monty_dict V Quantity from_tuple
    (openff_quantity_as_monty_dict V str Quantity to_tuple q)
  = lift (from_tuple (to_tuple q)).
Proof.
  unfold openff_quantity_from_monty_dict, openff_quantity_as_monty_dict.
  rewrite delete_insert_ne by done. rewrite !delete_insert_eq.
  rewrite !delete_insert_ne by done. rewrite !delete_empty.
  rewrite lookup_insert_ne by done. rewrite lookup_insert_eq.
  rewrite lookup_insert_eq. by destruct (to_tuple q).
Qed.

End MontyFacts.

Section MontyExamples.
Import Monty.

Lemma interchange_monty_round_trip_witness :
  openff_interchange_from_monty_dict string demo_interchange demo_interchange_new
    (openff_interchange_as_monty_dict string demo_str demo_interchange
       demo_interchange_dict {| box_name := "water box" |})
  = Ok {| box_name := "water box" |}.
Proof.
  apply (interchange_monty_round_trip string demo_str demo_interchange
           demo_interchange_dict demo_interchange_new {| box_name := "water box" |});
    reflexivity.
Defined.

End MontyExamples.

(** ** [calculate_elyte_composition] *)

Section CompositionFacts.
Import Composition.
Local Open Scope Q_scope.

Variable mol_weight : string -> option Q.










Lemma foldl_Qplus_proper (l : list Q) (a b : Q) :
  a == b -> foldl Qplus a l == foldl Qplus b l.
Proof.
  revert a b. induction l as [|x l IH]; intros a b Hab; [done|].
  simpl. apply IH. by rewrite Hab.
Qed.














Lemma same_items_keys (a b : pydict) : same_items a b -> keys a = keys b.
Proof.
  unfold keys. induction 1 as [|x y a b [Hk _] _ IH]; [done|].
  cbn [fmap list_fmap]. by rewrite Hk, IH.
Qed.








End CompositionFacts.

Section CompositionExamples.
Import Composition.
Local Open Scope Q_scope.






End CompositionExamples.

(** ** The choice of the dynamics *)

Section AseDynamicsFacts.
Import AseDynamics.
Local Open Scope string_scope.



End AseDynamicsFacts.
